(** * srsRAN gNB slice: PDSCH concurrent processor, CU-CP UE manager,
      CU-UP F1-U bearer and CU-CP connectivity.

    Shallow embedding of
    - lib/phy/upper/channel_processors/pdsch/pdsch_processor_concurrent_impl.cpp
    - lib/cu_cp/ue_manager/ue_manager_impl.cpp
    - lib/f1u/cu_up/f1u_bearer_impl.h
    - lib/support/tracing/event_tracing.cpp
    and of the CU-CP admission behaviour exercised by
    tests/unittests/cu_cp/cu_cp_connectivity_test.cpp.

    Unsigned 32-bit quantities are integers in [Z] with the wrap-around
    written out; std::map / std::unordered_map become [gmap]; the three
    atomics of the PDSCH processor live in an explicit shared store that is
    stepped by an interleaving semantics; the trace file is the text
    printed so far, next to the queue of the tracer worker. *)

From stdpp Require Import base numbers option list gmap strings.
From Stdlib Require Import ZArith Lia Ascii.

Local Open Scope Z_scope.

(** ** Unsigned arithmetic *)

Module Units.

(** [unsigned] is 32 bits wide on the supported targets. *)
Definition wrap32 (x : Z) : Z := x mod 2 ^ 32.

Definition add32 (a b : Z) : Z := wrap32 (a + b).
Definition sub32 (a b : Z) : Z := wrap32 (a - b).
Definition mul32 (a b : Z) : Z := wrap32 (a * b).
Definition shl32 (a n : Z) : Z := wrap32 (Z.shiftl a n).

(** Modelled from the spec: [divide_ceil] comes from a support header that
    is not part of the sources; the design text calls it rounding up. *)
Definition divide_ceil (num den : Z) : Z := (num + (den - 1)) / den.

(** [units::bytes::to_bits]. *)
Definition to_bits (nbytes : Z) : Z := mul32 nbytes 8.

Lemma wrap32_range x : 0 <= wrap32 x < 2 ^ 32.
Proof. unfold wrap32. apply Z.mod_pos_bound. lia. Qed.

Lemma wrap32_small x : 0 <= x < 2 ^ 32 -> wrap32 x = x.
Proof. unfold wrap32. intros. by apply Z.mod_small. Qed.

Lemma wrap32_idemp x : wrap32 (wrap32 x) = wrap32 x.
Proof. apply wrap32_small, wrap32_range. Qed.

Lemma divide_ceil_exact q d : 0 < d -> divide_ceil (q * d) d = q.
Proof.
  intros Hd. unfold divide_ceil.
  replace (q * d + (d - 1)) with (d - 1 + q * d) by lia.
  rewrite Z.div_add by lia. rewrite Z.div_small; lia.
Qed.

Lemma divide_ceil_inexact n d :
  0 < d -> 0 <= n -> n mod d <> 0 -> divide_ceil n d = n / d + 1.
Proof.
  intros Hd Hn Hr. unfold divide_ceil.
  pose proof (Z.div_mod n d ltac:(lia)) as Hdm.
  pose proof (Z.mod_pos_bound n d Hd) as Hb.
  symmetry. apply (Z.div_unique _ _ _ (n mod d - 1)); lia.
Qed.

End Units.

Import Units.

(** ** PDSCH processor: data model *)

Module Pdsch.

(** Modulations allowed on PDSCH. *)
Inductive modulation_scheme := QPSK | QAM16 | QAM64 | QAM256.

Definition get_bits_per_symbol (m : modulation_scheme) : Z :=
  match m with QPSK => 2 | QAM16 => 4 | QAM64 => 6 | QAM256 => 8 end.

Inductive ldpc_base_graph_type := BG1 | BG2.

Record codeword_description := CodewordDescription {
  modulation : modulation_scheme;
  rv : Z
}.

(** [pdsch_processor::pdu_t].  The frequency/time allocation, the DM-RS
    description and the reserved RE patterns are kept together in [alloc];
    the number of layers is what [precoding.get_nof_layers()] returns;
    [ptrs] tells whether the optional PT-RS configuration is present. *)
Record pdu_t (allocation_t : Type) := Pdu {
  rnti : Z;
  n_id : Z;
  codewords : list codeword_description;
  ldpc_base_graph : ldpc_base_graph_type;
  tbs_lbrm : Z;
  nof_layers_of_precoding : Z;
  ptrs : bool;
  alloc : allocation_t
}.

Arguments Pdu {allocation_t}.
Arguments rnti {allocation_t}.
Arguments n_id {allocation_t}.
Arguments codewords {allocation_t}.
Arguments ldpc_base_graph {allocation_t}.
Arguments tbs_lbrm {allocation_t}.
Arguments nof_layers_of_precoding {allocation_t}.
Arguments ptrs {allocation_t}.
Arguments alloc {allocation_t}.

(** A transport block is a byte buffer. *)
Definition transport_block := list Z.

(** [codeblock_metadata]. *)
Record tb_common_metadata := TbCommon {
  base_graph : ldpc_base_graph_type;
  lifting_size : Z;
  md_rv : Z;
  md_mod : modulation_scheme;
  Nref : Z;
  cw_length : Z
}.

Record cb_specific_metadata := CbSpecific {
  full_length : Z;
  md_rm_length : Z;
  nof_filler_bits : Z;
  md_cw_offset : Z;
  nof_crc_bits : Z
}.

Record codeblock_metadata := CbMetadata {
  tb_common : tb_common_metadata;
  cb_specific : cb_specific_metadata
}.

(** The helpers of namespace [ldpc] (TS 38.212 segmentation) are declared
    in headers outside the sources; the processor is modelled over them. *)
Class ldpc_helpers := LdpcHelpers {
  compute_nof_codeblocks : Z -> ldpc_base_graph_type -> Z;
  compute_tb_crc_size : Z -> Z;
  compute_lifting_size : Z -> ldpc_base_graph_type -> Z -> Z;
  compute_codeblock_size : ldpc_base_graph_type -> Z -> Z;
  compute_full_codeblock_size : ldpc_base_graph_type -> Z -> Z;
  compute_N_ref : Z -> Z -> Z
}.

(** The members of [pdsch_processor_concurrent_impl] written by
    [save_inputs] and read by the tasks.  [data] is [None] once the
    transport block buffer has been released. *)
Record processor (allocation_t : Type) := Processor {
  data : option transport_block;
  config : option (pdu_t allocation_t);
  nof_ch_symbols : Z;
  scrambler : Z;
  tbs : Z;
  nof_cb : Z;
  cb_info_bits : Z;
  segment_length : Z;
  zero_pad : Z;
  cb_metadata : codeblock_metadata;
  rm_length : list Z;
  cw_offset : list Z;
  re_offset : list Z
}.

Arguments Processor {allocation_t}.
Arguments data {allocation_t}.
Arguments config {allocation_t}.
Arguments nof_ch_symbols {allocation_t}.
Arguments scrambler {allocation_t}.
Arguments tbs {allocation_t}.
Arguments nof_cb {allocation_t}.
Arguments cb_info_bits {allocation_t}.
Arguments segment_length {allocation_t}.
Arguments zero_pad {allocation_t}.
Arguments cb_metadata {allocation_t}.
Arguments rm_length {allocation_t}.
Arguments cw_offset {allocation_t}.
Arguments re_offset {allocation_t}.

(** State of the loop that fills [rm_length], [cw_offset], [re_offset]. *)
Record rm_loop_state := RmLoop {
  re_count_sum : Z;
  v_rm_length : list Z;
  v_cw_offset : list Z;
  v_re_offset : list Z
}.

(** RM length in RE of codeblock [i_cb]. *)
Definition rm_length_re (nof_re_pdsch nof_cb nof_short_segments i_cb : Z) : Z :=
  if bool_decide (i_cb < nof_short_segments)
  then nof_re_pdsch / nof_cb
  else divide_ceil nof_re_pdsch nof_cb.

Definition rm_loop_body (nof_re_pdsch nof_cb nof_short_segments nof_layers bits_per_symbol : Z)
    (st : rm_loop_state) (i_cb : nat) : rm_loop_state :=
  let len_re := rm_length_re nof_re_pdsch nof_cb nof_short_segments (Z.of_nat i_cb) in
  {| v_rm_length := <[i_cb := mul32 (mul32 len_re nof_layers) bits_per_symbol]> (v_rm_length st);
     v_cw_offset :=
       <[i_cb := mul32 (mul32 (re_count_sum st) nof_layers) bits_per_symbol]> (v_cw_offset st);
     v_re_offset := <[i_cb := re_count_sum st]> (v_re_offset st);
     re_count_sum := add32 (re_count_sum st) len_re |}.

(** [std::vector::resize]: keeps the old prefix, pads with zero. *)
Definition vec_resize (n : Z) (v : list Z) : list Z := resize (Z.to_nat n) 0 v.

Definition rm_loop (nof_re_pdsch nof_cb nof_short_segments nof_layers bits_per_symbol : Z)
    (old_rm old_cw old_re : list Z) : rm_loop_state :=
  foldl (rm_loop_body nof_re_pdsch nof_cb nof_short_segments nof_layers bits_per_symbol)
    {| re_count_sum := 0;
       v_rm_length := vec_resize nof_cb old_rm;
       v_cw_offset := vec_resize nof_cb old_cw;
       v_re_offset := vec_resize nof_cb old_re |}
    (seq 0 (Z.to_nat nof_cb)).

(** Scrambling initial state computed in [save_inputs]; the codeword index
    is the constant [i_cw = 0]. *)
Definition i_cw : Z := 0.

Definition scrambling_c_init (rnti n_id : Z) : Z :=
  add32 (add32 (shl32 (rnti mod 2 ^ 16) 15) (shl32 i_cw 14)) (wrap32 n_id).

Section SaveInputs.

Context {allocation_t : Type}.
Context (pdsch_compute_nof_data_re : allocation_t -> Z).
Context `{ldpc_helpers}.

(** Number of PDSCH resource elements, an [unsigned]. *)
Definition nof_re_pdsch_of (pdu : pdu_t allocation_t) : Z :=
  wrap32 (pdsch_compute_nof_data_re (alloc pdu)).

Definition nof_layers_of (pdu : pdu_t allocation_t) : Z :=
  wrap32 (nof_layers_of_precoding pdu).

(** [save_inputs].  [None] stands for the undefined behaviour of
    [front()] on an empty container and of the remainder by zero. *)
Definition save_inputs (self : processor allocation_t)
    (data_ : list transport_block) (pdu : pdu_t allocation_t)
  : option (processor allocation_t) :=
  tb ← head data_;
  cw ← head (codewords pdu);
  let nof_layers := nof_layers_of pdu in
  let nof_re_pdsch := nof_re_pdsch_of pdu in
  let nof_ch_symbols := mul32 nof_layers nof_re_pdsch in
  let c_init := scrambling_c_init (rnti pdu) (n_id pdu) in
  let tbs := to_bits (wrap32 (Z.of_nat (length tb))) in
  let nof_cb := wrap32 (compute_nof_codeblocks tbs (ldpc_base_graph pdu)) in
  if bool_decide (nof_cb = 0) then None else
  let nof_short_segments := sub32 nof_cb (nof_re_pdsch mod nof_cb) in
  let nof_tb_crc_bits := wrap32 (compute_tb_crc_size tbs) in
  let nof_cb_crc_bits := if bool_decide (1 < nof_cb) then 24 else 0 in
  let nof_tb_bits_out := add32 (add32 tbs nof_tb_crc_bits) (mul32 nof_cb_crc_bits nof_cb) in
  let cb_info_bits := sub32 (wrap32 (divide_ceil nof_tb_bits_out nof_cb)) nof_cb_crc_bits in
  let lifting := wrap32 (compute_lifting_size tbs (ldpc_base_graph pdu) nof_cb) in
  let segment_length := wrap32 (compute_codeblock_size (ldpc_base_graph pdu) lifting) in
  let modulation := modulation cw in
  let bits_per_symbol := get_bits_per_symbol modulation in
  let full_codeblock_size :=
    wrap32 (compute_full_codeblock_size (ldpc_base_graph pdu) segment_length) in
  let cw_length := mul32 (mul32 nof_re_pdsch nof_layers) bits_per_symbol in
  let zero_pad := sub32 (mul32 (add32 cb_info_bits nof_cb_crc_bits) nof_cb) nof_tb_bits_out in
  let Nref := wrap32 (compute_N_ref (tbs_lbrm pdu) nof_cb) in
  let metadata :=
    {| tb_common :=
         {| base_graph := ldpc_base_graph pdu;
            lifting_size := lifting;
            md_rv := rv cw;
            md_mod := modulation;
            Nref := Nref;
            cw_length := cw_length |};
       cb_specific :=
         {| full_length := full_codeblock_size;
            md_rm_length := 0;
            nof_filler_bits := sub32 (sub32 segment_length cb_info_bits) nof_cb_crc_bits;
            md_cw_offset := 0;
            nof_crc_bits := nof_tb_crc_bits |} |} in
  let lp := rm_loop nof_re_pdsch nof_cb nof_short_segments nof_layers bits_per_symbol
              (rm_length self) (cw_offset self) (re_offset self) in
  Some {| data := Some tb;
          config := Some pdu;
          nof_ch_symbols := nof_ch_symbols;
          scrambler := c_init;
          tbs := tbs;
          nof_cb := nof_cb;
          cb_info_bits := cb_info_bits;
          segment_length := segment_length;
          zero_pad := zero_pad;
          cb_metadata := metadata;
          rm_length := v_rm_length lp;
          cw_offset := v_cw_offset lp;
          re_offset := v_re_offset lp |}.

(** The condition checked by the assertion that closes the loop. *)
Definition rm_sum_assertion (pdu : pdu_t allocation_t) (cw : codeword_description)
    (lp : rm_loop_state) : Prop :=
  mul32 (mul32 (re_count_sum lp) (nof_layers_of pdu)) (get_bits_per_symbol (modulation cw))
  = mul32 (mul32 (nof_re_pdsch_of pdu) (nof_layers_of pdu)) (get_bits_per_symbol (modulation cw)).

End SaveInputs.

(** Modelled from the spec: the helpers of namespace [ldpc] are not part
    of the sources; this instance follows the segmentation rules of 3GPP
    TS 38.212 (Sections 5.2.2 and 5.4.2.1) that the design cites, and
    serves to run the processor model on concrete transport blocks. *)
Definition ts38212_tb_crc_size (tbs : Z) : Z :=
  if bool_decide (3824 < tbs) then 24 else 16.

Definition ts38212_nof_codeblocks (tbs : Z) (bg : ldpc_base_graph_type) : Z :=
  let B := tbs + ts38212_tb_crc_size tbs in
  let Kcb := match bg with BG1 => 8448 | BG2 => 3840 end in
  if bool_decide (B <= Kcb) then 1 else divide_ceil B (Kcb - 24).

Definition all_lifting_sizes : list Z :=
  [2; 3; 4; 5; 6; 7; 8; 9; 10; 11; 12; 13; 14; 15; 16; 18; 20; 22; 24; 26; 28; 30; 32;
   36; 40; 44; 48; 52; 56; 60; 64; 72; 80; 88; 96; 104; 112; 120; 128; 144; 160; 176;
   192; 208; 224; 240; 256; 288; 320; 352; 384].

Definition ts38212_lifting_size (tbs : Z) (bg : ldpc_base_graph_type) (nof_cb : Z) : Z :=
  let B := tbs + ts38212_tb_crc_size tbs in
  let B' := if bool_decide (1 < nof_cb) then B + 24 * nof_cb else B in
  let K' := divide_ceil B' nof_cb in
  let Kb :=
    match bg with
    | BG1 => 22
    | BG2 =>
        if bool_decide (640 < B) then 10
        else if bool_decide (560 < B) then 9
        else if bool_decide (192 < B) then 8 else 6
    end in
  default 384 (head (filter (fun z => K' <= Kb * z) all_lifting_sizes)).

Definition ts38212_codeblock_size (bg : ldpc_base_graph_type) (lifting : Z) : Z :=
  match bg with BG1 => 22 * lifting | BG2 => 10 * lifting end.

Definition ts38212_full_codeblock_size (bg : ldpc_base_graph_type) (cb_size : Z) : Z :=
  match bg with BG1 => cb_size / 22 * 66 | BG2 => cb_size / 10 * 50 end.

Definition ts38212_N_ref (tbs_lbrm_bytes nof_cb : Z) : Z :=
  (3 * (8 * tbs_lbrm_bytes)) / (2 * nof_cb).

Definition ts38212 : ldpc_helpers :=
  {| compute_nof_codeblocks := ts38212_nof_codeblocks;
     compute_tb_crc_size := ts38212_tb_crc_size;
     compute_lifting_size := ts38212_lifting_size;
     compute_codeblock_size := ts38212_codeblock_size;
     compute_full_codeblock_size := ts38212_full_codeblock_size;
     compute_N_ref := ts38212_N_ref |}.

(** Sample inputs: the allocation is summarised by its number of data RE;
    a transport block of [n] zero bytes. *)
Definition sample_pdu (rnti n_id nof_re : Z) (cws : list codeword_description)
  : pdu_t Z :=
  {| rnti := rnti; n_id := n_id; codewords := cws; ldpc_base_graph := BG1;
     tbs_lbrm := 3168; nof_layers_of_precoding := 2; ptrs := false; alloc := nof_re |}.

Definition zero_block (n : nat) : transport_block := replicate n 0.

Definition fresh_processor : processor Z :=
  {| data := None; config := None; nof_ch_symbols := 0; scrambler := 0; tbs := 0;
     nof_cb := 0; cb_info_bits := 0; segment_length := 0; zero_pad := 0;
     cb_metadata :=
       {| tb_common := {| base_graph := BG1; lifting_size := 0; md_rv := 0;
                          md_mod := QPSK; Nref := 0; cw_length := 0 |};
          cb_specific := {| full_length := 0; md_rm_length := 0; nof_filler_bits := 0;
                            md_cw_offset := 0; nof_crc_bits := 0 |} |};
     rm_length := []; cw_offset := []; re_offset := [] |}.

(** Replaces the codeword list of a PDU. *)
Definition set_codewords {allocation_t : Type} (cws : list codeword_description)
    (pdu : pdu_t allocation_t) : pdu_t allocation_t :=
  {| rnti := rnti pdu; n_id := n_id pdu; codewords := cws;
     ldpc_base_graph := ldpc_base_graph pdu; tbs_lbrm := tbs_lbrm pdu;
     nof_layers_of_precoding := nof_layers_of_precoding pdu; ptrs := ptrs pdu;
     alloc := alloc pdu |}.

(** Replaces the saved copy of the PDU. *)
Definition set_config {allocation_t : Type} (c : option (pdu_t allocation_t))
    (p : processor allocation_t) : processor allocation_t :=
  {| data := data p; config := c; nof_ch_symbols := nof_ch_symbols p;
     scrambler := scrambler p; tbs := tbs p; nof_cb := nof_cb p;
     cb_info_bits := cb_info_bits p; segment_length := segment_length p;
     zero_pad := zero_pad p; cb_metadata := cb_metadata p;
     rm_length := rm_length p; cw_offset := cw_offset p; re_offset := re_offset p |}.

(** Sum of a list of integers. *)
Definition sumZ (l : list Z) : Z := foldr Z.add 0 l.

(** ** PDSCH processor: the tasks forked by [process] *)

(** [pdsch_codeblock_processor::configuration]. *)
Record cb_configuration := CbConfiguration {
  tb_offset : Z;
  has_cb_crc : bool;
  cb_info_size : Z;
  cb_size : Z;
  cfg_zero_pad : Z;
  metadata : codeblock_metadata;
  c_init : Z
}.

(** [v[i]] on a vector of integers. *)
Definition vec_at (v : list Z) (i : Z) : Z := default 0 (v !! Z.to_nat i).

(** The configuration a worker builds for codeblock [absolute_i_cb]; the
    scrambler state is represented by the value it was initialised with. *)
Definition make_cb_config {allocation_t : Type} (p : processor allocation_t)
    (absolute_i_cb : Z) : cb_configuration :=
  let nof_info_bits :=
    Z.min (cb_info_bits p) (sub32 (tbs p) (mul32 (cb_info_bits p) absolute_i_cb)) in
  {| tb_offset := mul32 (cb_info_bits p) absolute_i_cb;
     has_cb_crc := bool_decide (1 < nof_cb p);
     cb_info_size := nof_info_bits;
     cb_size := segment_length p;
     cfg_zero_pad := zero_pad p;
     metadata :=
       {| tb_common := tb_common (cb_metadata p);
          cb_specific :=
            {| full_length := full_length (cb_specific (cb_metadata p));
               md_rm_length := vec_at (rm_length p) absolute_i_cb;
               nof_filler_bits := nof_filler_bits (cb_specific (cb_metadata p));
               md_cw_offset := vec_at (cw_offset p) absolute_i_cb;
               nof_crc_bits := nof_crc_bits (cb_specific (cb_metadata p)) |} |};
     c_init := scrambler p |}.

Inductive task_kind := KPtrs | KDmrs | KCb.

(** Observable effects, logged most recent first. *)
Inductive event :=
| EvPtrs
| EvDmrs
| EvCbStart (i_cb : Z)
| EvCbMapped (i_cb : Z) (buffer : option transport_block) (cfg : cb_configuration)
    (re_off : Z)
| EvDrained (fetched : Z)
| EvRelease
| EvAsyncDec (k : task_kind)
| EvNotify.

(** Program points of the three task bodies.  [PtrsGen]/[DmrsGen]: about
    to generate and write the reference signal; [PtrsDec]/[DmrsDec]: about
    to [async_task_counter.fetch_sub(1)]; [CbFetch]: about to
    [cb_counter.fetch_add(1)]; [CbProcess i]: about to encode and map
    codeblock [i]; [CbDecBatch]: about to [cb_task_counter.fetch_sub(1)];
    [CbRelease]: about to release the transport block; [CbDecAsync]: about
    to [async_task_counter.fetch_sub(1)]; [Notify]: about to call
    [on_finish_processing]; [Finished]: the body has returned. *)
Inductive task_pc :=
| PtrsGen | PtrsDec
| DmrsGen | DmrsDec
| CbFetch | CbProcess (i_cb : Z) | CbDecBatch | CbRelease | CbDecAsync
| Notify | Finished.

(** The atomics, the transport-block handle and the event log. *)
Record mem := Mem {
  async_task_counter : Z;
  cb_task_counter : Z;
  cb_counter : Z;
  released : bool;
  log : list event
}.

Definition emit (e : event) (m : mem) : mem :=
  {| async_task_counter := async_task_counter m; cb_task_counter := cb_task_counter m;
     cb_counter := cb_counter m; released := released m; log := e :: log m |}.

Definition set_async (v : Z) (m : mem) : mem :=
  {| async_task_counter := v; cb_task_counter := cb_task_counter m;
     cb_counter := cb_counter m; released := released m; log := log m |}.

Definition set_cb_task (v : Z) (m : mem) : mem :=
  {| async_task_counter := async_task_counter m; cb_task_counter := v;
     cb_counter := cb_counter m; released := released m; log := log m |}.

Definition set_cb_counter (v : Z) (m : mem) : mem :=
  {| async_task_counter := async_task_counter m; cb_task_counter := cb_task_counter m;
     cb_counter := v; released := released m; log := log m |}.

Definition set_released (m : mem) : mem :=
  {| async_task_counter := async_task_counter m; cb_task_counter := cb_task_counter m;
     cb_counter := cb_counter m; released := true; log := log m |}.

(** Program points of [process] followed by [fork_cb_batches], after
    [save_inputs]. *)
Inductive main_pc :=
| MSetCounter
| MPtrs
| MPtrsSpawn
| MDmrsSpawn
| MForkCount
| MForkReset
| MSpawn (i_task : Z)
| MDone.

(** The caller's thread is at [main] unless it is running a task body
    inline ([inl] is then not [Finished]); [pool] holds the bodies the
    executor accepted. *)
Record state := State {
  st_mem : mem;
  main : main_pc;
  inl : task_pc;
  pool : list task_pc
}.

Section Tasks.

Context {allocation_t : Type}.
Variable p : processor allocation_t.
Variable capacity : Z.

Definition ptrs_configured : bool :=
  match config p with Some pdu => ptrs pdu | None => false end.

(** [std::min(cb_processor_pool->capacity(), nof_cb)]. *)
Definition nof_cb_tasks : Z := Z.min capacity (nof_cb p).

(** [async_task_counter.fetch_sub(1) == 1] followed by the branch. *)
Definition dec_async (k : task_kind) (m : mem) : mem * task_pc :=
  let old := async_task_counter m in
  (emit (EvAsyncDec k) (set_async (sub32 old 1) m),
   if bool_decide (old = 1) then Notify else Finished).

(** One atomic action of a task body. *)
Definition task_step (m : mem) (pc : task_pc) : mem * task_pc :=
  match pc with
  | PtrsGen => (emit EvPtrs m, PtrsDec)
  | PtrsDec => dec_async KPtrs m
  | DmrsGen => (emit EvDmrs m, DmrsDec)
  | DmrsDec => dec_async KDmrs m
  | CbFetch =>
      let fetched := cb_counter m in
      let m' := set_cb_counter (add32 fetched 1) m in
      if bool_decide (fetched < nof_cb p)
      then
        let absolute_i_cb := sub32 (sub32 (nof_cb p) 1) fetched in
        (emit (EvCbStart absolute_i_cb) m', CbProcess absolute_i_cb)
      else (emit (EvDrained fetched) m', CbDecBatch)
  | CbProcess i_cb =>
      (emit (EvCbMapped i_cb (if released m then None else data p)
               (make_cb_config p i_cb) (vec_at (re_offset p) i_cb)) m,
       CbFetch)
  | CbDecBatch =>
      let old := cb_task_counter m in
      (set_cb_task (sub32 old 1) m, if bool_decide (old = 1) then CbRelease else Finished)
  | CbRelease => (emit EvRelease (set_released m), CbDecAsync)
  | CbDecAsync => dec_async KCb m
  | Notify => (emit EvNotify m, Finished)
  | Finished => (m, Finished)
  end.

(** Hands a task to the executor when [try_exec] holds and the executor
    accepts it; runs it inline otherwise. *)
Definition spawn (try_exec accept : bool) (body : task_pc) (next : main_pc) (s : state)
  : state :=
  if try_exec && accept
  then {| st_mem := st_mem s; main := next; inl := inl s; pool := pool s ++ [body] |}
  else {| st_mem := st_mem s; main := next; inl := body; pool := pool s |}.

Definition goto (m : mem) (next : main_pc) (s : state) : state :=
  {| st_mem := m; main := next; inl := inl s; pool := pool s |}.

(** One action of the caller's thread; [accept] is the executor's answer
    should this action enqueue a task. *)
Definition main_step (accept : bool) (s : state) : option state :=
  match inl s with
  | Finished =>
      match main s with
      | MSetCounter => Some (goto (set_async 2 (st_mem s)) MPtrs s)
      | MPtrs =>
          if ptrs_configured
          then Some (goto (set_async (add32 (async_task_counter (st_mem s)) 1) (st_mem s))
                       MPtrsSpawn s)
          else Some (goto (st_mem s) MDmrsSpawn s)
      | MPtrsSpawn => Some (spawn (bool_decide (1 < capacity)) accept PtrsGen MDmrsSpawn s)
      | MDmrsSpawn => Some (spawn true accept DmrsGen MForkCount s)
      | MForkCount => Some (goto (set_cb_task nof_cb_tasks (st_mem s)) MForkReset s)
      | MForkReset => Some (goto (set_cb_counter 0 (st_mem s)) (MSpawn 0) s)
      | MSpawn i_task =>
          if bool_decide (i_task = nof_cb_tasks)
          then Some (goto (st_mem s) MDone s)
          else Some (spawn (bool_decide (1 < nof_cb_tasks)) accept CbFetch
                       (MSpawn (add32 i_task 1)) s)
      | MDone => None
      end
  | _ => None
  end.

(** The body being run inline advances. *)
Definition inline_step (s : state) : option state :=
  match inl s with
  | Finished => None
  | pc =>
      let '(m, pc') := task_step (st_mem s) pc in
      Some {| st_mem := m; main := main s; inl := pc'; pool := pool s |}
  end.

(** The [j]-th accepted body advances on a worker thread. *)
Definition pool_step (j : nat) (s : state) : option state :=
  match pool s !! j with
  | Some Finished | None => None
  | Some pc =>
      let '(m, pc') := task_step (st_mem s) pc in
      Some {| st_mem := m; main := main s; inl := inl s; pool := <[j := pc']> (pool s) |}
  end.

(** Interleaving semantics: any enabled thread may move next. *)
Inductive step : state -> state -> Prop :=
| step_main accept s s' : main_step accept s = Some s' -> step s s'
| step_inline s s' : inline_step s = Some s' -> step s s'
| step_pool j s s' : pool_step j s = Some s' -> step s s'.

(** [process] has just returned from [save_inputs]; the atomics hold
    whatever the previous transmission left. *)
Definition init_state (stale_async stale_cb_task stale_cb : Z) : state :=
  {| st_mem := {| async_task_counter := wrap32 stale_async;
                  cb_task_counter := wrap32 stale_cb_task;
                  cb_counter := wrap32 stale_cb; released := false; log := [] |};
     main := MSetCounter; inl := Finished; pool := [] |}.

Definition reachable (s : state) : Prop :=
  exists a b c, rtc step (init_state a b c) s.

Definition is_finished (pc : task_pc) : bool :=
  match pc with Finished => true | _ => false end.

Definition is_done (m : main_pc) : bool :=
  match m with MDone => true | _ => false end.

(** [process] has returned and every task body has returned. *)
Definition final (s : state) : bool :=
  is_done (main s) && is_finished (inl s) && forallb is_finished (pool s).

(** A scheduler decision, to run the model. *)
Inductive choice := RunMain (accept : bool) | RunInline | RunPool (j : nat).

Definition sched_step (c : choice) (s : state) : option state :=
  match c with
  | RunMain accept => main_step accept s
  | RunInline => inline_step s
  | RunPool j => pool_step j s
  end.

Fixpoint run (cs : list choice) (s : state) : option state :=
  match cs with
  | [] => Some s
  | c :: cs' => s' ← sched_step c s; run cs' s'
  end.

End Tasks.


(** ** Accounting functions over program points and over the log *)

Definition cnt (f : task_pc -> Z) (ts : list task_pc) : Z := sumZ (f <$> ts).

Definition count_ev (P : event -> bool) (l : list event) : Z :=
  sumZ ((fun e => if P e then 1 else 0) <$> l).

(** Occurrences of [i] in a list of indices. *)
Definition occ (i : Z) (l : list Z) : Z :=
  sumZ ((fun j => if bool_decide (j = i) then 1 else 0) <$> l).

(** The codeblocks taken by the workers, most recent first. *)
Definition starts (l : list event) : list Z :=
  omap (fun e => match e with EvCbStart i => Some i | _ => None end) l.

Definition active (pc : task_pc) : Z :=
  match pc with Finished => 0 | _ => 1 end.

Definition owes_async (pc : task_pc) : Z :=
  match pc with
  | PtrsGen | PtrsDec | DmrsGen | DmrsDec | CbRelease | CbDecAsync => 1
  | _ => 0
  end.

Definition owes_batch (pc : task_pc) : Z :=
  match pc with CbFetch | CbProcess _ | CbDecBatch => 1 | _ => 0 end.

Definition in_loop (pc : task_pc) : Z :=
  match pc with CbFetch | CbProcess _ => 1 | _ => 0 end.

Definition is_cb (pc : task_pc) : Z :=
  match pc with
  | CbFetch | CbProcess _ | CbDecBatch | CbRelease | CbDecAsync => 1
  | _ => 0
  end.

Definition notifying (pc : task_pc) : Z :=
  match pc with Notify => 1 | _ => 0 end.

Definition ptrs_pending (pc : task_pc) : Z :=
  match pc with PtrsGen => 1 | _ => 0 end.

Definition dmrs_pending (pc : task_pc) : Z :=
  match pc with DmrsGen => 1 | _ => 0 end.

Definition releasing (pc : task_pc) : Z :=
  match pc with CbRelease => 1 | _ => 0 end.

Definition processing (i : Z) (pc : task_pc) : Z :=
  match pc with CbProcess j => if bool_decide (j = i) then 1 else 0 | _ => 0 end.

Definition dec_pending (k : task_kind) (pc : task_pc) : Z :=
  match k, pc with
  | KPtrs, (PtrsGen | PtrsDec) => 1
  | KDmrs, (DmrsGen | DmrsDec) => 1
  | KCb, (CbRelease | CbDecAsync) => 1
  | _, _ => 0
  end.

Definition is_notify (e : event) : bool :=
  match e with EvNotify => true | _ => false end.

Definition is_ptrs (e : event) : bool :=
  match e with EvPtrs => true | _ => false end.

Definition is_dmrs (e : event) : bool :=
  match e with EvDmrs => true | _ => false end.

Definition is_release (e : event) : bool :=
  match e with EvRelease => true | _ => false end.

Definition is_drained (e : event) : bool :=
  match e with EvDrained _ => true | _ => false end.

Definition is_mapped (i : Z) (e : event) : bool :=
  match e with EvCbMapped j _ _ _ => bool_decide (j = i) | _ => false end.

Definition is_async_dec (k : task_kind) (e : event) : bool :=
  match k, e with
  | KPtrs, EvAsyncDec KPtrs | KDmrs, EvAsyncDec KDmrs | KCb, EvAsyncDec KCb => true
  | _, _ => false
  end.

Definition is_cb_event (e : event) : bool :=
  match e with
  | EvCbStart _ | EvCbMapped _ _ _ _ | EvDrained _ | EvRelease | EvAsyncDec KCb => true
  | _ => false
  end.

(** Codeblock work: a codeblock is taken or mapped. *)
Definition is_cb_work (e : event) : bool :=
  match e with EvCbStart _ | EvCbMapped _ _ _ _ => true | _ => false end.


(** Whether [pc] is a program point of the body of kind [k]; the last two
    points are common to the three bodies. *)
Definition body_point (k : task_kind) (pc : task_pc) : bool :=
  match pc with
  | Notify | Finished => true
  | PtrsGen | PtrsDec => match k with KPtrs => true | _ => false end
  | DmrsGen | DmrsDec => match k with KDmrs => true | _ => false end
  | CbFetch | CbProcess _ | CbDecBatch | CbRelease | CbDecAsync =>
      match k with KCb => true | _ => false end
  end.

(** The bodies held by the executor, in the order [process] hands them
    over: [np] PT-RS bodies, [nd] DM-RS bodies, [nw] codeblock workers. *)
Definition enqueued_bodies (np nd nw : nat) : list task_kind :=
  replicate np KPtrs ++ replicate nd KDmrs ++ replicate nw KCb.

(** Each body of [ts] is at a program point of the kind listed for it. *)
Definition holds_bodies (ks : list task_kind) (ts : list task_pc) : Prop :=
  Forall2 (fun k pc => body_point k pc = true) ks ts.

(** Position of the caller's thread along [process]. *)
Definition stage (mp : main_pc) : Z :=
  match mp with
  | MSetCounter => 0 | MPtrs => 1 | MPtrsSpawn => 2 | MDmrsSpawn => 3
  | MForkCount => 4 | MForkReset => 5 | MSpawn _ => 6 | MDone => 7
  end.

Definition tasks (s : state) : list task_pc := inl s :: pool s.

Section Accounting.

Context {allocation_t : Type}.
Variable p : processor allocation_t.
Variable capacity : Z.

(** Worker bodies that the spawn loop has not started yet. *)
Definition unspawned (mp : main_pc) : Z :=
  match mp with
  | MSpawn i => nof_cb_tasks p capacity - i
  | MDone => 0
  | _ => nof_cb_tasks p capacity
  end.

(** Decrements of [async_task_counter] owed for tasks not yet started. *)
Definition main_owes_async (mp : main_pc) : Z :=
  match mp with MPtrs | MDmrsSpawn => 1 | MPtrsSpawn => 2 | _ => 0 end.

Definition flag (b : bool) : Z := if b then 1 else 0.

(** The decrement owed by the codeblock workers as a group, given the
    value of [cb_task_counter]. *)
Definition group_owes (batch : Z) (mp : main_pc) : Z :=
  if bool_decide (stage mp < 6) then 1 else flag (bool_decide (0 < batch)).

(** Whether [async_task_counter], of value [async], is still to reach zero. *)
Definition alive (async : Z) (mp : main_pc) : Z :=
  if bool_decide (stage mp < 1) then 1 else flag (bool_decide (0 < async)).

Definition ptrs_future (mp : main_pc) : Z :=
  if bool_decide (stage mp <= 2) then flag (ptrs_configured p) else 0.

Definition dmrs_future (mp : main_pc) : Z :=
  flag (bool_decide (stage mp <= 3)).

Definition dec_future (k : task_kind) (m : mem) (mp : main_pc) : Z :=
  match k with
  | KPtrs => ptrs_future mp
  | KDmrs => dmrs_future mp
  | KCb => group_owes (cb_task_counter m) mp
  end.

Definition dec_total (k : task_kind) : Z :=
  match k with KPtrs => flag (ptrs_configured p) | _ => 1 end.

(** The counters account for the work that is still to be done. *)
Record counters_inv (m : mem) (mp : main_pc) (ts : list task_pc) : Prop := CountersInv {
  ci_range :
    0 <= async_task_counter m < 2 ^ 32 /\ 0 <= cb_task_counter m < 2 ^ 32
    /\ 0 <= cb_counter m < 2 ^ 32;
  ci_idle : stage mp <= 2 -> cnt active ts = 0;
  ci_early :
    stage mp < 6 ->
    cnt is_cb ts = 0 /\ released m = false /\ count_ev is_cb_event (log m) = 0;
  ci_ptrs_stage : stage mp = 2 -> ptrs_configured p = true;
  ci_spawn_idx : 0 <= unspawned mp <= nof_cb_tasks p capacity;
  ci_async :
    1 <= stage mp ->
    async_task_counter m
    = main_owes_async mp + group_owes (cb_task_counter m) mp + cnt owes_async ts;
  ci_batch : 5 <= stage mp -> cb_task_counter m = unspawned mp + cnt owes_batch ts;
  ci_cb_counter :
    6 <= stage mp ->
    (cb_counter m < nof_cb p -> unspawned mp + cnt in_loop ts = nof_cb_tasks p capacity)
    /\ (nof_cb p <= cb_counter m ->
        cb_counter m = nof_cb p + nof_cb_tasks p capacity - unspawned mp - cnt in_loop ts);
  ci_notify :
    count_ev is_notify (log m) + cnt notifying ts + alive (async_task_counter m) mp = 1;
  ci_dmrs : count_ev is_dmrs (log m) + cnt dmrs_pending ts + dmrs_future mp = 1;
  ci_ptrs :
    count_ev is_ptrs (log m) + cnt ptrs_pending ts + ptrs_future mp
    = flag (ptrs_configured p);
  ci_dec :
    forall k,
      count_ev (is_async_dec k) (log m) + cnt (dec_pending k) ts + dec_future k m mp
      = dec_total k;
  ci_release :
    count_ev is_release (log m) + cnt releasing ts + group_owes (cb_task_counter m) mp = 1;
  ci_released : released m = true -> 1 <= count_ev is_release (log m);
  ci_drained :
    6 <= stage mp ->
    count_ev is_drained (log m) = nof_cb_tasks p capacity - unspawned mp - cnt in_loop ts
}.

(** What each logged event must satisfy. *)
Definition event_ok (e : event) : Prop :=
  match e with
  | EvCbStart i => 0 <= i < nof_cb p
  | EvCbMapped i buffer cfg re_off =>
      buffer = data p /\ cfg = make_cb_config p i /\ re_off = vec_at (re_offset p) i
  | EvDrained fetched => nof_cb p <= fetched
  | _ => True
  end.

(** The log records the codeblocks in the order they were taken, and every
    codeblock taken is either being processed or already mapped. *)
Record log_inv (m : mem) (mp : main_pc) (ts : list task_pc) : Prop := LogInv {
  li_starts :
    starts (log m)
    = if bool_decide (6 <= stage mp)
      then seqZ (nof_cb p - Z.min (cb_counter m) (nof_cb p)) (Z.min (cb_counter m) (nof_cb p))
      else [];
  li_mapped :
    forall i, count_ev (is_mapped i) (log m) + cnt (processing i) ts = occ i (starts (log m));
  li_ok : Forall event_ok (log m)
}.

(** Everything the PDU contributes has been written. *)
Record writes_complete (l : list event) : Prop := WritesComplete {
  wc_dmrs : count_ev is_dmrs l = 1;
  wc_ptrs : count_ev is_ptrs l = flag (ptrs_configured p);
  wc_cbs : forall i, 0 <= i < nof_cb p -> count_ev (is_mapped i) l = 1;
  wc_release : count_ev is_release l = 1
}.

(** A notification, if any, is the latest event and follows all writes. *)
Definition order_inv (m : mem) : Prop :=
  count_ev is_notify (log m) = 0
  \/ exists l, log m = EvNotify :: l /\ count_ev is_notify l = 0 /\ writes_complete l.

Definition inv (s : state) : Prop :=
  counters_inv (st_mem s) (main s) (tasks s)
  /\ log_inv (st_mem s) (main s) (tasks s)
  /\ order_inv (st_mem s).

(** The transport block is released at most once, after every codeblock
    has been mapped, and no codeblock is taken or mapped afterwards. *)
Definition release_order (l : list event) : Prop :=
  count_ev is_release l = 0
  \/ exists l1 l2,
       l = l1 ++ EvRelease :: l2
       /\ count_ev is_release l1 = 0 /\ count_ev is_release l2 = 0
       /\ count_ev is_cb_work l1 = 0
       /\ forall i, 0 <= i < nof_cb p -> count_ev (is_mapped i) l2 = 1.

(** Number of bodies of kind [k] that [process] may have handed to the
    executor when the caller is at [mp]: PT-RS only with a pool of more
    than one codeblock processor, the codeblock workers only when there are
    several. *)
Definition enqueued_bound (k : task_kind) (mp : main_pc) : Z :=
  let workers i := if bool_decide (1 < nof_cb_tasks p capacity) then i else 0 in
  match k with
  | KPtrs =>
      match mp with
      | MSetCounter | MPtrs | MPtrsSpawn => 0
      | _ => flag (ptrs_configured p && bool_decide (1 < capacity))
      end
  | KDmrs =>
      match mp with
      | MSetCounter | MPtrs | MPtrsSpawn | MDmrsSpawn => 0
      | _ => 1
      end
  | KCb =>
      match mp with
      | MSpawn i => workers i
      | MDone => workers (nof_cb_tasks p capacity)
      | _ => 0
      end
  end.

(** The executor holds [np], [nd] and [nw] bodies of the three kinds, no
    more than the caller at [main s] may have handed over. *)
Definition enqueued_shape (s : state) (np nd nw : nat) : Prop :=
  holds_bodies (enqueued_bodies np nd nw) (pool s)
  /\ Z.of_nat np <= enqueued_bound KPtrs (main s)
  /\ Z.of_nat nd <= enqueued_bound KDmrs (main s)
  /\ Z.of_nat nw <= enqueued_bound KCb (main s).


(** Termination measure. *)
Definition task_measure (pc : task_pc) : Z :=
  match pc with
  | Finished => 0 | Notify => 1
  | PtrsDec | DmrsDec | CbDecAsync => 2
  | PtrsGen | DmrsGen | CbRelease => 3
  | CbDecBatch => 4 | CbFetch => 5 | CbProcess _ => 6
  end.

Definition main_measure (mp : main_pc) : Z :=
  let fork := 6 * nof_cb_tasks p capacity + 2 * nof_cb p + 1 in
  match mp with
  | MDone => 0
  | MSpawn i => 6 * (nof_cb_tasks p capacity - i) + 1
  | MForkReset => fork + 1
  | MForkCount => fork + 2
  | MDmrsSpawn => fork + 6
  | MPtrsSpawn => fork + 10
  | MPtrs => fork + 11
  | MSetCounter => fork + 12
  end.

Definition measure (s : state) : Z :=
  main_measure (main s) + cnt task_measure (tasks s)
  + (if bool_decide (6 <= stage (main s))
     then 2 * Z.max 0 (nof_cb p - cb_counter (st_mem s)) else 0).

End Accounting.

(** Value of [re_count_sum] when the loop of [save_inputs] enters iteration
    [k]. *)
Definition re_count_before (nof_re_pdsch nof_cb nof_short_segments : Z) (k : nat) : Z :=
  foldl (fun c i => add32 c (rm_length_re nof_re_pdsch nof_cb nof_short_segments (Z.of_nat i)))
    0 (seq 0 k).


(** ** The executor rejects every task *)

Section Rejecting.

Context {allocation_t : Type}.
Variable p : processor allocation_t.
Variable capacity : Z.

(** When [executor.execute] returns false the caller runs the body at once:
    the body being run inline advances, and the caller goes on only when it
    has returned. *)
Definition rejecting_step (s : state) : option state :=
  match inline_step p s with
  | Some s' => Some s'
  | None => main_step p capacity false s
  end.

Fixpoint rejecting_run (fuel : nat) (s : state) : state :=
  match fuel with
  | O => s
  | S fuel' =>
      match rejecting_step s with
      | Some s' => rejecting_run fuel' s'
      | None => s
      end
  end.

(** What the [j]-th fetch of a codeblock logs, in order. *)
Definition fetch_events (j : Z) : list event :=
  let i_cb := nof_cb p - 1 - j in
  [EvCbStart i_cb;
   EvCbMapped i_cb (data p) (make_cb_config p i_cb) (vec_at (re_offset p) i_cb)].

(** The events of a transmission processed on the caller's thread alone,
    oldest first. *)
Definition sequential_log : list event :=
  (if ptrs_configured p then [EvPtrs; EvAsyncDec KPtrs] else [])
  ++ [EvDmrs; EvAsyncDec KDmrs]
  ++ flat_map fetch_events (seqZ 0 (nof_cb p))
  ++ ((fun w => EvDrained (nof_cb p + w)) <$> seqZ 0 (nof_cb_tasks p capacity))
  ++ [EvRelease; EvAsyncDec KCb; EvNotify].

End Rejecting.


(** ** Sample inputs *)

(** A transport block of 3000 bytes (three codeblocks) on 3001 RE, two
    layers, 64QAM, for RNTI 0x4601. *)
Definition sample_processor : processor Z :=
  default fresh_processor
    (save_inputs (fun nof_re => nof_re) (H := ts38212) fresh_processor [zero_block 3000]
       (sample_pdu 17921 1 3001 [CodewordDescription QAM64 0])).

(** A schedule for a pool of capacity two: the executor accepts the DM-RS
    task and one codeblock worker and rejects the other worker, which the
    caller runs inline; the DM-RS task is the last to finish. *)
Definition sample_schedule : list choice :=
  [RunMain true; RunMain true; RunMain true; RunMain false; RunMain true; RunMain true;
   RunMain false; RunInline; RunPool 1; RunInline; RunInline; RunPool 1; RunPool 1;
   RunPool 1; RunInline; RunInline; RunInline; RunInline; RunInline; RunMain true;
   RunPool 0; RunPool 0; RunPool 0].

Definition sample_final : state :=
  default (init_state 7 8 9) (run sample_processor 2 sample_schedule (init_state 7 8 9)).

(** ** Facts *)

Lemma sumZ_app l1 l2 : sumZ (l1 ++ l2) = sumZ l1 + sumZ l2.
Proof. induction l1 as [|x l1 IH]; simpl; lia. Qed.

Lemma sumZ_fmap_scale {A : Type} (c : Z) (f : A -> Z) (l : list A) :
  sumZ ((fun i => f i * c) <$> l) = sumZ (f <$> l) * c.
Proof. induction l as [|x l IH]; csimpl; [done|]. rewrite IH. lia. Qed.

Lemma sumZ_fmap_nonneg {A : Type} (f : A -> Z) (l : list A) :
  (forall x, 0 <= f x) -> 0 <= sumZ (f <$> l).
Proof. intros Hf. induction l as [|x l IH]; csimpl; [done|]. specialize (Hf x). lia. Qed.

Lemma sumZ_fmap_le {A : Type} (f g : A -> Z) (l : list A) :
  (forall x, f x <= g x) -> sumZ (f <$> l) <= sumZ (g <$> l).
Proof. intros Hf. induction l as [|x l IH]; csimpl; [done|]. specialize (Hf x). lia. Qed.

Lemma sumZ_fmap_insert {A : Type} (f : A -> Z) (l : list A) (k : nat) (x y : A) :
  l !! k = Some x -> sumZ (f <$> <[k := y]> l) = sumZ (f <$> l) - f x + f y.
Proof.
  revert k. induction l as [|z l IH]; intros [|k] Hk; simplify_eq/=; [lia|].
  rewrite (IH k Hk). lia.
Qed.

Lemma sumZ_fmap_zero {A : Type} (f : A -> Z) (l : list A) (x : A) :
  (forall y, 0 <= f y) -> sumZ (f <$> l) = 0 -> x ∈ l -> f x = 0.
Proof.
  intros Hf. induction l as [|z l IH]; csimpl; intros Hs Hx.
  - by apply elem_of_nil in Hx.
  - pose proof (sumZ_fmap_nonneg f l Hf). pose proof (Hf z).
    apply elem_of_cons in Hx as [->|Hx]; [lia|]. apply IH; [lia|done].
Qed.

Section RmLoop.

Variables nof_re_pdsch ncb short nof_layers bps : Z.

Let body := rm_loop_body nof_re_pdsch ncb short nof_layers bps.
Let len_re (i : nat) := rm_length_re nof_re_pdsch ncb short (Z.of_nat i).
Let len_bits (i : nat) := mul32 (mul32 (len_re i) nof_layers) bps.

Lemma rm_loop_prefix (k : nat) (st0 : rm_loop_state) :
  (k <= length (v_rm_length st0))%nat ->
  v_rm_length (foldl body st0 (seq 0 k))
    = (len_bits <$> seq 0 k) ++ drop k (v_rm_length st0)
  /\ wrap32 (re_count_sum (foldl body st0 (seq 0 k)))
    = wrap32 (re_count_sum st0 + sumZ (len_re <$> seq 0 k)).
Proof.
  induction k as [|k IH]; intros Hk.
  - simpl. split; [done|]. f_equal. lia.
  - rewrite seq_S, foldl_app. simpl.
    destruct IH as [IHv IHs]; [lia|].
    split.
    + rewrite IHv. rewrite fmap_app. simpl.
      destruct (lookup_lt_is_Some_2 (v_rm_length st0) k ltac:(lia)) as [y Hy].
      rewrite (drop_S _ y k Hy).
      rewrite insert_app_r_alt by (rewrite length_fmap, length_seq; lia).
      rewrite length_fmap, length_seq, Nat.sub_diag. simpl.
      by rewrite <- app_assoc.
    + rewrite fmap_app, sumZ_app. simpl.
      unfold add32. rewrite wrap32_idemp.
      unfold wrap32 in *. rewrite <- Zplus_mod_idemp_l, IHs, Zplus_mod_idemp_l.
      f_equal. fold (len_re k). lia.
Qed.

Hypothesis ncb_pos : 0 < ncb.
Hypothesis re_nonneg : 0 <= nof_re_pdsch.
Hypothesis short_def : short = ncb - nof_re_pdsch mod ncb.

Lemma len_re_floor (i : nat) :
  Z.of_nat i < short -> len_re i = nof_re_pdsch / ncb.
Proof.
  intros Hi. unfold len_re, rm_length_re. by rewrite bool_decide_eq_true_2.
Qed.

Lemma len_re_ceil (i : nat) :
  short <= Z.of_nat i -> len_re i = divide_ceil nof_re_pdsch ncb.
Proof.
  intros Hi. unfold len_re, rm_length_re. rewrite bool_decide_eq_false_2; [done|lia].
Qed.

Lemma len_re_bounds (i : nat) : 0 <= len_re i <= nof_re_pdsch.
Proof.
  unfold len_re, rm_length_re, divide_ceil. case_bool_decide.
  - split; [apply Z.div_pos; lia|]. apply Z.div_le_upper_bound; nia.
  - split; [apply Z.div_pos; lia|].
    apply Z.lt_succ_r, Z.div_lt_upper_bound; nia.
Qed.

(** Closed form of the running RE count after [k] iterations. *)
Lemma sum_len_re_prefix (k : nat) :
  sumZ (len_re <$> seq 0 k)
  = Z.of_nat k * (nof_re_pdsch / ncb)
    + Z.max 0 (Z.of_nat k - short) * (divide_ceil nof_re_pdsch ncb - nof_re_pdsch / ncb).
Proof.
  pose proof (Z.mod_pos_bound nof_re_pdsch ncb ncb_pos) as Hr.
  induction k as [|k IH].
  { simpl. replace (Z.max 0 (0 - short)) with 0 by lia. lia. }
  rewrite seq_S, fmap_app, sumZ_app, IH. simpl.
  destruct (decide (Z.of_nat k < short)) as [Hlt|Hge].
  - rewrite len_re_floor by done.
    replace (Z.max 0 (Z.of_nat k - short)) with 0 by lia.
    replace (Z.max 0 (Z.of_nat (S k) - short)) with 0 by lia. lia.
  - rewrite len_re_ceil by lia.
    replace (Z.max 0 (Z.of_nat k - short)) with (Z.of_nat k - short) by lia.
    replace (Z.max 0 (Z.of_nat (S k) - short)) with (Z.of_nat k - short + 1) by lia.
    lia.
Qed.

Lemma sum_len_re_total :
  sumZ (len_re <$> seq 0 (Z.to_nat ncb)) = nof_re_pdsch.
Proof.
  rewrite sum_len_re_prefix, Z2Nat.id by lia.
  pose proof (Z.mod_pos_bound nof_re_pdsch ncb ncb_pos) as Hr.
  pose proof (Z.div_mod nof_re_pdsch ncb ltac:(lia)) as Hdm.
  replace (Z.max 0 (ncb - short)) with (nof_re_pdsch mod ncb) by lia.
  destruct (decide (nof_re_pdsch mod ncb = 0)) as [Hz|Hnz].
  - rewrite Hz. lia.
  - rewrite divide_ceil_inexact by lia. lia.
Qed.

Lemma rm_loop_rm_length (old_rm old_cw old_re : list Z) :
  v_rm_length (rm_loop nof_re_pdsch ncb short nof_layers bps old_rm old_cw old_re)
  = len_bits <$> seq 0 (Z.to_nat ncb).
Proof.
  unfold rm_loop.
  edestruct (rm_loop_prefix (Z.to_nat ncb)) as [-> _].
  - simpl. unfold vec_resize. by rewrite length_resize.
  - simpl. unfold vec_resize. rewrite drop_ge, app_nil_r; [done|].
    by rewrite length_resize.
Qed.

Lemma rm_loop_re_count_sum (old_rm old_cw old_re : list Z) :
  nof_re_pdsch < 2 ^ 32 ->
  re_count_sum (rm_loop nof_re_pdsch ncb short nof_layers bps old_rm old_cw old_re)
  = nof_re_pdsch.
Proof.
  intros Hlt.
  set (lp := rm_loop _ _ _ _ _ _ _ _).
  assert (wrap32 (re_count_sum lp) = nof_re_pdsch) as Hw.
  { unfold lp, rm_loop.
    edestruct (rm_loop_prefix (Z.to_nat ncb)) as [_ ->].
    - simpl. unfold vec_resize. by rewrite length_resize.
    - simpl. rewrite sum_len_re_total. apply wrap32_small. lia. }
  rewrite <- Hw. symmetry. apply wrap32_small.
  unfold lp, rm_loop.
  destruct (Z.to_nat ncb) as [|n] eqn:Hn; [lia|].
  rewrite seq_S, foldl_app. simpl. apply wrap32_range.
Qed.

Lemma len_bits_exact (i : nat) :
  0 <= nof_layers -> 0 <= bps ->
  nof_re_pdsch * nof_layers * bps < 2 ^ 32 ->
  len_bits i = len_re i * nof_layers * bps.
Proof.
  intros HL Hb Hno. unfold len_bits, mul32.
  pose proof (len_re_bounds i) as [H0 H1].
  assert (0 <= len_re i * nof_layers) as Hp by (apply Z.mul_nonneg_nonneg; lia).
  assert (len_re i * nof_layers <= nof_re_pdsch * nof_layers) as Hq
    by (apply Z.mul_le_mono_nonneg_r; lia).
  assert (len_re i * nof_layers * bps <= nof_re_pdsch * nof_layers * bps) as Hs
    by (apply Z.mul_le_mono_nonneg_r; lia).
  destruct (decide (bps = 0)) as [->|Hb0].
  { rewrite !Z.mul_0_r. done. }
  assert (len_re i * nof_layers <= len_re i * nof_layers * bps) as Ht
    by (revert Hp; generalize (len_re i * nof_layers); intros a Ha; nia).
  rewrite (wrap32_small (len_re i * nof_layers)) by lia.
  apply wrap32_small. split; [apply Z.mul_nonneg_nonneg|]; lia.
Qed.

End RmLoop.

Section SaveInputsFacts.

Context {allocation_t : Type}.
Context (pdsch_compute_nof_data_re : allocation_t -> Z).
Context `{ldpc_helpers}.

Abbreviation nof_re_of := (nof_re_pdsch_of pdsch_compute_nof_data_re).
Abbreviation save := (save_inputs pdsch_compute_nof_data_re).

(** What a successful [save_inputs] leaves in the processor. *)
Lemma save_inputs_inv self data_ pdu p :
  save self data_ pdu = Some p ->
  exists tb cw,
    head data_ = Some tb /\ head (codewords pdu) = Some cw /\
    data p = Some tb /\
    tbs p = to_bits (wrap32 (Z.of_nat (length tb))) /\
    nof_cb p = wrap32 (compute_nof_codeblocks (tbs p) (ldpc_base_graph pdu)) /\
    nof_cb p <> 0 /\
    scrambler p = scrambling_c_init (rnti pdu) (n_id pdu) /\
    cw_length (tb_common (cb_metadata p))
      = mul32 (mul32 (nof_re_of pdu) (nof_layers_of pdu)) (get_bits_per_symbol (modulation cw)) /\
    rm_length p
      = v_rm_length
          (rm_loop (nof_re_of pdu) (nof_cb p) (sub32 (nof_cb p) (nof_re_of pdu mod nof_cb p))
             (nof_layers_of pdu) (get_bits_per_symbol (modulation cw))
             (rm_length self) (cw_offset self) (re_offset self)).
Proof.
  unfold save_inputs. intros Hs.
  destruct (head data_) as [tb|] eqn:Htb; [|done].
  destruct (head (codewords pdu)) as [cw|] eqn:Hcw; [|done].
  simpl in Hs. case_bool_decide as Hz; [done|].
  inversion Hs; subst p; clear Hs. simpl.
  exists tb, cw. repeat split; done.
Qed.

Lemma nof_cb_range self data_ pdu p :
  save self data_ pdu = Some p -> 0 < nof_cb p < 2 ^ 32.
Proof.
  intros (tb & cw & _ & _ & _ & _ & Hn & Hz & _)%save_inputs_inv.
  pose proof (wrap32_range (compute_nof_codeblocks (tbs p) (ldpc_base_graph pdu))).
  lia.
Qed.

Lemma nof_short_segments_eq n r :
  0 < n < 2 ^ 32 -> 0 <= r -> sub32 n (r mod n) = n - r mod n.
Proof.
  intros Hn Hr. pose proof (Z.mod_pos_bound r n ltac:(lia)).
  apply wrap32_small. lia.
Qed.

(** The assertion at the end of the loop never fires. *)
Lemma rm_sum_assertion_holds self data_ pdu p cw :
  save self data_ pdu = Some p ->
  rm_sum_assertion pdsch_compute_nof_data_re pdu cw
    (rm_loop (nof_re_of pdu) (nof_cb p) (sub32 (nof_cb p) (nof_re_of pdu mod nof_cb p))
       (nof_layers_of pdu) (get_bits_per_symbol (modulation cw))
       (rm_length self) (cw_offset self) (re_offset self)).
Proof.
  intros Hs. pose proof (nof_cb_range _ _ _ _ Hs) as Hn.
  pose proof (wrap32_range (pdsch_compute_nof_data_re (alloc pdu))) as Hre.
  unfold rm_sum_assertion.
  rewrite rm_loop_re_count_sum; [done|lia|apply Hre| |apply Hre].
  apply nof_short_segments_eq; [done|apply Hre].
Qed.

(** C3.  After [save_inputs] (a PDU whose codeword fits in 32 bits), the
    per-codeblock rate-match lengths sum to the codeword length
    [nof_re_pdsch * nof_layers * bits_per_symbol]; the first
    [nof_cb - nof_re_pdsch mod nof_cb] codeblocks are the short segments,
    whose RE length is rounded down, and the remaining ones are rounded up. *)
Theorem rm_lengths_sum_to_codeword_length self data_ pdu p cw :
  save_inputs pdsch_compute_nof_data_re self data_ pdu = Some p ->
  head (codewords pdu) = Some cw ->
  nof_re_of pdu * nof_layers_of pdu * get_bits_per_symbol (modulation cw) < 2 ^ 32 ->
  let nof_re := nof_re_of pdu in
  let bits_per_re := nof_layers_of pdu * get_bits_per_symbol (modulation cw) in
  let nof_short_segments := nof_cb p - nof_re mod nof_cb p in
  sumZ (rm_length p) = cw_length (tb_common (cb_metadata p))
  /\ cw_length (tb_common (cb_metadata p)) = nof_re * bits_per_re
  /\ length (rm_length p) = Z.to_nat (nof_cb p)
  /\ 0 < nof_short_segments <= nof_cb p
  /\ (forall i : nat, Z.of_nat i < nof_short_segments ->
        rm_length p !! i = Some (nof_re / nof_cb p * bits_per_re))
  /\ (forall i : nat, nof_short_segments <= Z.of_nat i < nof_cb p ->
        rm_length p !! i = Some (divide_ceil nof_re (nof_cb p) * bits_per_re)).
Proof.
  intros Hs Hcw Hno nof_re bits_per_re nof_short.
  pose proof (nof_cb_range _ _ _ _ Hs) as Hn.
  destruct (save_inputs_inv _ _ _ _ Hs)
    as (tb & cw' & _ & Hcw' & _ & _ & _ & _ & _ & Hlen & Hrm).
  rewrite Hcw in Hcw'. injection Hcw' as <-.
  pose proof (wrap32_range (pdsch_compute_nof_data_re (alloc pdu))) as Hre.
  pose proof (wrap32_range (nof_layers_of_precoding pdu)) as HL.
  fold (nof_re_of pdu) in Hre. fold (nof_layers_of pdu) in HL.
  assert (0 <= get_bits_per_symbol (modulation cw)) as Hb
    by (destruct (modulation cw); simpl; lia).
  assert (sub32 (nof_cb p) (nof_re mod nof_cb p) = nof_short) as Hshort
    by (apply nof_short_segments_eq; lia).
  pose proof (Z.mod_pos_bound nof_re (nof_cb p) ltac:(lia)) as Hr.
  fold nof_re in Hrm. rewrite Hshort in Hrm.
  rewrite rm_loop_rm_length in Hrm.
  assert (rm_length p
          = (fun i => rm_length_re nof_re (nof_cb p) nof_short (Z.of_nat i) * bits_per_re)
              <$> seq 0 (Z.to_nat (nof_cb p))) as Hrm'.
  { rewrite Hrm. apply list_fmap_ext. intros _ i _.
    rewrite len_bits_exact; [unfold bits_per_re; lia|lia|lia|lia|lia|done]. }
  assert (cw_length (tb_common (cb_metadata p)) = nof_re * bits_per_re) as Hcwl.
  { rewrite Hlen. unfold mul32. fold nof_re.
    assert (0 <= nof_re * nof_layers_of pdu) by (apply Z.mul_nonneg_nonneg; lia).
    destruct (decide (get_bits_per_symbol (modulation cw) = 0)) as [Hz|Hnz].
    { unfold bits_per_re. rewrite Hz, !Z.mul_0_r. done. }
    assert (nof_re * nof_layers_of pdu
            <= nof_re * nof_layers_of pdu * get_bits_per_symbol (modulation cw)) as Hle
      by (revert H0; generalize (nof_re * nof_layers_of pdu); intros a Ha; nia).
    rewrite (wrap32_small (nof_re * nof_layers_of pdu)) by (unfold nof_re in *; lia).
    rewrite wrap32_small; [unfold bits_per_re; lia|].
    split; [apply Z.mul_nonneg_nonneg; lia|unfold nof_re; lia]. }
  split; [|split; [done|split; [|split; [lia|split]]]].
  - rewrite Hcwl, Hrm'.
    rewrite (sumZ_fmap_scale bits_per_re
               (fun i => rm_length_re nof_re (nof_cb p) nof_short (Z.of_nat i))).
    rewrite sum_len_re_total; [done|lia|lia|done].
  - rewrite Hrm'. by rewrite length_fmap, length_seq.
  - intros i Hi. rewrite Hrm', list_lookup_fmap.
    rewrite lookup_seq_lt by lia. simpl.
    by rewrite len_re_floor.
  - intros i Hi. rewrite Hrm', list_lookup_fmap.
    rewrite lookup_seq_lt by lia. simpl.
    rewrite len_re_ceil; [done|lia].
Qed.

End SaveInputsFacts.

(** ** Layout of the codeblocks in the codeword and on the grid *)

Section RmLoopOffsets.

Variables nof_re_pdsch ncb short nof_layers bps : Z.

Let body := rm_loop_body nof_re_pdsch ncb short nof_layers bps.
Let len_re (i : nat) := rm_length_re nof_re_pdsch ncb short (Z.of_nat i).
Let pre_re (i : nat) := sumZ (len_re <$> seq 0 i).
Let len_bits (i : nat) := mul32 (mul32 (len_re i) nof_layers) bps.

Let rc := re_count_before nof_re_pdsch ncb short.
Let off_bits (i : nat) := mul32 (mul32 (rc i) nof_layers) bps.

(** The loop state after [k] iterations: the first [k] entries of the three
    vectors are written, the rest is as [resize] left it. *)
Lemma rm_loop_state_prefix (k : nat) (st0 : rm_loop_state) :
  (k <= length (v_rm_length st0))%nat ->
  (k <= length (v_cw_offset st0))%nat -> (k <= length (v_re_offset st0))%nat ->
  re_count_sum st0 = 0 ->
  foldl body st0 (seq 0 k)
  = {| re_count_sum := rc k;
       v_rm_length := (len_bits <$> seq 0 k) ++ drop k (v_rm_length st0);
       v_cw_offset := (off_bits <$> seq 0 k) ++ drop k (v_cw_offset st0);
       v_re_offset := (rc <$> seq 0 k) ++ drop k (v_re_offset st0) |}.
Proof.
  induction k as [|k IH]; intros Hrm Hcw Hre H0.
  - simpl. destruct st0; simpl in *. by subst.
  - rewrite seq_S, foldl_app. simpl. rewrite IH by (lia || done).
    unfold body at 1, rm_loop_body. simpl.
    destruct (lookup_lt_is_Some_2 (v_rm_length st0) k ltac:(lia)) as [y1 Hy1].
    destruct (lookup_lt_is_Some_2 (v_cw_offset st0) k ltac:(lia)) as [y2 Hy2].
    destruct (lookup_lt_is_Some_2 (v_re_offset st0) k ltac:(lia)) as [y3 Hy3].
    rewrite (drop_S _ y1 k Hy1), (drop_S _ y2 k Hy2), (drop_S _ y3 k Hy3).
    rewrite !insert_app_r_alt by (rewrite length_fmap, length_seq; lia).
    rewrite !length_fmap, !length_seq, Nat.sub_diag. simpl.
    rewrite !fmap_app, <- !app_assoc. simpl.
    f_equal. unfold rc, re_count_before. by rewrite seq_S, foldl_app.
Qed.

(** The loop overwrites whatever the vectors held before. *)
Lemma rm_loop_closed_form (old_rm old_cw old_re : list Z) :
  rm_loop nof_re_pdsch ncb short nof_layers bps old_rm old_cw old_re
  = {| re_count_sum := rc (Z.to_nat ncb);
       v_rm_length := len_bits <$> seq 0 (Z.to_nat ncb);
       v_cw_offset := off_bits <$> seq 0 (Z.to_nat ncb);
       v_re_offset := rc <$> seq 0 (Z.to_nat ncb) |}.
Proof.
  unfold rm_loop. fold body. rewrite rm_loop_state_prefix; simpl; unfold vec_resize;
    rewrite ?length_resize; try done.
  by rewrite !drop_ge, !app_nil_r by (by rewrite length_resize).
Qed.

Hypothesis ncb_pos : 0 < ncb.
Hypothesis re_nonneg : 0 <= nof_re_pdsch.
Hypothesis re_lt : nof_re_pdsch < 2 ^ 32.
Hypothesis short_def : short = ncb - nof_re_pdsch mod ncb.

Lemma pre_re_S (k : nat) : pre_re (S k) = pre_re k + len_re k.
Proof. unfold pre_re. rewrite seq_S, fmap_app, sumZ_app. simpl. lia. Qed.

Lemma pre_re_nonneg (k : nat) : 0 <= pre_re k.
Proof.
  induction k as [|k IH]; [done|]. rewrite pre_re_S.
  pose proof (len_re_bounds nof_re_pdsch ncb short ncb_pos re_nonneg k).
  unfold len_re. lia.
Qed.

Lemma pre_re_mono (i j : nat) : (i <= j)%nat -> pre_re i <= pre_re j.
Proof.
  induction 1 as [|j Hle IH]; [done|]. rewrite pre_re_S.
  pose proof (len_re_bounds nof_re_pdsch ncb short ncb_pos re_nonneg j).
  unfold len_re. lia.
Qed.

Lemma pre_re_total : pre_re (Z.to_nat ncb) = nof_re_pdsch.
Proof. apply sum_len_re_total; done. Qed.

Lemma pre_re_le (k : nat) : Z.of_nat k <= ncb -> pre_re k <= nof_re_pdsch.
Proof. intros Hk. rewrite <- pre_re_total. apply pre_re_mono. lia. Qed.

Lemma re_count_before_exact (k : nat) :
  Z.of_nat k <= ncb -> re_count_before nof_re_pdsch ncb short k = pre_re k.
Proof.
  induction k as [|k IH]; intros Hk; [done|].
  unfold re_count_before in *. rewrite seq_S, foldl_app. simpl. rewrite IH by lia.
  unfold add32. fold (len_re k). rewrite <- pre_re_S.
  apply wrap32_small.
  pose proof (pre_re_nonneg (S k)). pose proof (pre_re_le (S k) ltac:(lia)). lia.
Qed.

Lemma off_bits_exact (i : nat) :
  Z.of_nat i <= ncb -> 0 <= nof_layers -> 0 <= bps ->
  nof_re_pdsch * nof_layers * bps < 2 ^ 32 ->
  off_bits i = pre_re i * nof_layers * bps.
Proof.
  intros Hi HL Hb Hno. unfold off_bits, rc. rewrite re_count_before_exact by done.
  unfold mul32.
  pose proof (pre_re_nonneg i) as H0. pose proof (pre_re_le i Hi) as H1.
  assert (0 <= pre_re i * nof_layers) as Hp by (apply Z.mul_nonneg_nonneg; lia).
  assert (pre_re i * nof_layers <= nof_re_pdsch * nof_layers) as Hq
    by (apply Z.mul_le_mono_nonneg_r; lia).
  assert (pre_re i * nof_layers * bps <= nof_re_pdsch * nof_layers * bps) as Hs
    by (apply Z.mul_le_mono_nonneg_r; lia).
  destruct (decide (bps = 0)) as [->|Hb0].
  { rewrite !Z.mul_0_r. done. }
  assert (pre_re i * nof_layers <= pre_re i * nof_layers * bps) as Ht
    by (revert Hp; generalize (pre_re i * nof_layers); intros a Ha; nia).
  rewrite (wrap32_small (pre_re i * nof_layers)) by lia.
  apply wrap32_small. split; [apply Z.mul_nonneg_nonneg|]; lia.
Qed.

End RmLoopOffsets.

Section SaveInputsLayout.

Context {allocation_t : Type}.
Context (pdsch_compute_nof_data_re : allocation_t -> Z).
Context `{ldpc_helpers}.

(** The members derived by a successful [save_inputs], next to those of
    [save_inputs_inv]. *)
Lemma save_inputs_fields self data_ pdu p :
  save_inputs pdsch_compute_nof_data_re self data_ pdu = Some p ->
  exists cw,
    head (codewords pdu) = Some cw /\
    let nof_re := nof_re_pdsch_of pdsch_compute_nof_data_re pdu in
    let crc := if bool_decide (1 < nof_cb p) then 24 else 0 in
    let tb_bits_out :=
      add32 (add32 (tbs p) (wrap32 (compute_tb_crc_size (tbs p)))) (mul32 crc (nof_cb p)) in
    let lp := rm_loop nof_re (nof_cb p) (sub32 (nof_cb p) (nof_re mod nof_cb p))
                (nof_layers_of pdu) (get_bits_per_symbol (modulation cw))
                (rm_length self) (cw_offset self) (re_offset self) in
    0 <= tbs p < 2 ^ 32 /\
    nof_ch_symbols p = mul32 (nof_layers_of pdu) nof_re /\
    cb_info_bits p = sub32 (wrap32 (divide_ceil tb_bits_out (nof_cb p))) crc /\
    zero_pad p = sub32 (mul32 (add32 (cb_info_bits p) crc) (nof_cb p)) tb_bits_out /\
    rm_length p = v_rm_length lp /\ cw_offset p = v_cw_offset lp /\ re_offset p = v_re_offset lp.
Proof.
  unfold save_inputs. intros Hs.
  destruct (head data_) as [tb|] eqn:Htb; [|done].
  destruct (head (codewords pdu)) as [cw|] eqn:Hcw; [|done].
  simpl in Hs. case_bool_decide as Hz; [done|].
  inversion Hs; subst p; clear Hs. simpl.
  exists cw. split; [done|]. split; [apply wrap32_range|]. done.
Qed.

(** [save_inputs] does not depend on what an earlier transmission left in
    the processor: every member it reads later is written anew. *)
Theorem save_inputs_overwrites_previous_state self self' data_ pdu :
  save_inputs pdsch_compute_nof_data_re self data_ pdu
  = save_inputs pdsch_compute_nof_data_re self' data_ pdu.
Proof.
  unfold save_inputs.
  destruct (head data_) as [tb|]; [|done].
  destruct (head (codewords pdu)) as [cw|]; [|done].
  simpl. case_bool_decide; [done|].
  by rewrite (rm_loop_closed_form _ _ _ _ _ (rm_length self)),
             (rm_loop_closed_form _ _ _ _ _ (rm_length self')).
Qed.

(** The vectors after [save_inputs], when the codeword length fits in 32
    bits. *)
Lemma save_inputs_vectors self data_ pdu p cw :
  save_inputs pdsch_compute_nof_data_re self data_ pdu = Some p ->
  head (codewords pdu) = Some cw ->
  let nof_re := nof_re_pdsch_of pdsch_compute_nof_data_re pdu in
  let bits_per_re := nof_layers_of pdu * get_bits_per_symbol (modulation cw) in
  let len_re := fun j : nat =>
    rm_length_re nof_re (nof_cb p) (nof_cb p - nof_re mod nof_cb p) (Z.of_nat j) in
  nof_re * nof_layers_of pdu * get_bits_per_symbol (modulation cw) < 2 ^ 32 ->
  rm_length p = (fun i => len_re i * bits_per_re) <$> seq 0 (Z.to_nat (nof_cb p))
  /\ re_offset p = (fun i => sumZ (len_re <$> seq 0 i)) <$> seq 0 (Z.to_nat (nof_cb p))
  /\ cw_offset p
     = (fun i => sumZ (len_re <$> seq 0 i) * bits_per_re) <$> seq 0 (Z.to_nat (nof_cb p)).
Proof.
  intros Hs Hcw nof_re bits_per_re len_re Hno.
  pose proof (nof_cb_range _ _ _ _ _ Hs) as Hn.
  destruct (save_inputs_fields _ _ _ _ Hs) as (cw' & Hcw' & _ & _ & _ & _ & Hrm & Hcwo & Hreo).
  rewrite Hcw in Hcw'. injection Hcw' as <-.
  pose proof (wrap32_range (pdsch_compute_nof_data_re (alloc pdu))) as Hre.
  pose proof (wrap32_range (nof_layers_of_precoding pdu)) as HL.
  fold (nof_re_pdsch_of pdsch_compute_nof_data_re pdu) in Hre. fold nof_re in Hre.
  fold (nof_layers_of pdu) in HL.
  assert (0 <= get_bits_per_symbol (modulation cw)) as Hb
    by (destruct (modulation cw); simpl; lia).
  assert (sub32 (nof_cb p) (nof_re mod nof_cb p) = nof_cb p - nof_re mod nof_cb p) as Hshort
    by (apply nof_short_segments_eq; lia).
  fold nof_re in Hrm, Hcwo, Hreo. rewrite Hshort in Hrm, Hcwo, Hreo.
  rewrite rm_loop_closed_form in Hrm, Hcwo, Hreo. simpl in Hrm, Hcwo, Hreo.
  split; [|split].
  - rewrite Hrm. apply list_fmap_ext. intros _ i _.
    rewrite len_bits_exact; [unfold bits_per_re, len_re; lia|lia|lia|lia|lia|done].
  - rewrite Hreo. apply list_fmap_ext. intros k i Hi.
    apply lookup_seq in Hi as [-> Hi].
    apply re_count_before_exact; [lia|lia|lia|done|lia].
  - rewrite Hcwo. apply list_fmap_ext. intros k i Hi.
    apply lookup_seq in Hi as [-> Hi].
    rewrite off_bits_exact; [unfold bits_per_re, len_re; lia|lia..|done].
Qed.

Lemma cw_length_exact self data_ pdu p cw :
  save_inputs pdsch_compute_nof_data_re self data_ pdu = Some p ->
  head (codewords pdu) = Some cw ->
  nof_re_pdsch_of pdsch_compute_nof_data_re pdu * nof_layers_of pdu
    * get_bits_per_symbol (modulation cw) < 2 ^ 32 ->
  cw_length (tb_common (cb_metadata p))
  = nof_re_pdsch_of pdsch_compute_nof_data_re pdu
    * (nof_layers_of pdu * get_bits_per_symbol (modulation cw)).
Proof.
  intros Hs Hcw Hno.
  destruct (save_inputs_inv _ _ _ _ _ Hs)
    as (tb & cw' & _ & Hcw' & _ & _ & _ & _ & _ & Hlen & _).
  rewrite Hcw in Hcw'. injection Hcw' as <-.
  pose proof (wrap32_range (pdsch_compute_nof_data_re (alloc pdu))) as Hre.
  pose proof (wrap32_range (nof_layers_of_precoding pdu)) as HL.
  fold (nof_re_pdsch_of pdsch_compute_nof_data_re pdu) in Hre.
  fold (nof_layers_of pdu) in HL.
  assert (0 <= get_bits_per_symbol (modulation cw)) as Hb
    by (destruct (modulation cw); simpl; lia).
  rewrite Hlen. unfold mul32.
  set (nof_re := nof_re_pdsch_of pdsch_compute_nof_data_re pdu) in *.
  assert (0 <= nof_re * nof_layers_of pdu) as Hp by (apply Z.mul_nonneg_nonneg; lia).
  destruct (decide (get_bits_per_symbol (modulation cw) = 0)) as [Hz|Hnz].
  { rewrite Hz, !Z.mul_0_r. done. }
  assert (nof_re * nof_layers_of pdu
          <= nof_re * nof_layers_of pdu * get_bits_per_symbol (modulation cw)) as Hle
    by (revert Hp; generalize (nof_re * nof_layers_of pdu); intros a Ha; nia).
  rewrite (wrap32_small (nof_re * nof_layers_of pdu)) by lia.
  rewrite wrap32_small; [lia|].
  split; [apply Z.mul_nonneg_nonneg; lia|lia].
Qed.

(** The rate-matched codeblocks lie back to back in the codeword: the
    codeword offset of a codeblock is the sum of the rate-match lengths of
    the codeblocks before it, every codeblock ends within the codeword, and
    the last one ends where the codeword ends. *)
Theorem cw_offsets_are_prefix_sums self data_ pdu p cw :
  save_inputs pdsch_compute_nof_data_re self data_ pdu = Some p ->
  head (codewords pdu) = Some cw ->
  nof_re_pdsch_of pdsch_compute_nof_data_re pdu * nof_layers_of pdu
    * get_bits_per_symbol (modulation cw) < 2 ^ 32 ->
  length (cw_offset p) = Z.to_nat (nof_cb p)
  /\ forall (i : nat) (r : Z),
       rm_length p !! i = Some r ->
       cw_offset p !! i = Some (sumZ (take i (rm_length p)))
       /\ 0 <= r
       /\ sumZ (take i (rm_length p)) + r <= cw_length (tb_common (cb_metadata p))
       /\ (Z.of_nat i = nof_cb p - 1 ->
           sumZ (take i (rm_length p)) + r = cw_length (tb_common (cb_metadata p))).
Proof.
  intros Hs Hcw Hno.
  pose proof (nof_cb_range _ _ _ _ _ Hs) as Hn.
  pose proof (cw_length_exact _ _ _ _ _ Hs Hcw Hno) as Hcwl.
  destruct (save_inputs_vectors _ _ _ _ _ Hs Hcw Hno) as (Hrm & _ & Hcwo).
  pose proof (wrap32_range (pdsch_compute_nof_data_re (alloc pdu))) as Hre.
  pose proof (wrap32_range (nof_layers_of_precoding pdu)) as HL.
  fold (nof_re_pdsch_of pdsch_compute_nof_data_re pdu) in Hre.
  fold (nof_layers_of pdu) in HL.
  set (nof_re := nof_re_pdsch_of pdsch_compute_nof_data_re pdu) in *.
  set (bits_per_re := nof_layers_of pdu * get_bits_per_symbol (modulation cw)) in *.
  set (short := nof_cb p - nof_re mod nof_cb p) in *.
  set (len_re := fun j : nat => rm_length_re nof_re (nof_cb p) short (Z.of_nat j)) in *.
  assert (0 <= bits_per_re) as Hbpr
    by (unfold bits_per_re; destruct (modulation cw); simpl; lia).
  assert (forall k : nat, Z.of_nat k <= nof_cb p ->
            sumZ (take k (rm_length p)) = sumZ (len_re <$> seq 0 k) * bits_per_re) as Htake.
  { intros k Hk. rewrite Hrm, <- fmap_take, take_seq.
    replace (k `min` Z.to_nat (nof_cb p))%nat with k by lia.
    apply (sumZ_fmap_scale bits_per_re len_re). }
  split; [by rewrite Hcwo, length_fmap, length_seq|].
  intros i r Hr.
  assert (Z.of_nat i < nof_cb p) as Hi.
  { apply lookup_lt_Some in Hr. rewrite Hrm, length_fmap, length_seq in Hr. lia. }
  rewrite Hrm, list_lookup_fmap, lookup_seq_lt in Hr by lia.
  simpl in Hr. injection Hr as <-.
  assert (0 <= len_re i) as Hlen
    by (apply (len_re_bounds nof_re (nof_cb p) short); lia).
  assert (sumZ (len_re <$> seq 0 (S i)) <= nof_re) as Hpre
    by (apply (pre_re_le nof_re (nof_cb p) short); lia || done).
  assert (sumZ (len_re <$> seq 0 (S i)) = sumZ (len_re <$> seq 0 i) + len_re i) as HS
    by apply (pre_re_S nof_re (nof_cb p) short).
  assert (0 <= sumZ (len_re <$> seq 0 i)) as Hpos
    by (apply sumZ_fmap_nonneg; intros k;
        apply (len_re_bounds nof_re (nof_cb p) short); lia).
  split; [|split; [|split]].
  - rewrite Hcwo, list_lookup_fmap, lookup_seq_lt by lia. simpl.
    by rewrite Htake by lia.
  - apply Z.mul_nonneg_nonneg; [exact Hlen|exact Hbpr].
  - rewrite Htake, Hcwl by lia.
    change (sumZ (len_re <$> seq 0 i) * bits_per_re + len_re i * bits_per_re
            <= nof_re * bits_per_re).
    rewrite <- Z.mul_add_distr_r.
    apply Z.mul_le_mono_nonneg_r; [done|]. by rewrite <- HS.
  - intros Hlast. rewrite Htake, Hcwl by lia.
    change (sumZ (len_re <$> seq 0 i) * bits_per_re + len_re i * bits_per_re
            = nof_re * bits_per_re).
    rewrite <- Z.mul_add_distr_r, <- HS. f_equal.
    assert (sumZ (len_re <$> seq 0 (Z.to_nat (nof_cb p))) = nof_re) as Htot
      by (apply (pre_re_total nof_re (nof_cb p) short); lia || done).
    by replace (Z.to_nat (nof_cb p)) with (S i) in Htot by lia.
Qed.

(** The codeblocks take consecutive, pairwise disjoint ranges of the PDSCH
    resource elements that together cover the allocation: the RE offset of
    the first codeblock is zero, each next offset is the previous one plus
    the previous codeblock's length in RE, and the last range ends at
    [nof_re_pdsch]; the codeword offset is the RE offset in bits. *)
Theorem re_ranges_partition_allocation self data_ pdu p cw :
  save_inputs pdsch_compute_nof_data_re self data_ pdu = Some p ->
  head (codewords pdu) = Some cw ->
  nof_re_pdsch_of pdsch_compute_nof_data_re pdu * nof_layers_of pdu
    * get_bits_per_symbol (modulation cw) < 2 ^ 32 ->
  let nof_re := nof_re_pdsch_of pdsch_compute_nof_data_re pdu in
  let bits_per_re := nof_layers_of pdu * get_bits_per_symbol (modulation cw) in
  let len_re := fun j : nat =>
    rm_length_re nof_re (nof_cb p) (nof_cb p - nof_re mod nof_cb p) (Z.of_nat j) in
  length (re_offset p) = Z.to_nat (nof_cb p)
  /\ re_offset p !! 0%nat = Some 0
  /\ (forall (i : nat) (o : Z),
        re_offset p !! i = Some o ->
        0 <= o /\ 0 <= len_re i /\ o + len_re i <= nof_re
        /\ rm_length p !! i = Some (len_re i * bits_per_re)
        /\ cw_offset p !! i = Some (o * bits_per_re)
        /\ (if bool_decide (Z.of_nat i = nof_cb p - 1) then o + len_re i = nof_re
            else re_offset p !! S i = Some (o + len_re i)))
  /\ (forall (i j : nat) (oi oj : Z),
        (i < j)%nat -> re_offset p !! i = Some oi -> re_offset p !! j = Some oj ->
        oi + len_re i <= oj).
Proof.
  intros Hs Hcw Hno nof_re bits_per_re len_re.
  pose proof (nof_cb_range _ _ _ _ _ Hs) as Hn.
  destruct (save_inputs_vectors _ _ _ _ _ Hs Hcw Hno) as (Hrm & Hreo & Hcwo).
  fold nof_re bits_per_re len_re in Hrm, Hreo, Hcwo.
  pose proof (wrap32_range (pdsch_compute_nof_data_re (alloc pdu))) as Hre.
  fold (nof_re_pdsch_of pdsch_compute_nof_data_re pdu) in Hre. fold nof_re in Hre.
  set (short := nof_cb p - nof_re mod nof_cb p) in *.
  assert (forall i : nat, 0 <= len_re i) as Hlen
    by (intros i; apply (len_re_bounds nof_re (nof_cb p) short); lia).
  assert (forall k : nat, 0 <= sumZ (len_re <$> seq 0 k)) as Hpos
    by (intros k; by apply sumZ_fmap_nonneg).
  assert (forall k : nat, Z.of_nat k <= nof_cb p -> sumZ (len_re <$> seq 0 k) <= nof_re)
    as Hle by (intros k Hk; apply (pre_re_le nof_re (nof_cb p) short); lia || done).
  assert (forall k : nat, sumZ (len_re <$> seq 0 (S k)) = sumZ (len_re <$> seq 0 k) + len_re k)
    as HS by (intros k; apply (pre_re_S nof_re (nof_cb p) short)).
  assert (forall (i : nat) o, re_offset p !! i = Some o ->
            Z.of_nat i < nof_cb p /\ o = sumZ (len_re <$> seq 0 i)) as Hlook.
  { intros i o Ho. assert (Z.of_nat i < nof_cb p) as Hi.
    { apply lookup_lt_Some in Ho. rewrite Hreo, length_fmap, length_seq in Ho. lia. }
    rewrite Hreo, list_lookup_fmap, lookup_seq_lt in Ho by lia.
    simpl in Ho. by injection Ho as <-. }
  split; [by rewrite Hreo, length_fmap, length_seq|].
  split; [rewrite Hreo, list_lookup_fmap, lookup_seq_lt by lia; done|].
  split.
  - intros i o Ho. destruct (Hlook _ _ Ho) as [Hi ->].
    pose proof (Hle (S i) ltac:(lia)) as Hle'. rewrite HS in Hle'.
    split; [apply Hpos|]. split; [apply Hlen|]. split; [done|].
    split; [rewrite Hrm, list_lookup_fmap, lookup_seq_lt by lia; done|].
    split; [rewrite Hcwo, list_lookup_fmap, lookup_seq_lt by lia; done|].
    case_bool_decide as Hlast.
    + rewrite <- HS.
      assert (sumZ (len_re <$> seq 0 (Z.to_nat (nof_cb p))) = nof_re) as Htot
        by (apply (pre_re_total nof_re (nof_cb p) short); lia || done).
      by replace (Z.to_nat (nof_cb p)) with (S i) in Htot by lia.
    + rewrite Hreo, list_lookup_fmap, lookup_seq_lt by lia.
      exact (f_equal Some (HS i)).
  - intros i j oi oj Hij Hoi Hoj.
    destruct (Hlook _ _ Hoi) as [Hi ->]. destruct (Hlook _ _ Hoj) as [Hj ->].
    rewrite <- HS.
    apply (pre_re_mono nof_re (nof_cb p) short); lia.
Qed.

(** Segmentation arithmetic, when the transport block with its CRCs fits in
    32 bits: the information bits of a codeblock are the rounded-up share of
    the transport block with CRCs, less the codeblock CRC; the zero padding
    is what the codeblocks hold beyond the transport block with CRCs, and is
    less than one bit per codeblock. *)
Theorem zero_pad_completes_codeblocks self data_ pdu p :
  save_inputs pdsch_compute_nof_data_re self data_ pdu = Some p ->
  let crc := if bool_decide (1 < nof_cb p) then 24 else 0 in
  let tb_bits_out := tbs p + wrap32 (compute_tb_crc_size (tbs p)) + crc * nof_cb p in
  tb_bits_out + nof_cb p <= 2 ^ 32 ->
  cb_info_bits p = divide_ceil tb_bits_out (nof_cb p) - crc
  /\ 0 <= cb_info_bits p
  /\ 0 <= zero_pad p < nof_cb p
  /\ (cb_info_bits p + crc) * nof_cb p = tb_bits_out + zero_pad p
  /\ tbs p <= cb_info_bits p * nof_cb p.
Proof.
  intros Hs crc tb_bits_out Hno.
  pose proof (nof_cb_range _ _ _ _ _ Hs) as Hn.
  destruct (save_inputs_fields _ _ _ _ Hs) as (cw & _ & Htbs & _ & Hinfo & Hpad & _).
  fold crc in Hinfo, Hpad.
  pose proof (wrap32_range (compute_tb_crc_size (tbs p))) as Hc.
  set (C := wrap32 (compute_tb_crc_size (tbs p))) in *.
  assert (0 <= crc <= 24) as Hcrc by (unfold crc; case_bool_decide; lia).
  assert (0 <= crc * nof_cb p) as Hcn by (apply Z.mul_nonneg_nonneg; lia).
  assert (add32 (add32 (tbs p) C) (mul32 crc (nof_cb p)) = tb_bits_out) as HB.
  { unfold add32, mul32.
    rewrite (wrap32_small (tbs p + C)) by (unfold tb_bits_out in Hno; lia).
    rewrite (wrap32_small (crc * nof_cb p)) by (unfold tb_bits_out in Hno; lia).
    apply wrap32_small. unfold tb_bits_out in *. lia. }
  rewrite HB in Hinfo, Hpad.
  set (q := divide_ceil tb_bits_out (nof_cb p)) in *.
  assert (tb_bits_out <= q * nof_cb p < tb_bits_out + nof_cb p) as Hq.
  { unfold q, divide_ceil.
    pose proof (Z.div_mod (tb_bits_out + (nof_cb p - 1)) (nof_cb p) ltac:(lia)) as Hdm.
    pose proof (Z.mod_pos_bound (tb_bits_out + (nof_cb p - 1)) (nof_cb p) ltac:(lia)).
    lia. }
  assert (crc <= q) as Hcq by (unfold tb_bits_out in Hq; nia).
  assert (q <= q * nof_cb p) as Hqn by nia.
  rewrite (wrap32_small q) in Hinfo by lia.
  assert (cb_info_bits p = q - crc) as Hinfo'
    by (rewrite Hinfo; unfold sub32; apply wrap32_small; lia).
  assert (zero_pad p = q * nof_cb p - tb_bits_out) as Hpad'.
  { rewrite Hpad, Hinfo'. unfold sub32, mul32, add32.
    replace (q - crc + crc) with q by lia.
    rewrite (wrap32_small q) by lia.
    rewrite (wrap32_small (q * nof_cb p)) by lia.
    apply wrap32_small. lia. }
  split; [done|]. split; [lia|]. split; [lia|]. split; [lia|].
  unfold tb_bits_out in *. nia.
Qed.

(** Telescoping sum. *)
Lemma sumZ_telescope (g : nat -> Z) (k : nat) :
  sumZ ((fun i => g (S i) - g i) <$> seq 0 k) = g k - g 0%nat.
Proof.
  induction k as [|k IH]; [simpl; lia|].
  rewrite seq_S, fmap_app, sumZ_app, IH. simpl. lia.
Qed.

(** The codeblocks read consecutive pieces of the transport block that
    together make up the whole block, when the last codeblock starts within
    the transport block: codeblock [i] starts at bit [cb_info_bits * i],
    every codeblock but the last takes [cb_info_bits] bits and the last one
    takes what is left. *)
Theorem info_bits_tile_transport_block self data_ pdu p :
  save_inputs pdsch_compute_nof_data_re self data_ pdu = Some p ->
  0 <= cb_info_bits p ->
  cb_info_bits p * (nof_cb p - 1) <= tbs p <= cb_info_bits p * nof_cb p ->
  (forall i, 0 <= i < nof_cb p ->
     tb_offset (make_cb_config p i) = cb_info_bits p * i
     /\ 0 <= cb_info_size (make_cb_config p i) <= cb_info_bits p
     /\ tb_offset (make_cb_config p i) + cb_info_size (make_cb_config p i)
        = if bool_decide (i = nof_cb p - 1) then tbs p
          else tb_offset (make_cb_config p (i + 1)))
  /\ sumZ ((fun i => cb_info_size (make_cb_config p i)) <$> seqZ 0 (nof_cb p)) = tbs p.
Proof.
  intros Hs Hinfo Hlast.
  pose proof (nof_cb_range _ _ _ _ _ Hs) as Hn.
  destruct (save_inputs_fields _ _ _ _ Hs) as (cw & _ & Htbs & _).
  assert (forall i, 0 <= i < nof_cb p ->
            mul32 (cb_info_bits p) i = cb_info_bits p * i
            /\ cb_info_bits p * i <= tbs p) as Hoff.
  { intros i Hi.
    assert (cb_info_bits p * i <= cb_info_bits p * (nof_cb p - 1)) as Hle
      by (apply Z.mul_le_mono_nonneg_l; lia).
    split; [|lia]. apply wrap32_small. split; [apply Z.mul_nonneg_nonneg; lia|lia]. }
  assert (forall i, 0 <= i < nof_cb p ->
            cb_info_size (make_cb_config p i)
            = if bool_decide (i = nof_cb p - 1) then tbs p - cb_info_bits p * i
              else cb_info_bits p) as Hsize.
  { intros i Hi. destruct (Hoff i Hi) as [Hm Hle]. simpl. rewrite Hm.
    unfold sub32. rewrite wrap32_small by lia.
    case_bool_decide as Hl; [subst i; lia|].
    assert (cb_info_bits p * (i + 1) <= cb_info_bits p * (nof_cb p - 1)) as Hle'
      by (apply Z.mul_le_mono_nonneg_l; lia).
    lia. }
  split.
  - intros i Hi. destruct (Hoff i Hi) as [Hm Hle].
    rewrite (Hsize i Hi). cbn [tb_offset make_cb_config]. rewrite Hm.
    split; [done|].
    case_bool_decide as Hl.
    + subst i. split; lia.
    + destruct (Hoff (i + 1) ltac:(lia)) as [Hm' _]. rewrite Hm'. split; lia.
  - set (g := fun k : nat =>
               if bool_decide (Z.of_nat k = nof_cb p) then tbs p
               else cb_info_bits p * Z.of_nat k).
    trans (sumZ ((fun i => g (S i) - g i) <$> seq 0 (Z.to_nat (nof_cb p)))).
    + unfold seqZ. rewrite <- list_fmap_compose.
      f_equal. apply list_fmap_ext. intros k i Hk.
      apply lookup_seq in Hk as [-> Hk].
      change (cb_info_size (make_cb_config p (Z.of_nat (0 + k) + 0))
              = g (S (0 + k)) - g (0 + k)%nat).
      rewrite Z.add_0_r, Nat.add_0_l.
      rewrite Hsize by lia. unfold g.
      rewrite (bool_decide_eq_false_2 (Z.of_nat k = nof_cb p)) by lia.
      repeat case_bool_decide; lia.
    + rewrite sumZ_telescope. unfold g.
      rewrite bool_decide_eq_true_2, bool_decide_eq_false_2 by lia. lia.
Qed.

End SaveInputsLayout.

(** ** The accounting invariants are preserved by every step *)

Lemma cnt_insert f ts k pc pc' :
  ts !! k = Some pc -> cnt f (<[k := pc']> ts) = cnt f ts - f pc + f pc'.
Proof. apply sumZ_fmap_insert. Qed.

Lemma cnt_snoc f ts pc : cnt f (ts ++ [pc]) = cnt f ts + f pc.
Proof. unfold cnt. rewrite fmap_app, sumZ_app. simpl. lia. Qed.

Lemma cnt_cons f pc ts : cnt f (pc :: ts) = f pc + cnt f ts.
Proof. done. Qed.

Lemma count_ev_cons P e l : count_ev P (e :: l) = (if P e then 1 else 0) + count_ev P l.
Proof. done. Qed.

Lemma count_ev_nonneg P l : 0 <= count_ev P l.
Proof. apply sumZ_fmap_nonneg. intros e. destruct (P e); lia. Qed.

Lemma count_ev_le (P Q : event -> bool) l :
  (forall e, P e = true -> Q e = true) -> count_ev P l <= count_ev Q l.
Proof.
  intros HPQ. apply sumZ_fmap_le. intros e. specialize (HPQ e).
  destruct (P e), (Q e); first [lia | by specialize (HPQ eq_refl)].
Qed.

(** Relations between the accounting functions. *)
Lemma cnt_facts ts :
  0 <= cnt owes_async ts /\ 0 <= cnt in_loop ts /\ 0 <= cnt notifying ts
  /\ 0 <= cnt ptrs_pending ts /\ 0 <= cnt dmrs_pending ts /\ 0 <= cnt releasing ts
  /\ cnt in_loop ts <= cnt owes_batch ts /\ cnt owes_batch ts <= cnt is_cb ts
  /\ cnt releasing ts <= cnt is_cb ts
  /\ cnt is_cb ts <= cnt active ts /\ cnt owes_async ts <= cnt active ts
  /\ cnt notifying ts <= cnt active ts
  /\ cnt ptrs_pending ts <= cnt owes_async ts /\ cnt dmrs_pending ts <= cnt owes_async ts
  /\ cnt releasing ts <= cnt owes_async ts
  /\ cnt owes_async ts + cnt owes_batch ts + cnt notifying ts = cnt active ts
  /\ (forall k, 0 <= cnt (dec_pending k) ts <= cnt owes_async ts)
  /\ cnt (dec_pending KCb) ts <= cnt is_cb ts
  /\ (forall i, 0 <= cnt (processing i) ts <= cnt in_loop ts).
Proof.
  unfold cnt. induction ts as [|pc ts IH]; csimpl.
  { repeat split; intros; lia. }
  destruct IH as (?&?&?&?&?&?&?&?&?&?&?&?&?&?&?&?&Hk&?&Hi).
  repeat match goal with |- _ /\ _ => split end; try (destruct pc; simpl; lia).
  - intros k. specialize (Hk k). destruct k, pc; simpl; lia.
  - intros i. specialize (Hi i). destruct pc; simpl; try case_bool_decide; lia.
Qed.

Lemma count_facts l :
  0 <= count_ev is_notify l /\ 0 <= count_ev is_ptrs l /\ 0 <= count_ev is_dmrs l
  /\ 0 <= count_ev is_release l /\ 0 <= count_ev is_drained l
  /\ count_ev is_release l <= count_ev is_cb_event l
  /\ count_ev is_drained l <= count_ev is_cb_event l
  /\ 0 <= count_ev (is_async_dec KCb) l <= count_ev is_cb_event l
  /\ (forall k, 0 <= count_ev (is_async_dec k) l)
  /\ (forall i, 0 <= count_ev (is_mapped i) l <= count_ev is_cb_event l).
Proof.
  repeat match goal with |- _ /\ _ => split | |- forall _, _ => intros ? end;
    try apply count_ev_nonneg; apply count_ev_le; intros []; simpl; try done.
  all: by intros [].
Qed.

Lemma occ_nonneg i l : 0 <= occ i l.
Proof. apply sumZ_fmap_nonneg. intros j. case_bool_decide; lia. Qed.

Lemma occ_seqZ i a n :
  0 <= n -> occ i (seqZ a n) = if bool_decide (a <= i < a + n) then 1 else 0.
Proof.
  intros Hn. revert a. pattern n. apply natlike_ind; [| |done].
  - intros a. simpl. rewrite bool_decide_eq_false_2; [done|lia].
  - intros k Hk IH a. rewrite seqZ_cons by lia.
    replace (Z.pred (Z.succ k)) with k by lia.
    unfold occ in *. csimpl. rewrite IH.
    repeat case_bool_decide; lia.
Qed.

Lemma starts_cons e l :
  starts (e :: l) = match e with EvCbStart i => i :: starts l | _ => starts l end.
Proof. by destruct e. Qed.

Lemma starts_le_cb_events l : Z.of_nat (length (starts l)) <= count_ev is_cb_event l.
Proof.
  induction l as [|e l IH]; [done|].
  rewrite starts_cons, count_ev_cons. pose proof (count_ev_nonneg is_cb_event l).
  destruct e as [| | | | | |[]|]; simpl; lia.
Qed.

Lemma starts_nil_of_no_cb_event l : count_ev is_cb_event l = 0 -> starts l = [].
Proof.
  intros Hz. pose proof (starts_le_cb_events l). destruct (starts l); [done|simpl in *; lia].
Qed.

Lemma cnt_lookup_le f ts k pc :
  (forall x, 0 <= f x) -> ts !! k = Some pc -> f pc <= cnt f ts.
Proof.
  intros Hf Hk. apply list_elem_of_split_length in Hk as (l1 & l2 & -> & _).
  unfold cnt. rewrite fmap_app, sumZ_app. csimpl.
  pose proof (sumZ_fmap_nonneg f l1 Hf). pose proof (sumZ_fmap_nonneg f l2 Hf). lia.
Qed.

Section Preservation.

Context {allocation_t : Type}.
Variable p : processor allocation_t.
Variable capacity : Z.
Hypothesis capacity_pos : 0 < capacity.
Hypothesis nof_cb_pos : 0 < nof_cb p.
Hypothesis nof_cb_lt : nof_cb p < 2 ^ 31.

Lemma nof_cb_tasks_range : 0 < nof_cb_tasks p capacity <= nof_cb p.
Proof. unfold nof_cb_tasks. lia. Qed.

Lemma flag_range b : 0 <= flag b <= 1.
Proof. destruct b; simpl; lia. Qed.

Lemma stage_range mp : 0 <= stage mp <= 7.
Proof. destruct mp; simpl; lia. Qed.

Lemma group_owes_spec b mp :
  (stage mp < 6 /\ group_owes b mp = 1)
  \/ (6 <= stage mp /\ 0 < b /\ group_owes b mp = 1)
  \/ (6 <= stage mp /\ b <= 0 /\ group_owes b mp = 0).
Proof. unfold group_owes, flag. repeat case_bool_decide; lia. Qed.

Lemma alive_spec a mp :
  (stage mp < 1 /\ alive a mp = 1)
  \/ (1 <= stage mp /\ 0 < a /\ alive a mp = 1)
  \/ (1 <= stage mp /\ a <= 0 /\ alive a mp = 0).
Proof. unfold alive, flag. repeat case_bool_decide; lia. Qed.

Lemma ptrs_future_spec mp :
  (stage mp <= 2 /\ ptrs_future p mp = flag (ptrs_configured p))
  \/ (2 < stage mp /\ ptrs_future p mp = 0).
Proof. unfold ptrs_future. case_bool_decide; lia. Qed.

Lemma dmrs_future_spec mp :
  (stage mp <= 3 /\ dmrs_future mp = 1) \/ (3 < stage mp /\ dmrs_future mp = 0).
Proof. unfold dmrs_future, flag. case_bool_decide; lia. Qed.

Lemma main_owes_async_spec mp :
  (stage mp = 1 /\ main_owes_async mp = 1) \/ (stage mp = 2 /\ main_owes_async mp = 2)
  \/ (stage mp = 3 /\ main_owes_async mp = 1)
  \/ ((stage mp = 0 \/ 4 <= stage mp) /\ main_owes_async mp = 0).
Proof. destruct mp; simpl; lia. Qed.

Ltac abstract_specs :=
  repeat match goal with
  | |- context [group_owes ?b ?mp] =>
      let g := fresh "g" in
      pose proof (group_owes_spec b mp); set (g := group_owes b mp) in *; clearbody g
  | H : context [group_owes ?b ?mp] |- _ =>
      let g := fresh "g" in
      pose proof (group_owes_spec b mp); set (g := group_owes b mp) in *; clearbody g
  | |- context [alive ?b ?mp] =>
      let g := fresh "g" in
      pose proof (alive_spec b mp); set (g := alive b mp) in *; clearbody g
  | H : context [alive ?b ?mp] |- _ =>
      let g := fresh "g" in
      pose proof (alive_spec b mp); set (g := alive b mp) in *; clearbody g
  | |- context [ptrs_future ?q ?mp] =>
      let g := fresh "g" in
      pose proof (ptrs_future_spec mp); set (g := ptrs_future q mp) in *; clearbody g
  | H : context [ptrs_future ?q ?mp] |- _ =>
      let g := fresh "g" in
      pose proof (ptrs_future_spec mp); set (g := ptrs_future q mp) in *; clearbody g
  | |- context [dmrs_future ?mp] =>
      let g := fresh "g" in
      pose proof (dmrs_future_spec mp); set (g := dmrs_future mp) in *; clearbody g
  | H : context [dmrs_future ?mp] |- _ =>
      let g := fresh "g" in
      pose proof (dmrs_future_spec mp); set (g := dmrs_future mp) in *; clearbody g
  | |- context [main_owes_async ?mp] =>
      let g := fresh "g" in
      pose proof (main_owes_async_spec mp); set (g := main_owes_async mp) in *; clearbody g
  | H : context [main_owes_async ?mp] |- _ =>
      let g := fresh "g" in
      pose proof (main_owes_async_spec mp); set (g := main_owes_async mp) in *; clearbody g
  end.

Ltac wrap_simpl :=
  unfold add32, sub32 in *;
  repeat match goal with
  | |- context [wrap32 ?x] => rewrite (wrap32_small x) by lia
  | H : context [wrap32 ?x] |- _ => rewrite (wrap32_small x) in H by lia
  end.

Ltac use_hyps :=
  repeat match goal with
  | H : _ /\ _ |- _ => destruct H
  | H : released ?m = true -> _, H' : released ?m = true |- _ => specialize (H H')
  | H : (?a < ?b) -> _, H' : (?a < ?b) |- _ => specialize (H H')
  | H : (?a <= ?b) -> _, H' : (?a <= ?b) |- _ => specialize (H H')
  end.

Ltac inv_field Hcnt :=
  simpl; intros;
  repeat match goal with k : task_kind |- _ => destruct k end;
  simpl in *; rewrite ?Hcnt, ?count_ev_cons; simpl;
  use_hyps; abstract_specs; wrap_simpl;
  repeat match goal with |- _ /\ _ => split end; intros;
  first [done | lia | exfalso; lia | idtac].

Lemma counters_inv_task m mp ts k pc :
  counters_inv p capacity m mp ts ->
  ts !! k = Some pc -> pc <> Finished ->
  counters_inv p capacity (task_step p m pc).1 mp (<[k := (task_step p m pc).2]> ts).
Proof.
  intros [Hrange Hidle Hearly Hps Hidx Hasync Hbatch Hcbc Hnot Hdmrs Hptrs Hdec Hrel Hrd Hdr]
    Hk Hne.
  pose proof nof_cb_tasks_range as HK.
  pose proof (stage_range mp) as Hst.
  pose proof (flag_range (ptrs_configured p)) as Hfl.
  pose proof (cnt_facts ts) as (?&?&?&?&?&?&?&?&?&?&?&?&?&?&?&?&Hdp&?&Hproc).
  pose proof (count_facts (log m)) as (?&?&?&?&?&?&?&?&Hdecn&Hmap).
  pose proof (Hdp KPtrs). pose proof (Hdp KDmrs). pose proof (Hdp KCb).
  pose proof (Hdec KPtrs) as Hdec1. pose proof (Hdec KDmrs) as Hdec2.
  pose proof (Hdec KCb) as Hdec3. clear Hdec Hdp.
  assert (forall f, cnt f (<[k := (task_step p m pc).2]> ts)
                    = cnt f ts - f pc + f (task_step p m pc).2) as Hcnt
    by (intros f; by apply cnt_insert).
  pose proof (cnt_lookup_le active ts k pc ltac:(by intros []) Hk) as Hact.
  pose proof (cnt_lookup_le owes_async ts k pc ltac:(by intros []) Hk) as Ha.
  pose proof (cnt_lookup_le owes_batch ts k pc ltac:(by intros []) Hk) as Hb.
  pose proof (cnt_lookup_le in_loop ts k pc ltac:(by intros []) Hk) as Hl.
  pose proof (cnt_lookup_le is_cb ts k pc ltac:(by intros []) Hk) as Hc.
  pose proof (cnt_lookup_le notifying ts k pc ltac:(by intros []) Hk) as Hnt.
  pose proof (cnt_lookup_le releasing ts k pc ltac:(by intros []) Hk) as Hrl.
  pose proof (cnt_lookup_le ptrs_pending ts k pc ltac:(by intros []) Hk) as Hpp.
  pose proof (cnt_lookup_le dmrs_pending ts k pc ltac:(by intros []) Hk) as Hdpn.
  pose proof (cnt_lookup_le (dec_pending KPtrs) ts k pc ltac:(by intros []) Hk) as Hq1.
  pose proof (cnt_lookup_le (dec_pending KDmrs) ts k pc ltac:(by intros []) Hk) as Hq2.
  pose proof (cnt_lookup_le (dec_pending KCb) ts k pc ltac:(by intros []) Hk) as Hq3.
  clear Hk.
  destruct pc; try done; clear Hne; simpl in *; unfold dec_async in *; simpl in *.
  all: try case_bool_decide; simpl in *.
  all: split; inv_field Hcnt.
Qed.

Ltac use_const_hyps :=
  repeat match goal with
  | H : _ /\ _ |- _ => destruct H
  | H : (_ < _) -> _ |- _ => specialize (H ltac:(lia))
  | H : (_ <= _) -> _ |- _ => specialize (H ltac:(lia))
  | H : (_ = _ :> Z) -> _ |- _ => specialize (H ltac:(lia))
  end.

Ltac main_field :=
  simpl; intros;
  repeat match goal with k : task_kind |- _ => destruct k end;
  simpl in *; rewrite ?cnt_cons, ?cnt_snoc, ?count_ev_cons; simpl;
  use_hyps; abstract_specs; simpl stage in *;
  repeat match goal with
  | H : ptrs_configured p = _ |- _ => rewrite H in *; clear H
  end; simpl flag in *;
  wrap_simpl;
  repeat match goal with |- _ /\ _ => split end; intros;
  first [done | lia | exfalso; lia | idtac].

Lemma counters_inv_main accept s s' :
  counters_inv p capacity (st_mem s) (main s) (tasks s) ->
  main_step p capacity accept s = Some s' ->
  counters_inv p capacity (st_mem s') (main s') (tasks s').
Proof.
  destruct s as [m mp il pl]. unfold main_step, tasks. simpl.
  destruct il; try done.
  intros [Hrange Hidle Hearly Hps Hidx Hasync Hbatch Hcbc Hnot Hdmrs Hptrs Hdec Hrel Hrd Hdr]
    Hstep.
  pose proof nof_cb_tasks_range as HK.
  pose proof (flag_range (ptrs_configured p)) as Hfl.
  pose proof (cnt_facts pl) as (?&?&?&?&?&?&?&?&?&?&?&?&?&?&?&?&Hdp&?&Hproc).
  pose proof (count_facts (log m)) as (?&?&?&?&?&?&?&?&Hdecn&Hmap).
  pose proof (Hdp KPtrs). pose proof (Hdp KDmrs). pose proof (Hdp KCb).
  pose proof (Hdec KPtrs) as Hdec1. pose proof (Hdec KDmrs) as Hdec2.
  pose proof (Hdec KCb) as Hdec3. clear Hdec Hdp.
  rewrite ?cnt_cons in *. simpl in *.
  destruct mp; simpl in *; unfold spawn, goto in *; simpl in *.
  all: repeat match goal with
       | H : context [if ptrs_configured p then _ else _] |- _ =>
           destruct (ptrs_configured p) eqn:?
       | H : context [bool_decide ?P] |- _ => destruct (bool_decide_reflect P); simpl in H
       | H : context [if ?b then _ else _] |- _ => is_var b; destruct b; simpl in H
       end; simpl in *; simplify_eq; use_const_hyps.
  all: split; main_field.
Qed.

Lemma counters_inv_init a b c :
  counters_inv p capacity (st_mem (init_state a b c)) (main (init_state a b c))
    (tasks (init_state a b c)).
Proof.
  pose proof nof_cb_tasks_range as HK.
  pose proof (flag_range (ptrs_configured p)) as Hfl.
  pose proof (wrap32_range a). pose proof (wrap32_range b). pose proof (wrap32_range c).
  split; unfold tasks, cnt, count_ev; simpl; main_field.
Qed.

(** Once [async_task_counter] has reached zero nothing is left to do. *)
Lemma quiescent m mp ts :
  counters_inv p capacity m mp ts -> log_inv p m mp ts ->
  1 <= stage mp -> async_task_counter m <= 0 ->
  writes_complete p (log m) /\ cnt active ts = cnt notifying ts /\ unspawned p capacity mp = 0
  /\ 6 <= stage mp /\ count_ev is_drained (log m) = nof_cb_tasks p capacity
  /\ (forall k, count_ev (is_async_dec k) (log m) = dec_total p k).
Proof.
  intros [Hrange Hidle Hearly Hps Hidx Hasync Hbatch Hcbc Hnot Hdmrs Hptrs Hdec Hrel Hrd Hdr]
    [Hst Hmp Hok] Hstage Hz.
  pose proof nof_cb_tasks_range as HK.
  pose proof (flag_range (ptrs_configured p)) as Hfl.
  pose proof (cnt_facts ts) as (?&?&?&?&?&?&?&?&?&?&?&?&?&?&?&?&Hdp&?&Hproc).
  pose proof (count_facts (log m)) as (?&?&?&?&?&?&?&?&Hdecn&Hmap).
  pose proof (Hdp KPtrs). pose proof (Hdp KDmrs). pose proof (Hdp KCb).
  pose proof (Hdec KPtrs) as Hdec1. pose proof (Hdec KDmrs) as Hdec2.
  pose proof (Hdec KCb) as Hdec3. simpl in *.
  abstract_specs.
  assert (6 <= stage mp) as Hst6 by lia.
  assert (nof_cb p <= cb_counter m) as Hcge by lia.
  split; [split|]; try lia.
  - intros i Hi. specialize (Hmp i). specialize (Hproc i).
    rewrite Hst, bool_decide_eq_true_2 in Hmp by done.
    rewrite occ_seqZ in Hmp by lia.
    rewrite bool_decide_eq_true_2 in Hmp by lia. lia.
  - repeat split; try lia. intros []; simpl; lia.
Qed.

Lemma released_false_in_loop m mp ts k pc :
  counters_inv p capacity m mp ts ->
  ts !! k = Some pc -> 1 <= owes_batch pc -> released m = false.
Proof.
  intros [Hrange Hidle Hearly Hps Hidx Hasync Hbatch Hcbc Hnot Hdmrs Hptrs Hdec Hrel Hrd Hdr]
    Hk Hpc.
  pose proof (cnt_facts ts) as (?&?&?&?&?&?&?&?&?&?&?&?&?&?&?&?&Hdp&?&Hproc).
  pose proof (count_facts (log m)) as (?&?&?&?&?&?&?&?&Hdecn&Hmap).
  pose proof (cnt_lookup_le owes_batch ts k pc ltac:(by intros []) Hk) as Hb.
  destruct (released m) eqn:Hr; [|done]. exfalso.
  specialize (Hrd eq_refl). abstract_specs. lia.
Qed.

Lemma log_inv_task m mp ts k pc :
  counters_inv p capacity m mp ts -> log_inv p m mp ts ->
  ts !! k = Some pc -> pc <> Finished ->
  log_inv p (task_step p m pc).1 mp (<[k := (task_step p m pc).2]> ts).
Proof.
  intros Hci Hli Hk Hne.
  pose proof (released_false_in_loop m mp ts k pc Hci Hk) as Hnr.
  destruct Hci as
    [Hrange Hidle Hearly Hps Hidx Hasync Hbatch Hcbc Hnot Hdmrs Hptrs Hdec Hrel Hrd Hdr].
  pose proof nof_cb_tasks_range as HK.
  pose proof (cnt_facts ts) as (?&?&?&?&?&?&?&?&?&?&?&?&?&?&?&?&Hdp&?&Hproc).
  assert (forall f, cnt f (<[k := (task_step p m pc).2]> ts)
                    = cnt f ts - f pc + f (task_step p m pc).2) as Hcnt
    by (intros f; by apply cnt_insert).
  pose proof (cnt_lookup_le is_cb ts k pc ltac:(by intros []) Hk) as Hc.
  pose proof (cnt_lookup_le in_loop ts k pc ltac:(by intros []) Hk) as Hl.
  clear Hk.
  destruct pc; try done; clear Hne; simpl in *; unfold dec_async in *; simpl in *.
  all: try case_bool_decide; simpl in *.
  all: destruct Hli as [Hst Hmp Hok].
  all: split; simpl; rewrite ?starts_cons; simpl; try done.
  all: try (intros i; rewrite ?Hcnt, ?count_ev_cons; simpl; specialize (Hmp i);
            unfold occ in *; csimpl; repeat case_bool_decide; lia).
  all: try (constructor; simpl; done).
  - (* a codeblock is taken *)
    assert (6 <= stage mp) as Hst6 by lia.
    rewrite bool_decide_eq_true_2 in * by done.
    rewrite Hst. wrap_simpl.
    replace (Z.min (cb_counter m) (nof_cb p)) with (cb_counter m) by lia.
    replace (Z.min (cb_counter m + 1) (nof_cb p)) with (cb_counter m + 1) by lia.
    rewrite (seqZ_cons (nof_cb p - (cb_counter m + 1))) by lia.
    f_equal; [lia|]. f_equal; lia.
  - constructor; [|done]. simpl. wrap_simpl. lia.
  - (* the loop is left *)
    rewrite Hst. case_bool_decide; [|done]. wrap_simpl. f_equal; lia.
  - constructor; [|done]. simpl. lia.
  - constructor; [|done]. simpl. rewrite Hnr by lia. done.
Qed.

Lemma log_inv_main accept s s' :
  counters_inv p capacity (st_mem s) (main s) (tasks s) ->
  log_inv p (st_mem s) (main s) (tasks s) ->
  main_step p capacity accept s = Some s' ->
  log_inv p (st_mem s') (main s') (tasks s').
Proof.
  destruct s as [m mp il pl]. unfold main_step, tasks. simpl.
  destruct il; try done.
  intros Hci Hli Hstep.
  pose proof (ci_early _ _ _ _ _ Hci) as Hearly.
  destruct mp; simpl in *; unfold spawn, goto in *; simpl in *.
  all: repeat match goal with
       | H : context [if ?b then _ else _] |- _ => destruct b eqn:?
       end; simplify_eq; simpl in *.
  all: destruct Hli as [Hst Hmp Hok].
  all: split; simpl; try done.
  all: try (intros i; specialize (Hmp i); rewrite ?cnt_cons, ?cnt_snoc in *; simpl in *; lia).
  rewrite Hst. by replace (Z.min 0 (nof_cb p)) with 0 by lia.
Qed.

Lemma order_inv_task m mp ts k pc :
  counters_inv p capacity m mp ts -> log_inv p m mp ts -> order_inv p m ->
  ts !! k = Some pc -> pc <> Finished ->
  order_inv p (task_step p m pc).1.
Proof.
  intros Hci Hli Hord Hk Hne.
  pose proof (cnt_lookup_le active ts k pc ltac:(by intros []) Hk) as Hact.
  pose proof (cnt_lookup_le notifying ts k pc ltac:(by intros []) Hk) as Hnt.
  pose proof (cnt_facts ts) as (?&?&?&?&?&?&?&?&?&?&?&?&?&?&?&?&Hdp&?&Hproc).
  pose proof (count_facts (log m)) as (?&?&?&?&?&?&?&?&Hdecn&Hmap).
  pose proof (ci_notify _ _ _ _ _ Hci) as Hnot.
  pose proof (ci_idle _ _ _ _ _ Hci) as Hidle.
  pose proof (stage_range mp) as Hsr.
  assert (count_ev is_notify (log m) = 0) as Hzero.
  { destruct (decide (count_ev is_notify (log m) = 0)) as [|Hnz]; [done|]. exfalso.
    assert (1 <= stage mp /\ async_task_counter m <= 0) as [Hs Ha].
    { pose proof (alive_spec (async_task_counter m) mp). lia. }
    destruct (quiescent _ _ _ Hci Hli Hs Ha) as (_ & Hq & _).
    assert (active pc = 1) by (by destruct pc).
    pose proof (alive_spec (async_task_counter m) mp). lia. }
  destruct pc; try done.
  all: try (left; simpl; unfold dec_async; simpl;
            try case_bool_decide; simpl; rewrite ?count_ev_cons; simpl; lia).
  right. exists (log m). simpl. split; [done|]. split; [done|].
  simpl in *.
  assert (1 <= stage mp /\ async_task_counter m <= 0) as [Hs Ha].
  { pose proof (alive_spec (async_task_counter m) mp). lia. }
  by destruct (quiescent _ _ _ Hci Hli Hs Ha) as (Hq & _).
Qed.

Lemma order_inv_main accept s s' :
  order_inv p (st_mem s) ->
  main_step p capacity accept s = Some s' ->
  order_inv p (st_mem s').
Proof.
  destruct s as [m mp il pl]. unfold main_step. simpl.
  destruct il; try done. intros Hord Hstep.
  destruct mp; simpl in *; unfold spawn, goto in *; simpl in *.
  all: repeat match goal with
       | H : context [if ?b then _ else _] |- _ => destruct b eqn:?
       end; simplify_eq; simpl in *; done.
Qed.

Lemma inline_step_spec s s' :
  inline_step p s = Some s' ->
  inl s <> Finished
  /\ s' = {| st_mem := (task_step p (st_mem s) (inl s)).1; main := main s;
             inl := (task_step p (st_mem s) (inl s)).2; pool := pool s |}.
Proof.
  unfold inline_step. intros Hs. split; [by destruct (inl s)|].
  destruct (inl s); try done;
    destruct (task_step p (st_mem s) _) as [m' pc'] eqn:Ht; rewrite ?Ht in Hs;
    by simplify_eq.
Qed.

Lemma pool_step_spec j s s' :
  pool_step p j s = Some s' ->
  exists pc, pool s !! j = Some pc /\ pc <> Finished
  /\ s' = {| st_mem := (task_step p (st_mem s) pc).1; main := main s; inl := inl s;
             pool := <[j := (task_step p (st_mem s) pc).2]> (pool s) |}.
Proof.
  unfold pool_step. intros Hs. destruct (pool s !! j) as [pc|] eqn:Hj; [|done].
  exists pc. split; [done|]. split; [by destruct pc|].
  destruct pc; try done;
    destruct (task_step p (st_mem s) _) as [m' pc'] eqn:Ht; rewrite ?Ht in Hs;
    by simplify_eq.
Qed.

(** Every step is either an action of the caller's thread or one atomic
    action of the task at some position of [tasks]. *)
Lemma step_cases s s' :
  step p capacity s s' ->
  (exists accept, main_step p capacity accept s = Some s')
  \/ (exists k pc, tasks s !! k = Some pc /\ pc <> Finished
      /\ st_mem s' = (task_step p (st_mem s) pc).1 /\ main s' = main s
      /\ tasks s' = <[k := (task_step p (st_mem s) pc).2]> (tasks s)).
Proof.
  intros [accept s1 s2 Hm|s1 s2 (Hne & ->)%inline_step_spec
         |j s1 s2 (pc & Hj & Hne & ->)%pool_step_spec].
  - left. by exists accept.
  - right. exists 0%nat, (inl s1). done.
  - right. exists (S j), pc. done.
Qed.

Lemma inv_init a b c : inv p capacity (init_state a b c).
Proof.
  split; [apply counters_inv_init|]. split; [|by left].
  split; simpl; try done.
Qed.

Lemma inv_step s s' : inv p capacity s -> step p capacity s s' -> inv p capacity s'.
Proof.
  intros (Hci & Hli & Hord) [[accept Hm]|(k & pc & Hk & Hne & Hmem & Hmain & Hts)]%step_cases.
  - split; [by eapply counters_inv_main|].
    split; [by eapply log_inv_main|by eapply order_inv_main].
  - unfold inv. rewrite Hmem, Hmain, Hts.
    split; [by apply counters_inv_task|].
    split; [by apply log_inv_task|by eapply order_inv_task].
Qed.

Lemma inv_reachable s : reachable p capacity s -> inv p capacity s.
Proof.
  intros (a & b & c & Hr).
  revert s Hr. apply rtc_ind_r; [apply inv_init|].
  intros y z _ Hyz IH. by eapply inv_step.
Qed.

Lemma inline_step_enabled s :
  inl s <> Finished ->
  inline_step p s
  = Some {| st_mem := (task_step p (st_mem s) (inl s)).1; main := main s;
            inl := (task_step p (st_mem s) (inl s)).2; pool := pool s |}.
Proof.
  unfold inline_step. intros Hne.
  destruct (inl s); try done; by destruct (task_step p (st_mem s) _).
Qed.

Lemma pool_step_enabled j s pc :
  pool s !! j = Some pc -> pc <> Finished ->
  pool_step p j s
  = Some {| st_mem := (task_step p (st_mem s) pc).1; main := main s; inl := inl s;
            pool := <[j := (task_step p (st_mem s) pc).2]> (pool s) |}.
Proof.
  unfold pool_step. intros -> Hne.
  destruct pc; try done; by destruct (task_step p (st_mem s) _).
Qed.

Lemma main_step_enabled s :
  inl s = Finished -> is_done (main s) = false ->
  exists s', main_step p capacity true s = Some s'.
Proof.
  unfold main_step. intros -> Hd.
  destruct (main s); try done; simpl; repeat case_match; by eexists.
Qed.

Lemma unfinished_in_pool (ts : list task_pc) :
  forallb is_finished ts = false -> exists j pc, ts !! j = Some pc /\ pc <> Finished.
Proof.
  induction ts as [|t ts IH]; [done|]. simpl. intros Hf.
  destruct (is_finished t) eqn:Ht.
  - destruct (IH Hf) as (j & pc & Hj & Hne). by exists (S j), pc.
  - exists 0%nat, t. split; [done|]. by intros ->.
Qed.

(** A state that is not final can always move. *)
Lemma progress s : final s = false -> exists s', step p capacity s s'.
Proof.
  unfold final. intros Hf.
  destruct (is_finished (inl s)) eqn:Hinl.
  - assert (inl s = Finished) as Hfin by (by destruct (inl s)).
    destruct (is_done (main s)) eqn:Hmain.
    + simpl in Hf. apply unfinished_in_pool in Hf as (j & pc & Hj & Hne).
      eexists. eapply step_pool. by apply pool_step_enabled.
    + destruct (main_step_enabled s Hfin Hmain) as [s' Hs'].
      exists s'. by eapply step_main.
  - eexists. apply step_inline. apply inline_step_enabled. by intros Heq; rewrite Heq in Hinl.
Qed.

Lemma task_measure_nonneg pc : 0 <= task_measure pc.
Proof. destruct pc; simpl; lia. Qed.

Lemma measure_nonneg s :
  counters_inv p capacity (st_mem s) (main s) (tasks s) -> 0 <= measure p capacity s.
Proof.
  intros Hci. pose proof (ci_spawn_idx _ _ _ _ _ Hci) as Hidx.
  pose proof nof_cb_tasks_range as HK.
  pose proof (sumZ_fmap_nonneg task_measure (tasks s) task_measure_nonneg) as Hts.
  unfold measure, cnt. destruct (main s); simpl in *; try case_bool_decide; lia.
Qed.

Lemma measure_task m mp ts k pc :
  counters_inv p capacity m mp ts ->
  ts !! k = Some pc -> pc <> Finished ->
  cnt task_measure (<[k := (task_step p m pc).2]> ts)
  + (if bool_decide (6 <= stage mp)
     then 2 * Z.max 0 (nof_cb p - cb_counter (task_step p m pc).1) else 0)
  < cnt task_measure ts
    + (if bool_decide (6 <= stage mp) then 2 * Z.max 0 (nof_cb p - cb_counter m) else 0).
Proof.
  intros [Hrange Hidle Hearly Hps Hidx Hasync Hbatch Hcbc Hnot Hdmrs Hptrs Hdec Hrel Hrd Hdr]
    Hk Hne.
  pose proof nof_cb_tasks_range as HK.
  pose proof (cnt_facts ts) as (?&?&?&?&?&?&?&?&?&?&?&?&?&?&?&?&Hdp&?&Hproc).
  pose proof (cnt_lookup_le is_cb ts k pc ltac:(by intros []) Hk) as Hc.
  rewrite (cnt_insert _ _ _ _ _ Hk). clear Hk.
  destruct pc; try done; clear Hne; simpl in *; unfold dec_async in *; simpl in *.
  all: repeat case_bool_decide; simpl in *; wrap_simpl; lia.
Qed.

Lemma measure_main accept s s' :
  counters_inv p capacity (st_mem s) (main s) (tasks s) ->
  main_step p capacity accept s = Some s' ->
  measure p capacity s' < measure p capacity s.
Proof.
  destruct s as [m mp il pl]. unfold main_step, measure, tasks. simpl.
  destruct il; try done. intros Hci Hstep.
  pose proof (ci_spawn_idx _ _ _ _ _ Hci) as Hidx.
  pose proof (ci_range _ _ _ _ _ Hci) as Hrange.
  pose proof nof_cb_tasks_range as HK.
  destruct mp; simpl in *; unfold spawn, goto in *; simpl in *.
  all: repeat match goal with
       | H : context [if ?b then _ else _] |- _ => destruct b eqn:?
       end; simplify_eq; simpl in *;
       rewrite ?cnt_cons, ?cnt_snoc; simpl; wrap_simpl; lia.
Qed.

Lemma measure_step s s' :
  inv p capacity s -> step p capacity s s' ->
  measure p capacity s' < measure p capacity s.
Proof.
  intros (Hci & _) [[accept Hm]|(k & pc & Hk & Hne & Hmem & Hmain & Hts)]%step_cases.
  - by eapply measure_main.
  - unfold measure. rewrite Hmem, Hmain, Hts.
    pose proof (measure_task _ _ _ _ _ Hci Hk Hne). lia.
Qed.

(** Every execution from a state satisfying the invariant is finite: it
    takes at most [measure] steps. *)
Lemma steps_bounded n s s' :
  inv p capacity s -> nsteps (step p capacity) n s s' ->
  Z.of_nat n <= measure p capacity s.
Proof.
  intros Hinv Hn. induction Hn as [s|n s1 s2 s3 Hs Hn IH].
  - destruct Hinv as (Hci & _). pose proof (measure_nonneg _ Hci). lia.
  - pose proof (measure_step _ _ Hinv Hs).
    specialize (IH (inv_step _ _ Hinv Hs)). lia.
Qed.

Lemma owes_async_split ts :
  cnt owes_async ts
  = cnt (dec_pending KPtrs) ts + cnt (dec_pending KDmrs) ts + cnt (dec_pending KCb) ts.
Proof.
  unfold cnt. induction ts as [|pc ts IH]; csimpl; [done|]. destruct pc; simpl; lia.
Qed.

Lemma final_all_finished s :
  final s = true -> main s = MDone /\ cnt active (tasks s) = 0.
Proof.
  unfold final, tasks. intros [[Hm Hi]%andb_prop Hp]%andb_prop.
  split; [by destruct (main s)|].
  rewrite cnt_cons. destruct (inl s); try done. simpl.
  assert (cnt active (pool s) = 0) as ->; [|done].
  clear -Hp. unfold cnt. induction (pool s) as [|t ts IH]; [done|].
  simpl in Hp. apply andb_prop in Hp as [Ht Hts]. csimpl.
  rewrite (IH Hts). by destruct t.
Qed.

(** In a final state [async_task_counter] is zero. *)
Lemma final_quiescent s :
  inv p capacity s -> final s = true ->
  1 <= stage (main s) /\ async_task_counter (st_mem s) <= 0
  /\ count_ev is_notify (log (st_mem s)) = 1.
Proof.
  intros (Hci & Hli & Hord) [Hm Hact]%final_all_finished.
  destruct Hci as
    [Hrange Hidle Hearly Hps Hidx Hasync Hbatch Hcbc Hnot Hdmrs Hptrs Hdec Hrel Hrd Hdr].
  pose proof (cnt_facts (tasks s)) as (?&?&?&?&?&?&?&?&?&?&?&?&?&?&?&?&Hdp&?&Hproc).
  rewrite Hm in *. simpl in *. abstract_specs. simpl stage in *. lia.
Qed.

(** The value of [async_task_counter]: two, plus one once PT-RS has been
    counted, minus the decrements performed so far. *)
Lemma async_counter_value m mp ts :
  counters_inv p capacity m mp ts -> 1 <= stage mp ->
  async_task_counter m
  = 2 + (if bool_decide (2 <= stage mp) then flag (ptrs_configured p) else 0)
    - (count_ev (is_async_dec KPtrs) (log m) + count_ev (is_async_dec KDmrs) (log m)
       + count_ev (is_async_dec KCb) (log m)).
Proof.
  intros [Hrange Hidle Hearly Hps Hidx Hasync Hbatch Hcbc Hnot Hdmrs Hptrs Hdec Hrel Hrd Hdr]
    Hs.
  pose proof (Hdec KPtrs) as Hdec1. pose proof (Hdec KDmrs) as Hdec2.
  pose proof (Hdec KCb) as Hdec3. simpl in *.
  pose proof (owes_async_split ts).
  assert (stage mp = 2 -> flag (ptrs_configured p) = 1) as Hfl
    by (intros Hs2; by rewrite (Hps Hs2)).
  pose proof (flag_range (ptrs_configured p)).
  abstract_specs. case_bool_decide; lia.
Qed.

Lemma reverse_seqZ_lookup (a n : Z) (j : nat) :
  Z.of_nat j < n -> reverse (seqZ a n) !! j = Some (a + n - 1 - Z.of_nat j).
Proof.
  intros Hj. rewrite reverse_lookup by (rewrite length_seqZ; lia).
  rewrite length_seqZ. rewrite lookup_seqZ_lt by lia. f_equal. lia.
Qed.

Lemma sched_step_sound c s s' : sched_step p capacity c s = Some s' -> step p capacity s s'.
Proof.
  destruct c; simpl; intros Hs;
    [by eapply step_main|by apply step_inline|by eapply step_pool].
Qed.

Lemma run_rtc cs s s' : run p capacity cs s = Some s' -> rtc (step p capacity) s s'.
Proof.
  revert s. induction cs as [|c cs IH]; simpl; intros s Hr; [by simplify_eq|].
  destruct (sched_step p capacity c s) as [s1|] eqn:Hc; [|done]. simpl in Hr.
  apply sched_step_sound in Hc. eapply rtc_l; [exact Hc|]. apply (IH _ Hr).
Qed.

Lemma run_reachable cs a b c s :
  run p capacity cs (init_state a b c) = Some s -> reachable p capacity s.
Proof. intros Hr. exists a, b, c. by apply (run_rtc cs). Qed.

(** C1.  Along every interleaving of [process] with the tasks it forks,
    whether the executor accepts a task or the task runs inline:
    [on_finish_processing] is called at most once, it is the latest event
    and it comes after the DM-RS, the PT-RS when configured, every
    codeblock and the release of the transport block; a run that is not
    over can always continue and every run is finite; when the run is over
    the notifier has been called exactly once, the [min(capacity, nof_cb)]
    workers have all left their loop and each kind of task has decremented
    [async_task_counter] once (the codeblock workers once as a group); the
    counter holds two, plus one once PT-RS is counted, minus the decrements
    made so far. *)
Theorem process_notifies_exactly_once s :
  reachable p capacity s ->
  (count_ev is_notify (log (st_mem s)) = 0
   \/ exists l, log (st_mem s) = EvNotify :: l /\ count_ev is_notify l = 0
                /\ writes_complete p l)
  /\ (final s = false -> exists s', step p capacity s s')
  /\ (forall n s', nsteps (step p capacity) n s s' -> Z.of_nat n <= measure p capacity s)
  /\ (final s = true ->
      count_ev is_notify (log (st_mem s)) = 1
      /\ count_ev is_drained (log (st_mem s)) = Z.min capacity (nof_cb p)
      /\ count_ev (is_async_dec KCb) (log (st_mem s)) = 1
      /\ count_ev (is_async_dec KDmrs) (log (st_mem s)) = 1
      /\ count_ev (is_async_dec KPtrs) (log (st_mem s)) = flag (ptrs_configured p))
  /\ (1 <= stage (main s) ->
      async_task_counter (st_mem s)
      = 2 + (if bool_decide (2 <= stage (main s)) then flag (ptrs_configured p) else 0)
        - (count_ev (is_async_dec KPtrs) (log (st_mem s))
           + count_ev (is_async_dec KDmrs) (log (st_mem s))
           + count_ev (is_async_dec KCb) (log (st_mem s)))).
Proof.
  intros Hinv%inv_reachable.
  split; [exact (proj2 (proj2 Hinv))|].
  split; [apply progress|].
  split; [intros n s' Hn; by eapply steps_bounded|].
  split.
  - intros Hfin. destruct (final_quiescent _ Hinv Hfin) as (Hs & Ha & Hn).
    destruct Hinv as (Hci & Hli & _).
    destruct (quiescent _ _ _ Hci Hli Hs Ha) as (_ & _ & _ & _ & Hd & Hk).
    split; [done|]. split; [done|].
    split; [apply (Hk KCb)|]. split; [apply (Hk KDmrs)|apply (Hk KPtrs)].
  - destruct Hinv as (Hci & _). intros Hs. by apply (async_counter_value _ _ _ Hci).
Qed.

(** C4.  Along every interleaving: the workers share [cb_counter], which
    counts from zero the indices fetched so far; the [j]-th index fetched
    is remapped to codeblock [nof_cb - 1 - j], so that the last codeblock
    is taken first; a worker leaves its loop only on a fetched index that
    is at least [nof_cb]; every codeblock is encoded from the transport
    block with the configuration [make_cb_config], whose information-bit
    count is [min(cb_info_bits, tbs - cb_info_bits * i_cb)]; and when the
    run is over every codeblock of [0, nof_cb) has been mapped exactly
    once. *)
Theorem codeblocks_taken_last_first_once s :
  reachable p capacity s ->
  (6 <= stage (main s) ->
   cb_counter (st_mem s)
   = Z.of_nat (length (starts (log (st_mem s)))) + count_ev is_drained (log (st_mem s)))
  /\ (forall j : nat,
        (j < length (starts (log (st_mem s))))%nat ->
        reverse (starts (log (st_mem s))) !! j = Some (nof_cb p - 1 - Z.of_nat j))
  /\ Forall (event_ok p) (log (st_mem s))
  /\ (forall i buffer cfg re_off,
        EvCbMapped i buffer cfg re_off ∈ log (st_mem s) ->
        0 <= tbs p < 2 ^ 32 -> 0 <= cb_info_bits p ->
        cb_info_bits p * (nof_cb p - 1) <= tbs p ->
        0 <= i < nof_cb p
        /\ cb_info_size cfg = Z.min (cb_info_bits p) (tbs p - cb_info_bits p * i))
  /\ (final s = true ->
      reverse (starts (log (st_mem s)))
      = (fun j => nof_cb p - 1 - j) <$> seqZ 0 (nof_cb p)
      /\ forall i, count_ev (is_mapped i) (log (st_mem s))
                   = if bool_decide (0 <= i < nof_cb p) then 1 else 0).
Proof.
  intros Hinv%inv_reachable.
  assert (forall i, 1 <= count_ev (is_mapped i) (log (st_mem s)) -> 0 <= i < nof_cb p)
    as Hrange.
  { destruct Hinv as (Hci & [Hst Hmp Hok] & _). intros i Hi.
    specialize (Hmp i).
    pose proof (cnt_facts (tasks s)) as (_&_&_&_&_&_&_&_&_&_&_&_&_&_&_&_&_&_&Hproc).
    specialize (Hproc i).
    assert (1 <= occ i (starts (log (st_mem s)))) as Hocc by lia.
    rewrite Hst in Hocc. case_bool_decide; [|done].
    pose proof (ci_range _ _ _ _ _ Hci) as (_ & _ & Hc).
    rewrite occ_seqZ in Hocc by lia. case_bool_decide; lia. }
  destruct Hinv as (Hci & Hli & Hord).
  pose proof Hli as [Hst Hmp Hok].
  pose proof nof_cb_tasks_range as HK.
  pose proof (ci_range _ _ _ _ _ Hci) as (_ & _ & Hc).
  split; [|split; [|split; [done|split]]].
  - intros H6. rewrite Hst, bool_decide_eq_true_2, length_seqZ by done.
    pose proof (ci_cb_counter _ _ _ _ _ Hci H6) as [Hlt Hge].
    pose proof (ci_drained _ _ _ _ _ Hci H6) as Hdr.
    pose proof (ci_spawn_idx _ _ _ _ _ Hci).
    pose proof (cnt_facts (tasks s)) as (?&?&_). lia.
  - intros j Hj. rewrite Hst in *. case_bool_decide; [|simpl in Hj; lia].
    rewrite length_seqZ in Hj.
    rewrite reverse_seqZ_lookup by lia. f_equal. lia.
  - intros i buffer cfg re_off Hin Htbs Hcib Hfit.
    rewrite Forall_forall in Hok. specialize (Hok _ Hin). simpl in Hok.
    destruct Hok as (_ & -> & _).
    assert (0 <= i < nof_cb p) as Hi.
    { apply Hrange. clear -Hin. induction (log (st_mem s)) as [|e l IH].
      - by apply elem_of_nil in Hin.
      - rewrite count_ev_cons. pose proof (count_ev_nonneg (is_mapped i) l).
        apply elem_of_cons in Hin as [<-|Hin].
        + simpl. rewrite bool_decide_eq_true_2 by done. lia.
        + specialize (IH Hin). destruct (is_mapped i e); lia. }
    split; [done|]. simpl. unfold sub32, mul32.
    assert (0 <= cb_info_bits p * i <= cb_info_bits p * (nof_cb p - 1)) by nia.
    rewrite (wrap32_small (cb_info_bits p * i)) by lia.
    rewrite wrap32_small by lia. done.
  - intros Hfin. destruct (final_quiescent _ (conj Hci (conj Hli Hord)) Hfin)
      as (Hs & Ha & _).
    destruct (quiescent _ _ _ Hci Hli Hs Ha) as ([_ _ Hcb _] & Hact & Hun & H6 & _).
    pose proof (ci_cb_counter _ _ _ _ _ Hci H6) as [Hlt Hge].
    pose proof (cnt_facts (tasks s)) as (?&?&?&?&?&?&?&?&?&?&?&?&?&?&?&?&_&_&_).
    assert (nof_cb p <= cb_counter (st_mem s)) as Hcge by lia.
    split.
    + rewrite Hst, bool_decide_eq_true_2 by done.
      replace (Z.min (cb_counter (st_mem s)) (nof_cb p)) with (nof_cb p) by lia.
      replace (nof_cb p - nof_cb p) with 0 by lia.
      apply list_eq. intros j.
      destruct (decide (Z.of_nat j < nof_cb p)) as [Hj|Hj].
      * rewrite reverse_seqZ_lookup by done.
        rewrite list_lookup_fmap, lookup_seqZ_lt by lia. simpl. f_equal; lia.
      * rewrite lookup_ge_None_2 by (rewrite length_reverse, length_seqZ; lia).
        by rewrite lookup_ge_None_2 by (rewrite length_fmap, length_seqZ; lia).
    + intros i. destruct (decide (0 <= i < nof_cb p)) as [Hi|Hi];
        [rewrite bool_decide_eq_true_2 by done; by apply Hcb|].
      rewrite bool_decide_eq_false_2 by done.
      pose proof (count_ev_nonneg (is_mapped i) (log (st_mem s))).
      destruct (decide (1 <= count_ev (is_mapped i) (log (st_mem s)))) as [Hge1|]; [|lia].
      by apply Hrange in Hge1.
Qed.

(** ** Further properties of the forked tasks *)

Lemma main_step_mem accept s s' :
  main_step p capacity accept s = Some s' ->
  log (st_mem s') = log (st_mem s) /\ released (st_mem s') = released (st_mem s).
Proof.
  destruct s as [m mp il pl]. unfold main_step. simpl.
  destruct il; try done. intros Hstep.
  destruct mp; simpl in *; unfold spawn, goto in *; simpl in *.
  all: repeat match goal with
       | H : context [if ?b then _ else _] |- _ => destruct b eqn:?
       end; simplify_eq; simpl in *; done.
Qed.

Lemma no_release_in_batch m mp ts k pc :
  counters_inv p capacity m mp ts ->
  ts !! k = Some pc -> 1 <= owes_batch pc -> count_ev is_release (log m) = 0.
Proof.
  intros [Hrange Hidle Hearly Hps Hidx Hasync Hbatch Hcbc Hnot Hdmrs Hptrs Hdec Hrel Hrd Hdr]
    Hk Hpc.
  pose proof (cnt_facts ts) as (?&?&?&?&?&?&?&?&?&?&?&?&?&?&?&?&Hdp&?&Hproc).
  pose proof (count_facts (log m)) as (?&?&?&?&?&?&?&?&Hdecn&Hmap).
  pose proof (cnt_lookup_le owes_batch ts k pc ltac:(by intros []) Hk) as Hb.
  pose proof (stage_range mp).
  abstract_specs. lia.
Qed.

Lemma all_mapped_at_release m mp ts k :
  counters_inv p capacity m mp ts -> log_inv p m mp ts ->
  ts !! k = Some CbRelease ->
  count_ev is_release (log m) = 0
  /\ forall i, 0 <= i < nof_cb p -> count_ev (is_mapped i) (log m) = 1.
Proof.
  intros [Hrange Hidle Hearly Hps Hidx Hasync Hbatch Hcbc Hnot Hdmrs Hptrs Hdec Hrel Hrd Hdr]
    [Hst Hmp Hok] Hk.
  pose proof nof_cb_tasks_range as HK.
  pose proof (cnt_facts ts) as (?&?&?&?&?&?&?&?&?&?&?&?&?&?&?&?&Hdp&?&Hproc).
  pose proof (count_facts (log m)) as (?&?&?&?&?&?&?&?&Hdecn&Hmap).
  pose proof (cnt_lookup_le releasing ts k CbRelease ltac:(by intros []) Hk) as Hb.
  simpl in Hb. pose proof (stage_range mp).
  abstract_specs.
  assert (6 <= stage mp) as Hst6 by lia.
  assert (nof_cb p <= cb_counter m) as Hcge by lia.
  split; [lia|].
  intros i Hi. specialize (Hmp i). specialize (Hproc i).
  rewrite Hst, bool_decide_eq_true_2 in Hmp by done.
  rewrite occ_seqZ in Hmp by lia.
  rewrite bool_decide_eq_true_2 in Hmp by lia. lia.
Qed.

Lemma release_order_cons e l :
  is_release e = false -> is_cb_work e = false ->
  release_order p l -> release_order p (e :: l).
Proof.
  intros Hr Hw [Hz|(l1 & l2 & -> & H1 & H2 & Hwk & Hall)].
  - left. rewrite count_ev_cons, Hr. lia.
  - right. exists (e :: l1), l2. rewrite !count_ev_cons, Hr, Hw. done.
Qed.

Lemma release_order_task m mp ts k pc :
  counters_inv p capacity m mp ts -> log_inv p m mp ts -> release_order p (log m) ->
  ts !! k = Some pc -> pc <> Finished ->
  release_order p (log (task_step p m pc).1).
Proof.
  intros Hci Hli Hord Hk Hne.
  pose proof (no_release_in_batch m mp ts k pc Hci Hk) as Hnr.
  destruct pc; try done; simpl; unfold dec_async; simpl.
  all: try (by apply release_order_cons).
  - case_bool_decide; simpl.
    + left. rewrite count_ev_cons. simpl. rewrite Hnr; [done|simpl; lia].
    + by apply release_order_cons.
  - left. rewrite count_ev_cons. simpl. rewrite Hnr; [done|simpl; lia].
  - destruct (all_mapped_at_release m mp ts k Hci Hli Hk) as [Hz Hall].
    right. exists [], (log m). done.
Qed.

(** The transport block buffer is released at most once, only after every
    codeblock has been encoded and mapped, and no codeblock is taken or
    mapped after the release. *)
Theorem release_follows_all_codeblocks s :
  reachable p capacity s ->
  count_ev is_release (log (st_mem s)) = 0
  \/ exists l1 l2,
       log (st_mem s) = l1 ++ EvRelease :: l2
       /\ count_ev is_release l1 = 0 /\ count_ev is_release l2 = 0
       /\ count_ev is_cb_work l1 = 0
       /\ forall i, 0 <= i < nof_cb p -> count_ev (is_mapped i) l2 = 1.
Proof.
  intros (a & b & c & Hr). change (release_order p (log (st_mem s))).
  revert s Hr. apply (rtc_ind_r (fun s => release_order p (log (st_mem s)))); [by left|].
  intros y z Hy Hyz IH.
  assert (inv p capacity y) as (Hci & Hli & _) by (apply inv_reachable; by exists a, b, c).
  apply step_cases in Hyz as [[accept Hm]|(k & pc & Hk & Hne & Hmem & Hmain & Hts)].
  - apply main_step_mem in Hm as [-> _]. done.
  - rewrite Hmem. by eapply release_order_task.
Qed.

Lemma cb_task_counter_le_task m mp ts k pc :
  counters_inv p capacity m mp ts ->
  ts !! k = Some pc -> pc <> Finished -> 5 <= stage mp ->
  cb_task_counter m <= nof_cb_tasks p capacity ->
  cb_task_counter (task_step p m pc).1 <= nof_cb_tasks p capacity.
Proof.
  intros [Hrange Hidle Hearly Hps Hidx Hasync Hbatch Hcbc Hnot Hdmrs Hptrs Hdec Hrel Hrd Hdr]
    Hk Hne Hst Hle.
  pose proof (cnt_facts ts) as (?&?&?&?&?&?&?&?&?&?&?&?&?&?&?&?&Hdp&?&Hproc).
  pose proof (cnt_lookup_le owes_batch ts k pc ltac:(by intros []) Hk) as Hb.
  destruct pc; try done; simpl in *; unfold dec_async; simpl;
    try case_bool_decide; simpl; try done.
  wrap_simpl. lia.
Qed.

Lemma cb_task_counter_le_main accept s s' :
  main_step p capacity accept s = Some s' ->
  (5 <= stage (main s) -> cb_task_counter (st_mem s) <= nof_cb_tasks p capacity) ->
  5 <= stage (main s') -> cb_task_counter (st_mem s') <= nof_cb_tasks p capacity.
Proof.
  destruct s as [m mp il pl]. unfold main_step. simpl.
  destruct il; try done. intros Hstep.
  destruct mp; simpl in *; unfold spawn, goto in *; simpl in *.
  all: repeat match goal with
       | H : context [if ?b then _ else _] |- _ => destruct b eqn:?
       end; simplify_eq; simpl in *; lia.
Qed.

Lemma cb_task_counter_le s :
  reachable p capacity s ->
  5 <= stage (main s) -> cb_task_counter (st_mem s) <= nof_cb_tasks p capacity.
Proof.
  intros (a & b & c & Hr). revert s Hr.
  apply (rtc_ind_r (fun s => 5 <= stage (main s) ->
                             cb_task_counter (st_mem s) <= nof_cb_tasks p capacity));
    [simpl; lia|].
  intros y z Hy Hyz IH.
  assert (inv p capacity y) as (Hci & _) by (apply inv_reachable; by exists a, b, c).
  apply step_cases in Hyz as [[accept Hm]|(k & pc & Hk & Hne & Hmem & Hmain & Hts)].
  - by eapply cb_task_counter_le_main.
  - rewrite Hmem, Hmain. intros Hst. eapply cb_task_counter_le_task; eauto.
Qed.

(** The three atomic counters never wrap around: once set by [process],
    [async_task_counter] stays between 0 and 2 (3 with PT-RS),
    [cb_task_counter] between 0 and the number of workers, and [cb_counter]
    between 0 and the number of codeblocks plus the number of workers; when
    everything has returned they hold 0, 0 and that maximum. *)
Theorem counters_stay_in_range s :
  reachable p capacity s ->
  (1 <= stage (main s) ->
   0 <= async_task_counter (st_mem s) <= 2 + flag (ptrs_configured p))
  /\ (5 <= stage (main s) ->
      0 <= cb_task_counter (st_mem s) <= nof_cb_tasks p capacity)
  /\ (6 <= stage (main s) ->
      0 <= cb_counter (st_mem s) <= nof_cb p + nof_cb_tasks p capacity)
  /\ (final s = true ->
      async_task_counter (st_mem s) = 0 /\ cb_task_counter (st_mem s) = 0
      /\ cb_counter (st_mem s) = nof_cb p + nof_cb_tasks p capacity).
Proof.
  intros Hreach. pose proof (inv_reachable _ Hreach) as Hinv.
  pose proof (cb_task_counter_le _ Hreach) as Hle.
  pose proof Hinv as (Hci & _).
  pose proof (async_counter_value _ _ _ Hci) as Hav.
  split; [|split; [|split]].
  - intros Hst. specialize (Hav Hst).
    pose proof (ci_range _ _ _ _ _ Hci) as (Ha & _).
    pose proof (count_facts (log (st_mem s))) as (_&_&_&_&_&_&_&_&Hdecn&_).
    pose proof (Hdecn KPtrs). pose proof (Hdecn KDmrs). pose proof (Hdecn KCb).
    pose proof (flag_range (ptrs_configured p)).
    case_bool_decide; lia.
  - intros Hst. pose proof (ci_range _ _ _ _ _ Hci) as (_ & Hb & _).
    specialize (Hle Hst). lia.
  - intros Hst. pose proof (ci_range _ _ _ _ _ Hci) as (_ & _ & Hc).
    pose proof (ci_cb_counter _ _ _ _ _ Hci Hst) as [_ Hge].
    pose proof (ci_spawn_idx _ _ _ _ _ Hci) as Hidx.
    pose proof (cnt_facts (tasks s)) as (_&Hl&_).
    pose proof nof_cb_tasks_range as HK.
    destruct (decide (nof_cb p <= cb_counter (st_mem s))) as [Hc1|Hc1]; [|lia].
    specialize (Hge Hc1). lia.
  - intros Hfin. destruct (final_quiescent _ Hinv Hfin) as (Hs & Ha & _).
    destruct (final_all_finished _ Hfin) as [Hm Hact].
    destruct Hci as
      [Hrange Hidle Hearly Hps Hidx Hasync Hbatch Hcbc Hnot Hdmrs Hptrs Hdec Hrel Hrd Hdr].
    pose proof (cnt_facts (tasks s)) as (?&?&?&?&?&?&?&?&?&?&?&?&?&?&?&?&Hdp&?&Hproc).
    pose proof nof_cb_tasks_range as HK.
    rewrite Hm in *. simpl in *.
    specialize (Hbatch ltac:(lia)). destruct (Hcbc ltac:(lia)) as [Hlt Hge].
    split; [lia|]. split; [lia|].
    destruct (decide (nof_cb p <= cb_counter (st_mem s))) as [Hc1|Hc1].
    + specialize (Hge Hc1). lia.
    + specialize (Hlt ltac:(lia)). lia.
Qed.

Lemma body_point_step k m pc :
  body_point k pc = true -> body_point k (task_step p m pc).2 = true.
Proof.
  destruct pc, k; simpl; try done; unfold dec_async; simpl;
    repeat case_bool_decide; done.
Qed.

Lemma enqueued_shape_main accept s s' np nd nw :
  counters_inv p capacity (st_mem s) (main s) (tasks s) ->
  main_step p capacity accept s = Some s' ->
  enqueued_shape p capacity s np nd nw ->
  exists np' nd' nw', enqueued_shape p capacity s' np' nd' nw'.
Proof.
  destruct s as [m mp il pl]. unfold main_step, tasks, enqueued_shape. simpl.
  destruct il; try done. intros Hci Hstep (Hpool & Hnp & Hnd & Hnw).
  pose proof (ci_spawn_idx _ _ _ _ _ Hci) as Hidx.
  pose proof (ci_ptrs_stage _ _ _ _ _ Hci) as Hps.
  pose proof nof_cb_tasks_range as HK.
  pose proof (flag_range (ptrs_configured p && bool_decide (1 < capacity))) as Hfl.
  unfold holds_bodies, enqueued_bodies in *.
  destruct mp; simpl in *.
  - injection Hstep as <-. exists np, nd, nw. simpl. done.
  - exists np, nd, nw. destruct (ptrs_configured p); injection Hstep as <-; simpl;
      (split; [done|lia]).
  - assert (np = 0%nat /\ nd = 0%nat /\ nw = 0%nat) as (-> & -> & ->) by lia.
    apply Forall2_nil_inv_l in Hpool as ->. injection Hstep as <-.
    rewrite (Hps eq_refl). unfold spawn. simpl.
    destruct (bool_decide_reflect (1 < capacity)); destruct accept; simpl.
    + exists 1%nat, 0%nat, 0%nat. simpl. split; [by repeat constructor|lia].
    + exists 0%nat, 0%nat, 0%nat. simpl. split; [constructor|lia].
    + exists 0%nat, 0%nat, 0%nat. simpl. split; [constructor|lia].
    + exists 0%nat, 0%nat, 0%nat. simpl. split; [constructor|lia].
  - assert (nd = 0%nat /\ nw = 0%nat) as (-> & ->) by lia.
    injection Hstep as <-. unfold spawn. simpl. destruct accept; simpl.
    + exists np, 1%nat, 0%nat. simpl in *. rewrite app_nil_r in Hpool.
      split; [|lia]. apply Forall2_app; [done|by repeat constructor].
    + exists np, 0%nat, 0%nat. simpl. split; [done|lia].
  - injection Hstep as <-. exists np, nd, nw. simpl. split; [done|lia].
  - injection Hstep as <-. exists np, nd, nw. simpl. split; [done|].
    destruct (bool_decide (1 < nof_cb_tasks p capacity)); lia.
  - destruct (bool_decide_reflect (i_task = nof_cb_tasks p capacity)) as [Hend|Hend].
    + injection Hstep as <-. exists np, nd, nw. simpl. subst i_task. done.
    + injection Hstep as <-. unfold spawn. simpl.
      assert (add32 i_task 1 = i_task + 1) as -> by (wrap_simpl; lia).
      destruct (bool_decide_reflect (1 < nof_cb_tasks p capacity)) as [Hmany|Hmany];
        destruct accept; simpl.
      * exists np, nd, (S nw). split; [|simpl; lia]. cbn [pool].
        rewrite replicate_S_end, !app_assoc. apply Forall2_app; [|by repeat constructor].
        by rewrite <- app_assoc.
      * exists np, nd, nw. simpl. split; [done|lia].
      * exists np, nd, nw. simpl. split; [done|lia].
      * exists np, nd, nw. simpl. split; [done|lia].
  - done.
Qed.

(** In every reachable state the executor holds, in the order they were
    handed over: at most one PT-RS body, and none unless PT-RS is
    configured and the pool has more than one codeblock processor; at most
    one DM-RS body; and at most [min(capacity, nof_cb)] codeblock workers,
    none at all when that minimum is one.  So [process] hands at most
    [min(capacity, nof_cb) + 2] bodies to the executor, and with a single
    codeblock worker no codeblock is processed off the caller's thread. *)
Theorem executor_load_is_bounded s :
  reachable p capacity s ->
  (exists np nd nw : nat,
     holds_bodies (enqueued_bodies np nd nw) (pool s)
     /\ Z.of_nat np <= flag (ptrs_configured p && bool_decide (1 < capacity))
     /\ (nd <= 1)%nat
     /\ Z.of_nat nw
        <= (if bool_decide (1 < nof_cb_tasks p capacity) then nof_cb_tasks p capacity
            else 0))
  /\ Z.of_nat (length (pool s))
     <= flag (ptrs_configured p && bool_decide (1 < capacity)) + 1
        + (if bool_decide (1 < nof_cb_tasks p capacity) then nof_cb_tasks p capacity else 0)
  /\ (nof_cb_tasks p capacity <= 1 ->
      forall pc, pc ∈ pool s -> body_point KPtrs pc = true \/ body_point KDmrs pc = true).
Proof.
  intros Hreach.
  assert (exists np nd nw, enqueued_shape p capacity s np nd nw) as (np & nd & nw & Hshape).
  { destruct Hreach as (a & b & c & Hr). revert s Hr.
    apply (rtc_ind_r (fun s => exists np nd nw, enqueued_shape p capacity s np nd nw)).
    { exists 0%nat, 0%nat, 0%nat. split; [constructor|simpl; lia]. }
    intros y z Hy Hyz (np & nd & nw & IH).
    assert (inv p capacity y) as (Hci & _) by (apply inv_reachable; by exists a, b, c).
    apply step_cases in Hyz as [[accept Hm]|(k & pc & Hk & Hne & Hmem & Hmain & Hts)].
    - by eapply enqueued_shape_main.
    - exists np, nd, nw. destruct IH as (Hpool & Hb). unfold enqueued_shape.
      rewrite Hmain. split; [|done].
      unfold tasks in Hts, Hk. destruct k as [|j]; simpl in Hts, Hk.
      + injection Hts as _ ->. done.
      + injection Hts as _ ->.
        destruct (Forall2_lookup_r _ _ _ _ _ Hpool Hk) as (kind & Hkind & Hpt).
        rewrite <- (list_insert_id _ _ _ Hkind).
        apply Forall2_insert; [done|]. by apply body_point_step. }
  destruct Hshape as (Hpool & Hnp & Hnd & Hnw).
  pose proof (inv_reachable _ Hreach) as (Hci & _).
  pose proof (ci_spawn_idx _ _ _ _ _ Hci) as Hidx.
  pose proof nof_cb_tasks_range as HK.
  pose proof (flag_range (ptrs_configured p && bool_decide (1 < capacity))) as Hfl.
  assert (Z.of_nat np <= flag (ptrs_configured p && bool_decide (1 < capacity))
          /\ (nd <= 1)%nat
          /\ Z.of_nat nw
             <= (if bool_decide (1 < nof_cb_tasks p capacity) then nof_cb_tasks p capacity
                 else 0)) as (Hp' & Hd' & Hw').
  { destruct (main s); simpl in *; repeat case_bool_decide; lia. }
  split; [by exists np, nd, nw|].
  pose proof (Forall2_length _ _ _ Hpool) as Hlen.
  unfold enqueued_bodies in Hlen. rewrite !length_app, !length_replicate in Hlen.
  split; [lia|].
  intros Hone pc Hin. rewrite bool_decide_eq_false_2 in Hw' by lia.
  assert (nw = 0%nat) as -> by lia.
  apply list_elem_of_lookup in Hin as [j Hj].
  destruct (Forall2_lookup_r _ _ _ _ _ Hpool Hj) as (kind & Hkind & Hpt).
  unfold enqueued_bodies in Hkind. simpl in Hkind. rewrite app_nil_r in Hkind.
  apply list_elem_of_lookup_2, elem_of_app in Hkind as [Hin|Hin];
    apply elem_of_replicate in Hin as [-> _]; [by left|by right].
Qed.

(** ** Processing on the caller's thread alone *)

Lemma rejecting_run_step fuel s s' :
  rejecting_step p capacity s = Some s' ->
  rejecting_run p capacity (S fuel) s = rejecting_run p capacity fuel s'.
Proof. intros Hs. simpl. by rewrite Hs. Qed.

Lemma rejecting_step_sound s s' :
  rejecting_step p capacity s = Some s' -> step p capacity s s'.
Proof.
  unfold rejecting_step. destruct (inline_step p s) as [s1|] eqn:Hi.
  - intros [= <-]. by apply step_inline.
  - intros Hm. by eapply step_main.
Qed.

Lemma rejecting_run_rtc fuel s :
  rtc (step p capacity) s (rejecting_run p capacity fuel s).
Proof.
  revert s. induction fuel as [|fuel IH]; intros s; simpl; [done|].
  destruct (rejecting_step p capacity s) as [s'|] eqn:Hs; [|done].
  eapply rtc_l; [by apply rejecting_step_sound|apply IH].
Qed.

Lemma rejecting_run_final fuel s :
  final s = true -> rejecting_run p capacity fuel s = s.
Proof.
  intros Hf. destruct fuel as [|fuel]; [done|]. simpl.
  unfold final in Hf. apply andb_prop in Hf as [[Hm Hi]%andb_prop _].
  unfold rejecting_step, inline_step, main_step.
  destruct (inl s); try done. by destruct (main s).
Qed.

(** A state of the caller's thread with nothing enqueued. *)
Let seq_state (a t c : Z) (r : bool) (l : list event) (mp : main_pc) (il : task_pc) : state :=
  {| st_mem := {| async_task_counter := a; cb_task_counter := t; cb_counter := c;
                  released := r; log := l |};
     main := mp; inl := il; pool := [] |}.

(** The worker takes the codeblocks that are left, one after the other. *)
Lemma rejecting_run_loop (k : nat) (j a t : Z) (l : list event) (mp : main_pc) (fuel : nat) :
  0 <= j -> j + Z.of_nat k = nof_cb p ->
  rejecting_run p capacity (2 * k + fuel) (seq_state a t j false l mp CbFetch)
  = rejecting_run p capacity fuel
      (seq_state a t (nof_cb p) false
         (reverse (flat_map (fetch_events p) (seqZ j (Z.of_nat k))) ++ l) mp CbFetch).
Proof.
  revert j l. induction k as [|k IH]; intros j l Hj Hk.
  - simpl. replace j with (nof_cb p) by lia. done.
  - replace (2 * S k + fuel)%nat with (S (S (2 * k + fuel))) by lia.
    rewrite (rejecting_run_step _ _
               (seq_state a t (j + 1) false (EvCbStart (nof_cb p - 1 - j) :: l) mp
                  (CbProcess (nof_cb p - 1 - j)))).
    2:{ unfold rejecting_step, inline_step, seq_state. simpl.
        rewrite bool_decide_eq_true_2 by lia. simpl. wrap_simpl. done. }
    rewrite (rejecting_run_step _ _
               (seq_state a t (j + 1) false (reverse (fetch_events p j) ++ l) mp CbFetch)).
    2:{ done. }
    rewrite IH by lia.
    rewrite (seqZ_cons j) by lia.
    replace (Z.succ j) with (j + 1) by lia.
    replace (Z.pred (Z.of_nat (S k))) with (Z.of_nat k) by lia.
    change (flat_map (fetch_events p) (j :: seqZ (j + 1) (Z.of_nat k)))
      with (fetch_events p j ++ flat_map (fetch_events p) (seqZ (j + 1) (Z.of_nat k))).
    by rewrite reverse_app, <- app_assoc.
Qed.

(** The worker finds no codeblock left and leaves its loop. *)
Lemma rejecting_run_drain (a t c : Z) (l : list event) (mp : main_pc) (fuel : nat) :
  nof_cb p <= c < 2 ^ 32 - 1 -> 1 <= t < 2 ^ 32 ->
  rejecting_run p capacity (2 + fuel) (seq_state a t c false l mp CbFetch)
  = rejecting_run p capacity fuel
      (seq_state a (t - 1) (c + 1) false (EvDrained c :: l) mp
         (if bool_decide (t = 1) then CbRelease else Finished)).
Proof.
  intros Hc Ht. change (2 + fuel)%nat with (S (S fuel)).
  erewrite rejecting_run_step
    by (unfold rejecting_step, inline_step, seq_state; simpl;
        rewrite bool_decide_eq_false_2 by lia; simpl; wrap_simpl; reflexivity).
  erewrite rejecting_run_step
    by (unfold rejecting_step, inline_step, seq_state; simpl; wrap_simpl; reflexivity).
  done.
Qed.

(** The last worker releases the transport block and notifies. *)
Lemma rejecting_run_finish (t c : Z) (l : list event) (mp : main_pc) (fuel : nat) :
  rejecting_run p capacity (3 + fuel) (seq_state 1 t c false l mp CbRelease)
  = rejecting_run p capacity fuel
      (seq_state 0 t c true (EvNotify :: EvAsyncDec KCb :: EvRelease :: l) mp Finished).
Proof.
  change (3 + fuel)%nat with (S (S (S fuel))).
  erewrite rejecting_run_step by (unfold rejecting_step, inline_step, seq_state; reflexivity).
  erewrite rejecting_run_step by (unfold rejecting_step, inline_step, seq_state; reflexivity).
  erewrite rejecting_run_step by (unfold rejecting_step, inline_step, seq_state; reflexivity).
  done.
Qed.

(** The caller starts the next worker on its own thread. *)
Lemma rejecting_run_spawn (a t c w : Z) (r : bool) (l : list event) (fuel : nat) :
  0 <= w < nof_cb_tasks p capacity ->
  rejecting_run p capacity (1 + fuel) (seq_state a t c r l (MSpawn w) Finished)
  = rejecting_run p capacity fuel (seq_state a t c r l (MSpawn (w + 1)) CbFetch).
Proof.
  intros Hw. pose proof nof_cb_tasks_range as HK. change (1 + fuel)%nat with (S fuel).
  erewrite rejecting_run_step
    by (unfold rejecting_step, inline_step, main_step, spawn, seq_state; simpl;
        rewrite bool_decide_eq_false_2 by lia; rewrite andb_false_r; simpl;
        wrap_simpl; reflexivity).
  done.
Qed.

(** The workers after the first one find nothing to do; the last of them
    releases and notifies. *)
Lemma rejecting_run_workers (r : nat) (w : Z) (l : list event) (fuel : nat) :
  1 <= w -> w + Z.of_nat (S r) = nof_cb_tasks p capacity ->
  rejecting_run p capacity (3 * S r + 3 + fuel)
    (seq_state 1 (nof_cb_tasks p capacity - w) (nof_cb p + w) false l (MSpawn w) Finished)
  = rejecting_run p capacity fuel
      (seq_state 0 0 (nof_cb p + nof_cb_tasks p capacity) true
         ([EvNotify; EvAsyncDec KCb; EvRelease]
          ++ reverse ((fun v => EvDrained (nof_cb p + v)) <$> seqZ w (Z.of_nat (S r))) ++ l)
         (MSpawn (nof_cb_tasks p capacity)) Finished).
Proof.
  pose proof nof_cb_tasks_range as HK.
  revert w l. induction r as [|r IH]; intros w l Hw Hr.
  - replace (3 * 1 + 3 + fuel)%nat with (1 + (2 + (3 + fuel)))%nat by lia.
    rewrite rejecting_run_spawn by lia.
    rewrite rejecting_run_drain by lia.
    rewrite bool_decide_eq_true_2 by lia.
    rewrite rejecting_run_finish.
    change (Z.of_nat 1) with 1. rewrite (seqZ_cons w 1) by lia.
    change (Z.pred 1) with 0. change (seqZ (Z.succ w) 0) with (@nil Z).
    replace (nof_cb_tasks p capacity - w - 1) with 0 by lia.
    replace (nof_cb p + w + 1) with (nof_cb p + nof_cb_tasks p capacity) by lia.
    replace (w + 1) with (nof_cb_tasks p capacity) by lia.
    done.
  - replace (3 * S (S r) + 3 + fuel)%nat with (1 + (2 + (3 * S r + 3 + fuel)))%nat by lia.
    rewrite rejecting_run_spawn by lia.
    rewrite rejecting_run_drain by lia.
    rewrite bool_decide_eq_false_2 by lia.
    replace (nof_cb_tasks p capacity - w - 1) with (nof_cb_tasks p capacity - (w + 1)) by lia.
    replace (nof_cb p + w + 1) with (nof_cb p + (w + 1)) by lia.
    rewrite IH by lia.
    f_equal. unfold seq_state. do 3 f_equal.
    rewrite (seqZ_cons w (Z.of_nat (S (S r)))) by lia.
    replace (Z.succ w) with (w + 1) by lia.
    replace (Z.pred (Z.of_nat (S (S r)))) with (Z.of_nat (S r)) by lia.
    rewrite fmap_cons, reverse_cons, <- app_assoc. done.
Qed.

(** [process] up to the fork: the reference signals are generated on the
    caller's thread, which leaves [async_task_counter] at one. *)
Lemma rejecting_run_head (a b c : Z) (fuel : nat) :
  rejecting_run p capacity ((if ptrs_configured p then 10 else 7) + fuel) (init_state a b c)
  = rejecting_run p capacity fuel
      (seq_state 1 (nof_cb_tasks p capacity) 0 false
         (reverse ((if ptrs_configured p then [EvPtrs; EvAsyncDec KPtrs] else [])
                   ++ [EvDmrs; EvAsyncDec KDmrs]))
         (MSpawn 0) Finished).
Proof.
  destruct (ptrs_configured p) eqn:Hptrs; cbn [Nat.add].
  all: repeat
         (erewrite rejecting_run_step
            by (unfold rejecting_step, inline_step, main_step, spawn, goto, dec_async,
                  init_state; simpl; rewrite ?Hptrs, ?andb_false_r; simpl; reflexivity)).
  all: done.
Qed.

Lemma rejecting_run_return (a t c : Z) (r : bool) (l : list event) (fuel : nat) :
  rejecting_run p capacity (1 + fuel)
    (seq_state a t c r l (MSpawn (nof_cb_tasks p capacity)) Finished)
  = rejecting_run p capacity fuel (seq_state a t c r l MDone Finished).
Proof.
  change (1 + fuel)%nat with (S fuel).
  erewrite rejecting_run_step
    by (unfold rejecting_step, inline_step, main_step, seq_state; simpl;
        rewrite bool_decide_eq_true_2 by done; reflexivity).
  done.
Qed.

(** When the executor rejects every task, [process] does the whole
    transmission on the caller's thread, in a fixed order: PT-RS if
    configured, DM-RS, the codeblocks from the last to the first, the
    release of the transport block, the notification; it has notified by
    the time it returns, and nothing is left running. *)
Theorem rejected_tasks_run_in_sequence (a b c : Z) :
  exists fuel,
    let s := rejecting_run p capacity fuel (init_state a b c) in
    final s = true /\ pool s = []
    /\ reverse (log (st_mem s)) = sequential_log p capacity
    /\ reachable p capacity s
    /\ forall more, rejecting_run p capacity (fuel + more) (init_state a b c) = s.
Proof.
  pose proof nof_cb_tasks_range as HK.
  set (head := (if ptrs_configured p then [EvPtrs; EvAsyncDec KPtrs] else [])
               ++ [EvDmrs; EvAsyncDec KDmrs]).
  set (n := Z.to_nat (nof_cb p)).
  set (tail := if bool_decide (nof_cb_tasks p capacity = 1) then 3%nat
               else (3 * Z.to_nat (nof_cb_tasks p capacity - 1) + 3)%nat).
  set (sF := seq_state 0 0 (nof_cb p + nof_cb_tasks p capacity) true
               (reverse (sequential_log p capacity)) MDone Finished).
  assert (forall more,
            rejecting_run p capacity
              ((if ptrs_configured p then 10 else 7)
               + (1 + (2 * n + (2 + (tail + (1 + more)))))) (init_state a b c)
            = rejecting_run p capacity more sF) as Hrun.
  { intros more.
    rewrite rejecting_run_head. fold head.
    rewrite rejecting_run_spawn by lia.
    rewrite (rejecting_run_loop n 0) by lia.
    rewrite rejecting_run_drain by lia.
    unfold tail. case_bool_decide as HK1.
    - rewrite rejecting_run_finish.
      replace (0 + 1) with (nof_cb_tasks p capacity) by lia.
      rewrite rejecting_run_return. f_equal. unfold sF, seq_state.
      replace (nof_cb_tasks p capacity - 1) with 0 by lia.
      replace (nof_cb p + 1) with (nof_cb p + nof_cb_tasks p capacity) by lia.
      do 3 f_equal. unfold sequential_log. fold head.
      rewrite HK1. change (seqZ 0 1) with [0]. simpl fmap.
      replace (Z.of_nat n) with (nof_cb p) by lia. rewrite Z.add_0_r.
      unfold head. rewrite !reverse_app. simpl. by rewrite <- ?app_assoc.
    - destruct (Z.to_nat (nof_cb_tasks p capacity - 1)) as [|r] eqn:Hr; [lia|].
      replace (0 + 1) with 1 by lia.
      rewrite (rejecting_run_workers r 1) by lia.
      rewrite rejecting_run_return. f_equal. unfold sF, seq_state.
      do 3 f_equal. unfold sequential_log. fold head.
      rewrite (seqZ_cons 0 (nof_cb_tasks p capacity)) by lia.
      change (Z.succ 0) with 1.
      replace (Z.pred (nof_cb_tasks p capacity)) with (Z.of_nat (S r)) by lia.
      replace (Z.of_nat n) with (nof_cb p) by lia. rewrite fmap_cons, Z.add_0_r.
      unfold head. rewrite !reverse_app. simpl.
      rewrite (reverse_cons _ (EvDrained (nof_cb p))), <- ?app_assoc. done. }
  eexists. intros s.
  assert (s = sF) as Hs.
  { unfold s. rewrite <- (rejecting_run_final 0 sF) by done.
    rewrite <- (Hrun 0%nat). f_equal. }
  split; [by rewrite Hs|]. split; [by rewrite Hs|].
  split; [rewrite Hs; simpl; apply reverse_involutive|].
  split; [exists a, b, c; apply rejecting_run_rtc|].
  intros more. rewrite Hs.
  rewrite <- (rejecting_run_final more sF) by done.
  rewrite <- Hrun. f_equal. lia.
Qed.

End Preservation.

Section ScramblingFacts.

Context {allocation_t : Type}.
Context (pdsch_compute_nof_data_re : allocation_t -> Z).
Context `{ldpc_helpers}.

Lemma land_shiftl_small a n k :
  0 <= k -> 0 <= n < 2 ^ k -> Z.land (Z.shiftl a k) n = 0.
Proof.
  intros Hk Hn. apply Z.bits_inj'. intros i Hi. rewrite Z.land_spec, Z.bits_0.
  destruct (decide (i < k)).
  - rewrite Z.shiftl_spec_low by lia. done.
  - destruct (decide (n = 0)) as [->|Hn0]; [by rewrite Z.bits_0, andb_false_r|].
    rewrite (Z.bits_above_log2 n i); [by rewrite andb_false_r|lia|].
    apply Z.lt_le_trans with k; [|lia]. apply Z.log2_lt_pow2; lia.
Qed.

Lemma lor_shiftl_disjoint a n k :
  0 <= k -> 0 <= n < 2 ^ k -> Z.lor (Z.shiftl a k) n = Z.shiftl a k + n.
Proof.
  intros Hk Hn. pose proof (land_shiftl_small a n k Hk Hn) as Hz.
  rewrite <- Z.lxor_lor by done. symmetry. by apply Z.add_nocarry_lxor.
Qed.

(** C5 (as the code has it).  The scrambler is initialised with the sum
    [(RNTI << 15) + (i_cw << 14) + n_id] in 32-bit unsigned arithmetic, the
    codeword index being 0; this is the value
    [(RNTI << 15) | (i_cw << 14) | n_id] whenever [n_id] is below [2^15]. *)
Theorem scrambling_init_is_sum self data_ pdu p :
  save_inputs pdsch_compute_nof_data_re self data_ pdu = Some p ->
  0 <= rnti pdu < 2 ^ 16 -> 0 <= n_id pdu < 2 ^ 32 ->
  scrambler p = (Z.shiftl (rnti pdu) 15 + Z.shiftl i_cw 14 + n_id pdu) mod 2 ^ 32
  /\ i_cw = 0
  /\ (n_id pdu < 2 ^ 15 ->
      scrambler p = Z.lor (Z.lor (Z.shiftl (rnti pdu) 15) (Z.shiftl i_cw 14)) (n_id pdu)).
Proof.
  intros (tb & cw & _ & _ & _ & _ & _ & _ & Hsc & _)%save_inputs_inv Hr Hn.
  rewrite Hsc. unfold scrambling_c_init, add32, shl32, i_cw.
  rewrite (Z.mod_small (rnti pdu)) by done.
  rewrite !Z.shiftl_0_l, Z.shiftl_mul_pow2 by lia.
  rewrite (wrap32_small (rnti pdu * 2 ^ 15)) by lia.
  rewrite (wrap32_small 0), !Z.add_0_r by lia.
  rewrite (wrap32_small (rnti pdu * 2 ^ 15)) by lia.
  rewrite (wrap32_small (n_id pdu)) by done.
  split; [done|]. split; [done|]. intros Hsmall.
  rewrite Z.lor_0_r. rewrite <- (Z.shiftl_mul_pow2 (rnti pdu) 15) by lia.
  rewrite lor_shiftl_disjoint by lia.
  rewrite Z.shiftl_mul_pow2 by lia. apply wrap32_small. lia.
Qed.

(** C10.  [save_inputs] reads the first transport block and the first
    codeword only: apart from the saved copy of the PDU, the processor is
    the same whatever follows them in the two lists; the buffer kept is the
    first transport block. *)
Theorem only_first_tb_and_codeword_used self tb rest rest' pdu cw cws cws' :
  set_config None
    <$> save_inputs pdsch_compute_nof_data_re self (tb :: rest) (set_codewords (cw :: cws) pdu)
  = set_config None
    <$> save_inputs pdsch_compute_nof_data_re self (tb :: rest')
          (set_codewords (cw :: cws') pdu)
  /\ data <$> save_inputs pdsch_compute_nof_data_re self (tb :: rest)
                (set_codewords (cw :: cws) pdu)
     = (fun _ => Some tb)
       <$> save_inputs pdsch_compute_nof_data_re self [tb] (set_codewords [cw] pdu)
  /\ (forall i,
        (fun q => make_cb_config q i)
        <$> save_inputs pdsch_compute_nof_data_re self (tb :: rest)
              (set_codewords (cw :: cws) pdu)
        = (fun q => make_cb_config q i)
          <$> save_inputs pdsch_compute_nof_data_re self [tb] (set_codewords [cw] pdu)).
Proof.
  unfold save_inputs, nof_re_pdsch_of, nof_layers_of.
  cbn [head mbind option_bind set_codewords codewords rnti n_id ldpc_base_graph
       tbs_lbrm nof_layers_of_precoding ptrs alloc].
  split; [|split; [|intros i]]; case_bool_decide;
    cbn [fmap option_fmap option_map];
    unfold set_config, make_cb_config;
    cbn [data config nof_ch_symbols scrambler tbs nof_cb cb_info_bits segment_length
         zero_pad cb_metadata rm_length cw_offset re_offset];
    reflexivity.
Qed.

End ScramblingFacts.

(** ** Concrete runs *)

Lemma sample_final_reachable : reachable sample_processor 2 sample_final.
Proof. apply (run_reachable _ _ sample_schedule 7 8 9). vm_compute. reflexivity. Qed.

Lemma process_notifies_exactly_once_witness :
  final sample_final = true /\ count_ev is_notify (log (st_mem sample_final)) = 1.
Proof.
  split; [vm_compute; reflexivity|].
  refine (proj1 (proj1 (proj2 (proj2 (proj2
    (process_notifies_exactly_once sample_processor 2 _ _ _ sample_final
       sample_final_reachable)))) _)).
  all: vm_compute; reflexivity.
Defined.

Lemma codeblocks_taken_last_first_once_witness :
  reverse (starts (log (st_mem sample_final))) = [2; 1; 0]
  /\ count_ev (is_mapped 2) (log (st_mem sample_final)) = 1.
Proof.
  pose proof (proj2 (proj2 (proj2 (proj2
    (codeblocks_taken_last_first_once sample_processor 2
       ltac:(vm_compute; reflexivity) ltac:(vm_compute; reflexivity)
       ltac:(vm_compute; reflexivity)
       sample_final sample_final_reachable)))) ltac:(vm_compute; reflexivity)) as [Hs Hm].
  split; [exact Hs|exact (Hm 2)].
Defined.

Lemma rm_lengths_sum_to_codeword_length_witness :
  rm_length sample_processor = [12000; 12000; 12012]
  /\ sumZ (rm_length sample_processor) = cw_length (tb_common (cb_metadata sample_processor)).
Proof.
  split; [vm_compute; reflexivity|].
  refine (proj1 (rm_lengths_sum_to_codeword_length (fun nof_re => nof_re) (H := ts38212)
    fresh_processor [zero_block 3000]
    (sample_pdu 17921 1 3001 [CodewordDescription QAM64 0]) sample_processor
    (CodewordDescription QAM64 0) _ _ _)).
  all: vm_compute; reflexivity.
Defined.

Lemma scrambling_init_is_sum_witness :
  scrambler sample_processor = Z.lor (Z.lor (Z.shiftl 17921 15) (Z.shiftl i_cw 14)) 1.
Proof.
  refine (proj2 (proj2 (scrambling_init_is_sum (fun nof_re => nof_re) (H := ts38212)
    fresh_processor [zero_block 3000]
    (sample_pdu 17921 1 3001 [CodewordDescription QAM64 0]) sample_processor _ _ _)) _).
  all: vm_compute; try reflexivity; split; congruence.
Defined.

(** With RNTI 1 and n_id [2^15] the sum carries into bit 16, which the
    bitwise OR of the same fields does not. *)
Lemma c_init_or_form_counterexample :
  exists p,
    save_inputs (fun nof_re => nof_re) (H := ts38212) fresh_processor [zero_block 100]
      (sample_pdu 1 32768 10 [CodewordDescription QPSK 0]) = Some p
    /\ scrambler p = 65536
    /\ Z.lor (Z.lor (Z.shiftl 1 15) (Z.shiftl i_cw 14)) 32768 = 32768
    /\ scrambler p <> Z.lor (Z.lor (Z.shiftl 1 15) (Z.shiftl i_cw 14)) 32768.
Proof.
  eexists. split; [vm_compute; reflexivity|]. vm_compute. repeat split; congruence.
Qed.

(** The three codeblocks of the sample transmission start at bits 0, 12000
    and 24000 of the codeword and at RE 0, 1000 and 2000. *)
Lemma cw_offsets_are_prefix_sums_witness :
  cw_offset sample_processor !! 2%nat = Some (sumZ (take 2 (rm_length sample_processor)))
  /\ sumZ (take 2 (rm_length sample_processor)) + 12012
     = cw_length (tb_common (cb_metadata sample_processor)).
Proof.
  pose proof (proj2 (cw_offsets_are_prefix_sums (fun nof_re => nof_re) (H := ts38212)
    fresh_processor [zero_block 3000]
    (sample_pdu 17921 1 3001 [CodewordDescription QAM64 0]) sample_processor
    (CodewordDescription QAM64 0)
    ltac:(vm_compute; reflexivity) ltac:(vm_compute; reflexivity)
    ltac:(vm_compute; reflexivity)) 2%nat 12012 ltac:(vm_compute; reflexivity))
    as (Hoff & _ & _ & Hlast).
  split; [exact Hoff|]. apply Hlast. vm_compute; reflexivity.
Defined.

Lemma re_ranges_partition_allocation_witness :
  re_offset sample_processor = [0; 1000; 2000]
  /\ re_offset sample_processor !! 2%nat = Some (1000 + 1000).
Proof.
  split; [vm_compute; reflexivity|].
  pose proof (proj1 (proj2 (proj2 (re_ranges_partition_allocation (fun nof_re => nof_re)
    (H := ts38212) fresh_processor [zero_block 3000]
    (sample_pdu 17921 1 3001 [CodewordDescription QAM64 0]) sample_processor
    (CodewordDescription QAM64 0)
    ltac:(vm_compute; reflexivity) ltac:(vm_compute; reflexivity)
    ltac:(vm_compute; reflexivity)))) 1%nat 1000 ltac:(vm_compute; reflexivity))
    as (_ & _ & _ & _ & _ & Hnext).
  exact Hnext.
Defined.

(** A transport block of 3001 bytes makes three codeblocks that hold one
    bit more than the block with its CRCs. *)
Lemma zero_pad_completes_codeblocks_witness :
  let p := default fresh_processor
             (save_inputs (fun nof_re => nof_re) (H := ts38212) fresh_processor
                [zero_block 3001] (sample_pdu 17921 1 3001 [CodewordDescription QAM64 0])) in
  zero_pad p = 1 /\ (cb_info_bits p + 24) * 3 = 24008 + 24 + 72 + 1.
Proof.
  intros p.
  pose proof (zero_pad_completes_codeblocks (fun nof_re => nof_re) (H := ts38212)
    fresh_processor [zero_block 3001]
    (sample_pdu 17921 1 3001 [CodewordDescription QAM64 0]) p
    ltac:(vm_compute; reflexivity) ltac:(vm_compute; congruence))
    as (_ & _ & _ & Hfill & _).
  split; [vm_compute; reflexivity|].
  vm_compute in Hfill. vm_compute. exact Hfill.
Defined.

Lemma info_bits_tile_transport_block_witness :
  sumZ ((fun i => cb_info_size (make_cb_config sample_processor i)) <$> seqZ 0 3) = 24000.
Proof.
  exact (proj2 (info_bits_tile_transport_block (fun nof_re => nof_re) (H := ts38212)
    fresh_processor [zero_block 3000]
    (sample_pdu 17921 1 3001 [CodewordDescription QAM64 0]) sample_processor
    ltac:(vm_compute; reflexivity) ltac:(vm_compute; congruence)
    ltac:(vm_compute; split; congruence))).
Defined.


(** In the sample run the release splits the log: the three codeblocks are
    mapped before it and none is touched after it. *)
Lemma release_follows_all_codeblocks_witness :
  exists l1 l2,
    log (st_mem sample_final) = l1 ++ EvRelease :: l2
    /\ count_ev is_release l1 = 0 /\ count_ev is_release l2 = 0
    /\ count_ev is_cb_work l1 = 0
    /\ forall i, 0 <= i < nof_cb sample_processor -> count_ev (is_mapped i) l2 = 1.
Proof.
  destruct (release_follows_all_codeblocks sample_processor 2
              ltac:(vm_compute; reflexivity) ltac:(vm_compute; reflexivity)
              ltac:(vm_compute; reflexivity)
              sample_final sample_final_reachable) as [Hz|Hsplit].
  - vm_compute in Hz. discriminate Hz.
  - exact Hsplit.
Defined.

(** The sample run ends with the counters at 0, 0 and 3 + 2. *)
Lemma counters_stay_in_range_witness :
  async_task_counter (st_mem sample_final) = 0
  /\ cb_task_counter (st_mem sample_final) = 0
  /\ cb_counter (st_mem sample_final) = nof_cb sample_processor + nof_cb_tasks sample_processor 2.
Proof.
  exact (proj2 (proj2 (proj2 (counters_stay_in_range sample_processor 2
           ltac:(vm_compute; reflexivity) ltac:(vm_compute; reflexivity)
           ltac:(vm_compute; reflexivity)
           sample_final sample_final_reachable))) ltac:(vm_compute; reflexivity)).
Defined.

Lemma executor_load_is_bounded_witness :
  (exists np nd nw : nat,
     holds_bodies (enqueued_bodies np nd nw) (pool sample_final)
     /\ Z.of_nat np <= 0 /\ (nd <= 1)%nat /\ Z.of_nat nw <= 2)
  /\ Z.of_nat (length (pool sample_final)) <= 0 + 1 + 2
  /\ (Z.min 2 (nof_cb sample_processor) <= 1 ->
      forall pc, pc ∈ pool sample_final ->
                 body_point KPtrs pc = true \/ body_point KDmrs pc = true).
Proof.
  exact (executor_load_is_bounded sample_processor 2
           ltac:(vm_compute; reflexivity) ltac:(vm_compute; reflexivity)
           ltac:(vm_compute; reflexivity)
           sample_final sample_final_reachable).
Defined.


(** The sample transmission with every task rejected: three codeblocks,
    two workers, all on the caller's thread. *)
Lemma rejected_tasks_run_in_sequence_witness :
  exists fuel,
    let s := rejecting_run sample_processor 2 fuel (init_state 7 8 9) in
    final s = true /\ pool s = []
    /\ reverse (log (st_mem s)) = sequential_log sample_processor 2
    /\ reachable sample_processor 2 s
    /\ forall more, rejecting_run sample_processor 2 (fuel + more) (init_state 7 8 9) = s.
Proof.
  exact (rejected_tasks_run_in_sequence sample_processor 2
           ltac:(vm_compute; reflexivity) ltac:(vm_compute; reflexivity)
           ltac:(vm_compute; reflexivity) 7 8 9).
Defined.


End Pdsch.

(** ** CU-CP UE manager *)

Module UeManager.

(** The identifier types and their reserved values come from headers
    outside the sources; the manager is modelled over them. *)
Class ue_params := UeParams {
  ue_index_invalid : Z;
  INVALID_PCI : Z;
  INVALID_RNTI : Z;
  gnb_du_id_invalid : Z;
  generate_ue_index : Z -> Z -> Z;
  max_nof_supported_ues : Z
}.

(** [cu_cp_ue]: the fields read or written by the manager. *)
Record cu_cp_ue := CuCpUe {
  ue_index : Z;
  du_index : Z;
  du_id : Z;
  pci : Z;
  c_rnti : Z
}.

(** [ue_manager]: the UE database and the (PCI, C-RNTI) lookup. *)
Record ue_manager := UeMgr {
  ues : gmap Z cu_cp_ue;
  pci_rnti_to_ue_index : gmap (Z * Z) Z
}.

Definition empty_manager : ue_manager :=
  {| ues := ∅; pci_rnti_to_ue_index := ∅ |}.

(** [std::map::emplace]: inserts unless the key is present. *)
Definition emplace `{Countable K} {V : Type} (k : K) (v : V) (m : gmap K V) : gmap K V :=
  match m !! k with Some _ => m | None => <[k := v]> m end.

(** [srsran_assert]: the call goes on when the condition holds and stops
    the program ([None]) when it does not. *)
Definition srsran_assert {A : Type} (condition : bool) (rest : option A) : option A :=
  if condition then rest else None.

Section Manager.

Context `{ue_params}.

(** Modelled from the spec: the constructor of [cu_cp_ue] is declared in a
    header outside the sources; a new UE record has no gNB-DU id, PCI or
    C-RNTI yet. *)
Definition new_cu_cp_ue (index du : Z) : cu_cp_ue :=
  {| ue_index := index; du_index := du; du_id := gnb_du_id_invalid;
     pci := INVALID_PCI; c_rnti := INVALID_RNTI |}.

(** Modelled from the spec: [cu_cp_ue::update_du_ue] is declared in a header
    outside the sources; it sets the gNB-DU id, PCI and C-RNTI that are
    given as valid values. *)
Definition update_du_ue (du_id_ pci_ c_rnti_ : Z) (ue : cu_cp_ue) : cu_cp_ue :=
  {| ue_index := ue_index ue; du_index := du_index ue;
     du_id := if bool_decide (du_id_ = gnb_du_id_invalid) then du_id ue else du_id_;
     pci := if bool_decide (pci_ = INVALID_PCI) then pci ue else pci_;
     c_rnti := if bool_decide (c_rnti_ = INVALID_RNTI) then c_rnti ue else c_rnti_ |}.

(** [allocate_ue_index]: the first [i] below [max_nof_supported_ues] whose
    generated index is free (the loop counter is 16 bits wide, so the
    configured maximum is taken to be below [2^16]). *)
Definition allocate_ue_index (du : Z) (st : ue_manager) : Z :=
  match list_find (fun i => ues st !! generate_ue_index du i = None)
          (seqZ 0 max_nof_supported_ues) with
  | Some (_, i) => generate_ue_index du i
  | None => ue_index_invalid
  end.

Definition add_ue (du : Z) (st : ue_manager) : Z * ue_manager :=
  if bool_decide (Z.of_nat (size (ues st)) = max_nof_supported_ues)
  then (ue_index_invalid, st)
  else
    let new_ue_index := allocate_ue_index du st in
    if bool_decide (new_ue_index = ue_index_invalid)
    then (ue_index_invalid, st)
    else
      (new_ue_index,
       {| ues := emplace new_ue_index (new_cu_cp_ue new_ue_index du) (ues st);
          pci_rnti_to_ue_index := pci_rnti_to_ue_index st |}).

Definition remove_ue (index : Z) (st : ue_manager) : ue_manager :=
  if bool_decide (index = ue_index_invalid) then st
  else
    match ues st !! index with
    | None => st
    | Some ue =>
        let lookup' :=
          if bool_decide (pci ue = INVALID_PCI) then pci_rnti_to_ue_index st
          else if bool_decide (c_rnti ue = INVALID_RNTI) then pci_rnti_to_ue_index st
          else delete (pci ue, c_rnti ue) (pci_rnti_to_ue_index st) in
        {| ues := delete index (ues st); pci_rnti_to_ue_index := lookup' |}
    end.

Definition get_ue_index (pci_ rnti : Z) (st : ue_manager) : Z :=
  match pci_rnti_to_ue_index st !! (pci_, rnti) with
  | Some index => index
  | None => ue_index_invalid
  end.

Definition find_ue (index : Z) (st : ue_manager) : option cu_cp_ue := ues st !! index.

(** What the three assertions at the head of [set_ue_du_context] require. *)
Definition set_ue_du_context_pre (index pci_ rnti : Z) : Prop :=
  index <> ue_index_invalid /\ pci_ <> INVALID_PCI /\ rnti <> INVALID_RNTI.

(** [set_ue_du_context]: [None] when one of the three assertions at its
    head fails; otherwise the UE returned ([None] for [nullptr]) and the
    manager afterwards. *)
Definition set_ue_du_context (index du_id_ pci_ rnti : Z) (st : ue_manager)
  : option (option cu_cp_ue * ue_manager) :=
  srsran_assert (bool_decide (index <> ue_index_invalid)) $
  srsran_assert (bool_decide (pci_ <> INVALID_PCI)) $
  srsran_assert (bool_decide (rnti <> INVALID_RNTI)) $
  Some
    match ues st !! index with
    | None => (None, st)
    | Some ue =>
        if bool_decide (get_ue_index pci_ rnti st = ue_index_invalid)
        then
          let ue' := update_du_ue du_id_ pci_ rnti ue in
          (Some ue',
           {| ues := <[index := ue']> (ues st);
              pci_rnti_to_ue_index :=
                emplace (pci_, rnti) index (pci_rnti_to_ue_index st) |})
        else (None, st)
    end.

(** [get_nof_du_ues]: the number of UEs attached through DU [du]. *)
Definition get_nof_du_ues (du : Z) (st : ue_manager) : Z :=
  Z.of_nat (length (filter (fun kv => du_index kv.2 = du) (map_to_list (ues st)))).


(** The managers the CU-CP can reach from an empty one; a call of
    [set_ue_du_context] that stops on an assertion reaches none. *)
Inductive reachable : ue_manager -> Prop :=
| reach_empty : reachable empty_manager
| reach_add du st : reachable st -> reachable (add_ue du st).2
| reach_remove index st : reachable st -> reachable (remove_ue index st)
| reach_set index du_id_ pci_ rnti st res st' :
    reachable st -> set_ue_du_context index du_id_ pci_ rnti st = Some (res, st') ->
    reachable st'.

(** Every live UE with a PCI and a C-RNTI is found under that pair, and the
    lookup never holds the invalid index. *)
Record lookup_inv (st : ue_manager) : Prop := LookupInv {
  inv_found :
    forall index ue,
      ues st !! index = Some ue -> pci ue <> INVALID_PCI -> c_rnti ue <> INVALID_RNTI ->
      pci_rnti_to_ue_index st !! (pci ue, c_rnti ue) = Some index;
  inv_valid :
    forall key index, pci_rnti_to_ue_index st !! key = Some index -> index <> ue_index_invalid
}.

End Manager.

(** Sample identifier values: 1024 UE indices per DU, PCI above 1007 and
    RNTI 0 reserved as invalid, at most 8192 UEs. *)
Definition sample_params : ue_params :=
  {| ue_index_invalid := 65535; INVALID_PCI := 1008; INVALID_RNTI := 0;
     gnb_du_id_invalid := 2 ^ 36;
     generate_ue_index := fun du i => du * 1024 + i;
     max_nof_supported_ues := 8192 |}.

(** One UE attached on DU 0 with PCI 1 and C-RNTI 0x4601. *)
Definition sample_manager : ue_manager :=
  default empty_manager
    (snd <$> set_ue_du_context (H := sample_params) 0 85 1 17921
               (add_ue (H := sample_params) 0 empty_manager).2).

(** The same UE after a second [set_ue_du_context], with PCI 2 and C-RNTI
    0x4602. *)
Definition sample_manager_twice : ue_manager :=
  default sample_manager
    (snd <$> set_ue_du_context (H := sample_params) 0 85 2 17922 sample_manager).

Section ManagerFacts.

Context `{ue_params}.

Lemma lookup_inv_empty : lookup_inv empty_manager.
Proof. split; simpl; intros *; by rewrite lookup_empty. Qed.

Lemma lookup_inv_add du st : lookup_inv st -> lookup_inv (add_ue du st).2.
Proof.
  intros [Hf Hv]. unfold add_ue. repeat case_bool_decide; simpl; try done.
  split; simpl; [|done]. intros index ue. unfold emplace.
  destruct (ues st !! allocate_ue_index du st) eqn:Hl; [apply Hf|].
  destruct (decide (index = allocate_ue_index du st)) as [->|Hne].
  - rewrite lookup_insert_eq. intros [= <-]. simpl. done.
  - rewrite lookup_insert_ne by done. apply Hf.
Qed.

Lemma lookup_inv_remove index st : lookup_inv st -> lookup_inv (remove_ue index st).
Proof.
  intros [Hf Hv]. unfold remove_ue. case_bool_decide; [done|].
  destruct (ues st !! index) as [ue0|] eqn:Hue; [|done].
  split; simpl.
  - intros j ue Hj Hp Hr.
    destruct (decide (j = index)) as [->|Hne]; [by rewrite lookup_delete_eq in Hj|].
    rewrite lookup_delete_ne in Hj by done.
    pose proof (Hf _ _ Hj Hp Hr) as Hlk.
    repeat case_bool_decide; try done.
    rewrite lookup_delete_ne; [done|]. intros Heq.
    rewrite <- Heq in Hlk. rewrite (Hf _ _ Hue) in Hlk by done. congruence.
  - intros key j. repeat case_bool_decide; try apply Hv.
    intros Hk. apply lookup_delete_Some in Hk as [_ Hk]. by eapply Hv.
Qed.

Lemma get_ue_index_invalid pci_ rnti st :
  lookup_inv st -> get_ue_index pci_ rnti st = ue_index_invalid ->
  pci_rnti_to_ue_index st !! (pci_, rnti) = None.
Proof.
  intros [_ Hv]. unfold get_ue_index.
  destruct (pci_rnti_to_ue_index st !! (pci_, rnti)) as [j|] eqn:Hl; [|done].
  intros ->. by apply Hv in Hl.
Qed.

(** Within its assertions [set_ue_du_context] returns, and only then. *)
Lemma set_ue_du_context_returns index du_id_ pci_ rnti st :
  set_ue_du_context_pre index pci_ rnti ->
  set_ue_du_context index du_id_ pci_ rnti st
  = Some
      match ues st !! index with
      | None => (None, st)
      | Some ue =>
          if bool_decide (get_ue_index pci_ rnti st = ue_index_invalid)
          then
            (Some (update_du_ue du_id_ pci_ rnti ue),
             {| ues := <[index := update_du_ue du_id_ pci_ rnti ue]> (ues st);
                pci_rnti_to_ue_index :=
                  emplace (pci_, rnti) index (pci_rnti_to_ue_index st) |})
          else (None, st)
      end.
Proof.
  intros (Hi & Hp & Hr). unfold set_ue_du_context, srsran_assert.
  rewrite (bool_decide_eq_true_2 (index <> ue_index_invalid)) by done.
  rewrite (bool_decide_eq_true_2 (pci_ <> INVALID_PCI)) by done.
  by rewrite (bool_decide_eq_true_2 (rnti <> INVALID_RNTI)) by done.
Qed.

Lemma set_ue_du_context_asserts index du_id_ pci_ rnti st :
  is_Some (set_ue_du_context index du_id_ pci_ rnti st)
  <-> set_ue_du_context_pre index pci_ rnti.
Proof.
  split.
  - unfold set_ue_du_context, srsran_assert, set_ue_du_context_pre.
    repeat case_bool_decide; try done; by intros [? ?].
  - intros Hpre. rewrite set_ue_du_context_returns by done. by eexists.
Qed.

Lemma lookup_inv_set index du_id_ pci_ rnti st res st' :
  lookup_inv st -> set_ue_du_context index du_id_ pci_ rnti st = Some (res, st') ->
  lookup_inv st'.
Proof.
  intros Hinv Hset.
  assert (set_ue_du_context_pre index pci_ rnti) as Hpre
    by (apply (set_ue_du_context_asserts index du_id_ pci_ rnti st); by eexists).
  rewrite set_ue_du_context_returns in Hset by done. injection Hset as Hset.
  destruct Hpre as (Hi & Hp & Hr). pose proof Hinv as [Hf Hv].
  destruct (ues st !! index) as [ue0|] eqn:Hue; [|by injection Hset as _ <-].
  case_bool_decide as Hfree; [|by injection Hset as _ <-].
  injection Hset as _ <-.
  apply get_ue_index_invalid in Hfree; [|done].
  unfold emplace. rewrite Hfree.
  split; simpl.
  - intros j ue Hj Hpv Hrv.
    destruct (decide (j = index)) as [->|Hne].
    + rewrite lookup_insert_eq in Hj. injection Hj as <-. simpl.
      rewrite !bool_decide_eq_false_2 by done. apply lookup_insert_eq.
    + rewrite lookup_insert_ne in Hj by done.
      pose proof (Hf _ _ Hj Hpv Hrv) as Hlk.
      rewrite lookup_insert_ne; [done|]. intros Heq. rewrite <- Heq in Hlk. congruence.
  - intros key j Hk. apply lookup_insert_Some in Hk as [[_ <-]|[_ Hk]]; [done|].
    by eapply Hv.
Qed.

Lemma lookup_inv_reachable st : reachable st -> lookup_inv st.
Proof.
  induction 1;
    [apply lookup_inv_empty|by apply lookup_inv_add|by apply lookup_inv_remove
    |by eapply lookup_inv_set].
Qed.

(** C8.  In every reachable manager: the (PCI, C-RNTI) that the record of
    a live UE holds is resolved by [get_ue_index] to the index of that UE,
    so the record found at the returned index holds the same pair, and no
    two live UEs hold the same pair; a successful [set_ue_du_context]
    installs this round trip for the pair it is given; and
    [set_ue_du_context] refuses a pair that [get_ue_index] already
    resolves, leaving the manager as it was.  The round trip starts from
    the record: a pair that a later [set_ue_du_context] on the same UE has
    replaced is not erased and keeps resolving to the UE, whose record
    holds the later pair. *)
Theorem pci_rnti_round_trip st :
  reachable st ->
  (forall index ue,
     ues st !! index = Some ue -> pci ue <> INVALID_PCI -> c_rnti ue <> INVALID_RNTI ->
     get_ue_index (pci ue) (c_rnti ue) st = index
     /\ find_ue (get_ue_index (pci ue) (c_rnti ue) st) st = Some ue)
  /\ (forall i j ue ue',
        ues st !! i = Some ue -> ues st !! j = Some ue' ->
        pci ue <> INVALID_PCI -> c_rnti ue <> INVALID_RNTI ->
        pci ue' = pci ue -> c_rnti ue' = c_rnti ue -> i = j)
  /\ (forall index du_id_ pci_ rnti ue st',
        set_ue_du_context index du_id_ pci_ rnti st = Some (Some ue, st') ->
        get_ue_index pci_ rnti st' = index
        /\ find_ue index st' = Some ue /\ pci ue = pci_ /\ c_rnti ue = rnti)
  /\ (forall index du_id_ pci_ rnti,
        set_ue_du_context_pre index pci_ rnti ->
        get_ue_index pci_ rnti st <> ue_index_invalid ->
        set_ue_du_context index du_id_ pci_ rnti st = Some (None, st))
  /\ (forall index d1 p1 r1 ue1 st1 d2 p2 r2 ue2 st2,
        set_ue_du_context index d1 p1 r1 st = Some (Some ue1, st1) ->
        set_ue_du_context index d2 p2 r2 st1 = Some (Some ue2, st2) ->
        (p1, r1) <> (p2, r2)
        /\ get_ue_index p1 r1 st2 = index
        /\ find_ue (get_ue_index p1 r1 st2) st2 = Some ue2
        /\ pci ue2 = p2 /\ c_rnti ue2 = r2).
Proof.
  intros Hreach. pose proof (lookup_inv_reachable _ Hreach) as Hinv.
  pose proof Hinv as [Hf Hv].
  assert (forall index ue,
            ues st !! index = Some ue -> pci ue <> INVALID_PCI ->
            c_rnti ue <> INVALID_RNTI ->
            get_ue_index (pci ue) (c_rnti ue) st = index) as Hget.
  { intros index ue Hue Hp Hr. unfold get_ue_index. by rewrite (Hf _ _ Hue Hp Hr). }
  split; [|split; [|split; [|split]]].
  - intros index ue Hue Hp Hr. split; [by apply Hget|].
    unfold find_ue. by rewrite (Hget _ _ Hue Hp Hr).
  - intros i j ue ue' Hi Hj Hp Hr Hpe Hre.
    rewrite <- (Hget _ _ Hi Hp Hr).
    rewrite <- Hpe, <- Hre. apply Hget; [done|by rewrite Hpe|by rewrite Hre].
  - intros index du_id_ pci_ rnti ue st' Hset.
    assert (set_ue_du_context_pre index pci_ rnti) as Hpre
      by (apply (set_ue_du_context_asserts index du_id_ pci_ rnti st); by eexists).
    rewrite set_ue_du_context_returns in Hset by done. injection Hset as Hset.
    destruct Hpre as (Hi & Hp & Hr).
    destruct (ues st !! index) as [ue0|] eqn:Hue; [|done].
    case_bool_decide as Hfree; [|done].
    apply get_ue_index_invalid in Hfree; [|done].
    injection Hset as <- <-. unfold get_ue_index, find_ue, emplace. simpl.
    rewrite Hfree, !lookup_insert_eq, !bool_decide_eq_false_2 by done. done.
  - intros index du_id_ pci_ rnti Hpre Hgot.
    rewrite set_ue_du_context_returns by done.
    destruct (ues st !! index); [|done]. by rewrite bool_decide_eq_false_2.
  - intros index d1 p1 r1 ue1 st1 d2 p2 r2 ue2 st2 Hset1 Hset2.
    assert (set_ue_du_context_pre index p1 r1) as Hpre1
      by (apply (set_ue_du_context_asserts index d1 p1 r1 st); by eexists).
    assert (set_ue_du_context_pre index p2 r2) as Hpre2
      by (apply (set_ue_du_context_asserts index d2 p2 r2 st1); by eexists).
    rewrite set_ue_du_context_returns in Hset1 by done. injection Hset1 as Hset1.
    rewrite set_ue_du_context_returns in Hset2 by done. injection Hset2 as Hset2.
    destruct Hpre1 as (Hi & Hp1 & Hr1). destruct Hpre2 as (_ & Hp2 & Hr2).
    destruct (ues st !! index) as [ue0|] eqn:Hue; [|done].
    destruct (bool_decide_reflect (get_ue_index p1 r1 st = ue_index_invalid))
      as [Hfree1|]; [|done].
    apply get_ue_index_invalid in Hfree1; [|done].
    injection Hset1 as <- <-. simpl in Hset2.
    rewrite lookup_insert_eq in Hset2.
    case_bool_decide as Hfree2; [|done].
    injection Hset2 as <- <-.
    unfold get_ue_index, emplace in Hfree2. simpl in Hfree2. rewrite Hfree1 in Hfree2.
    assert ((p1, r1) <> (p2, r2)) as Hne.
    { intros Heq. rewrite <- Heq, lookup_insert_eq in Hfree2. done. }
    rewrite lookup_insert_ne in Hfree2 by done.
    split; [done|].
    assert (get_ue_index p1 r1
              {| ues := <[index := update_du_ue d2 p2 r2 (update_du_ue d1 p1 r1 ue0)]>
                          (<[index := update_du_ue d1 p1 r1 ue0]> (ues st));
                 pci_rnti_to_ue_index :=
                   emplace (p2, r2) index
                     (emplace (p1, r1) index (pci_rnti_to_ue_index st)) |} = index) as Hidx.
    { unfold get_ue_index, emplace. simpl. rewrite Hfree1.
      destruct (<[(p1, r1) := index]> (pci_rnti_to_ue_index st) !! (p2, r2)) eqn:Hl2.
      - by rewrite lookup_insert_eq.
      - rewrite lookup_insert_ne by done. by rewrite lookup_insert_eq. }
    split; [exact Hidx|]. rewrite Hidx. unfold find_ue. simpl.
    rewrite lookup_insert_eq. split; [done|].
    by rewrite !bool_decide_eq_false_2.
Qed.

(** ** Allocation, creation and removal *)

(** [allocate_ue_index] returns the index generated from the first counter
    value whose index is free; it returns the invalid index only when every
    generated index is taken. *)
Theorem allocate_ue_index_first_free du st :
  (allocate_ue_index du st = ue_index_invalid
   /\ forall i, 0 <= i < max_nof_supported_ues ->
                is_Some (ues st !! generate_ue_index du i))
  \/ exists i,
       0 <= i < max_nof_supported_ues
       /\ allocate_ue_index du st = generate_ue_index du i
       /\ ues st !! generate_ue_index du i = None
       /\ forall j, 0 <= j < i -> is_Some (ues st !! generate_ue_index du j).
Proof.
  unfold allocate_ue_index.
  destruct (list_find _ _) as [[k i]|] eqn:Hf.
  - right. apply list_find_Some in Hf as (Hk & Hfree & Hbefore).
    apply lookup_seqZ in Hk as [-> Hk].
    exists (0 + Z.of_nat k). split; [lia|]. split; [done|]. split; [done|].
    intros j Hj. specialize (Hbefore (Z.to_nat j) j).
    destruct (ues st !! generate_ue_index du j) eqn:Hl; [by eexists|].
    exfalso. apply Hbefore; [apply lookup_seqZ; lia|lia|done].
  - left. split; [done|]. apply list_find_None in Hf.
    intros i Hi. rewrite Forall_forall in Hf.
    specialize (Hf i). destruct (ues st !! generate_ue_index du i); [by eexists|].
    exfalso. apply Hf; [|done]. apply elem_of_seqZ. lia.
Qed.

Lemma allocate_ue_index_free du st :
  allocate_ue_index du st <> ue_index_invalid ->
  ues st !! allocate_ue_index du st = None.
Proof.
  destruct (allocate_ue_index_first_free du st) as [[Hi _]|(i & _ & -> & Hfree & _)]; done.
Qed.

(** [add_ue]: a failure leaves the manager as it was; a success creates
    the UE under an index that was free, raises the number of UEs by one
    and touches neither the other UEs nor the (PCI, C-RNTI) lookup.  It
    fails exactly when the maximum number of UEs is reached or no generated
    index is free. *)
Theorem add_ue_outcome du st :
  ((add_ue du st).1 = ue_index_invalid <->
   Z.of_nat (size (ues st)) = max_nof_supported_ues
   \/ allocate_ue_index du st = ue_index_invalid)
  /\ ((add_ue du st).1 = ue_index_invalid -> (add_ue du st).2 = st)
  /\ ((add_ue du st).1 <> ue_index_invalid ->
      let index := (add_ue du st).1 in
      let st' := (add_ue du st).2 in
      find_ue index st = None
      /\ find_ue index st' = Some (new_cu_cp_ue index du)
      /\ (forall j, j <> index -> find_ue j st' = find_ue j st)
      /\ pci_rnti_to_ue_index st' = pci_rnti_to_ue_index st
      /\ size (ues st') = S (size (ues st))).
Proof.
  unfold add_ue. case_bool_decide as Hfull; simpl.
  { split; [split; [by left|done]|]. split; done. }
  case_bool_decide as Hinv; simpl.
  { split; [split; [by right|done]|]. split; done. }
  split; [split; [done|by intros [?|?]]|]. split; [done|].
  intros _. pose proof (allocate_ue_index_free du st Hinv) as Hfree.
  unfold find_ue, emplace. simpl. rewrite Hfree.
  split; [done|]. split; [by rewrite lookup_insert_eq|].
  split; [by intros j Hj; rewrite lookup_insert_ne|].
  split; [done|]. by rewrite map_size_insert_None.
Qed.

(** The number of UEs never exceeds [max_nof_supported_ues]. *)
Theorem ue_count_never_exceeds_maximum st :
  0 <= max_nof_supported_ues ->
  reachable st -> Z.of_nat (size (ues st)) <= max_nof_supported_ues.
Proof.
  intros Hmax.
  induction 1 as [|du st Hr IH|index st Hr IH|index d pci_ rnti st res st' Hr IH Hset].
  - simpl. rewrite map_size_empty. lia.
  - destruct (decide ((add_ue du st).1 = ue_index_invalid)) as [Hi|Hi].
    + by rewrite (proj1 (proj2 (add_ue_outcome du st)) Hi).
    + destruct (proj2 (proj2 (add_ue_outcome du st)) Hi) as (_ & _ & _ & _ & ->).
      assert (Z.of_nat (size (ues st)) <> max_nof_supported_ues); [|lia].
      intros Hfull. apply Hi. apply (add_ue_outcome du st). by left.
  - unfold remove_ue. case_bool_decide; [done|].
    destruct (ues st !! index) eqn:Hl; [|done]. simpl.
    pose proof (map_size_delete_Some index (ues st) ltac:(by eexists)). lia.
  - assert (set_ue_du_context_pre index pci_ rnti) as Hpre
      by (apply (set_ue_du_context_asserts index d pci_ rnti st); by eexists).
    rewrite set_ue_du_context_returns in Hset by done. injection Hset as Hset.
    destruct (ues st !! index) eqn:Hl; [|by injection Hset as _ <-].
    case_bool_decide; injection Hset as _ <-; [|done]. simpl.
    by rewrite map_size_insert_Some by (by eexists).
Qed.

(** The database never holds a UE under the invalid index, and every UE
    record carries the index it is stored under. *)
Theorem ue_records_keep_their_index st :
  reachable st ->
  ues st !! ue_index_invalid = None
  /\ forall index ue, ues st !! index = Some ue -> ue_index ue = index.
Proof.
  induction 1 as [|du st Hr IH|index st Hr IH|index d pci_ rnti st res st' Hr IH Hset].
  - split; [done|]. by intros index ue.
  - destruct IH as [IHi IHr].
    unfold add_ue. repeat case_bool_decide; simpl; try done.
    unfold emplace. destruct (ues st !! allocate_ue_index du st) eqn:Hl; [done|].
    split; [by rewrite lookup_insert_ne|].
    intros index ue. destruct (decide (index = allocate_ue_index du st)) as [->|Hne].
    + rewrite lookup_insert_eq. by intros [= <-].
    + rewrite lookup_insert_ne by done. apply IHr.
  - destruct IH as [IHi IHr].
    unfold remove_ue. case_bool_decide; [done|].
    destruct (ues st !! index) eqn:Hl; [|done]. simpl.
    split; [by rewrite lookup_delete_ne|].
    intros j ue Hj. apply lookup_delete_Some in Hj as [_ Hj]. by apply IHr.
  - destruct IH as [IHi IHr].
    assert (set_ue_du_context_pre index pci_ rnti) as Hpre
      by (apply (set_ue_du_context_asserts index d pci_ rnti st); by eexists).
    rewrite set_ue_du_context_returns in Hset by done. injection Hset as Hset.
    destruct Hpre as (Hidx & _).
    destruct (ues st !! index) as [ue0|] eqn:Hl; [|by injection Hset as _ <-].
    case_bool_decide; injection Hset as _ <-; [|done]. simpl.
    split; [by rewrite lookup_insert_ne|].
    intros j ue. destruct (decide (j = index)) as [->|Hne].
    + rewrite lookup_insert_eq. intros [= <-]. simpl. by apply IHr.
    + rewrite lookup_insert_ne by done. apply IHr.
Qed.

(** [remove_ue]: the invalid index and an unknown index are no-ops; after
    the call the UE is gone and so is the (PCI, C-RNTI) it held, the other
    UEs are as before, and removing again changes nothing. *)
Theorem remove_ue_effect index st :
  reachable st ->
  (index = ue_index_invalid \/ find_ue index st = None -> remove_ue index st = st)
  /\ find_ue index (remove_ue index st) = None
  /\ (forall j, j <> index -> find_ue j (remove_ue index st) = find_ue j st)
  /\ (forall ue, find_ue index st = Some ue ->
        pci ue <> INVALID_PCI -> c_rnti ue <> INVALID_RNTI ->
        get_ue_index (pci ue) (c_rnti ue) (remove_ue index st) = ue_index_invalid)
  /\ remove_ue index (remove_ue index st) = remove_ue index st.
Proof.
  intros Hreach. destruct (ue_records_keep_their_index st Hreach) as [Hnone Hidx].
  pose proof (lookup_inv_reachable _ Hreach) as [Hf Hv].
  unfold find_ue.
  assert (ues (remove_ue index st) !! index = None) as Hgone.
  { unfold remove_ue. case_bool_decide as Hi; [by subst|].
    destruct (ues st !! index) eqn:Hl; [|done]. simpl. apply lookup_delete_eq. }
  split; [|split; [done|split; [|split]]].
  - unfold remove_ue. intros [->|Hl]; [by rewrite bool_decide_eq_true_2|].
    case_bool_decide; [done|]. by rewrite Hl.
  - intros j Hj. unfold remove_ue. case_bool_decide; [done|].
    destruct (ues st !! index) eqn:Hl; [|done]. simpl. by rewrite lookup_delete_ne.
  - intros ue Hue Hp Hr. unfold remove_ue, get_ue_index.
    case_bool_decide as Hi; [subst; congruence|]. rewrite Hue. simpl.
    rewrite !bool_decide_eq_false_2 by done. by rewrite lookup_delete_eq.
  - unfold remove_ue at 1. case_bool_decide; [done|]. by rewrite Hgone.
Qed.

(** Removing the UE that [add_ue] has just created gives back the manager
    as it was; so does the call after a failed [add_ue]. *)
Theorem add_then_remove_restores du st :
  remove_ue (add_ue du st).1 (add_ue du st).2 = st.
Proof.
  destruct (decide ((add_ue du st).1 = ue_index_invalid)) as [Hi|Hi].
  { rewrite (proj1 (proj2 (add_ue_outcome du st)) Hi), Hi.
    unfold remove_ue. by rewrite bool_decide_eq_true_2. }
  revert Hi. unfold add_ue. repeat case_bool_decide; simpl; try done. intros _.
  pose proof (allocate_ue_index_free du st ltac:(done)) as Hfree.
  unfold remove_ue, emplace. rewrite bool_decide_eq_false_2 by done. simpl.
  rewrite Hfree, lookup_insert_eq. simpl.
  rewrite bool_decide_eq_true_2 by done.
  rewrite delete_insert_id by done. by destruct st.
Qed.

(** [set_ue_du_context] returns exactly when its three assertions hold:
    the index, the PCI and the C-RNTI are not the invalid values.  When it
    returns it touches only the UE it is called for and the pair it is
    given: it gives no UE exactly when the UE is unknown or the pair
    already resolves, and then changes nothing; otherwise the UE keeps its
    index and its DU index, no UE is created or removed, the other UEs and
    the other lookup entries are as before. *)
Theorem set_ue_du_context_frame index du_id_ pci_ rnti st :
  (is_Some (set_ue_du_context index du_id_ pci_ rnti st)
   <-> index <> ue_index_invalid /\ pci_ <> INVALID_PCI /\ rnti <> INVALID_RNTI)
  /\ forall res st',
       set_ue_du_context index du_id_ pci_ rnti st = Some (res, st') ->
       (res = None <->
        find_ue index st = None \/ get_ue_index pci_ rnti st <> ue_index_invalid)
       /\ (res = None -> st' = st)
       /\ (forall ue', res = Some ue' ->
             exists ue,
               find_ue index st = Some ue
               /\ ue' = update_du_ue du_id_ pci_ rnti ue
               /\ ue_index ue' = ue_index ue /\ du_index ue' = du_index ue
               /\ find_ue index st' = Some ue'
               /\ (forall j, j <> index -> find_ue j st' = find_ue j st)
               /\ size (ues st') = size (ues st)
               /\ (forall key, key <> (pci_, rnti) ->
                     pci_rnti_to_ue_index st' !! key = pci_rnti_to_ue_index st !! key)).
Proof.
  split; [apply set_ue_du_context_asserts|].
  intros res st' Hset.
  assert (set_ue_du_context_pre index pci_ rnti) as Hpre
    by (apply (set_ue_du_context_asserts index du_id_ pci_ rnti st); by eexists).
  rewrite set_ue_du_context_returns in Hset by done. injection Hset as Hset.
  unfold find_ue.
  destruct (ues st !! index) as [ue|] eqn:Hue.
  2:{ injection Hset as <- <-. split; [split; [by left|done]|]. split; done. }
  case_bool_decide as Hfree; injection Hset as <- <-.
  - split; [split; [done|by intros [?|?]]|]. split; [done|].
    intros ue' [= <-]. exists ue. split; [done|]. split; [done|].
    split; [done|]. split; [done|]. simpl.
    split; [by rewrite lookup_insert_eq|].
    split; [by intros j Hj; rewrite lookup_insert_ne|].
    split; [by rewrite map_size_insert_Some by (by eexists)|].
    intros key Hkey. unfold emplace.
    destruct (pci_rnti_to_ue_index st !! (pci_, rnti)); [done|].
    by rewrite lookup_insert_ne.
  - split; [split; [by right|done]|]. split; done.
Qed.

(** A pair that a second [set_ue_du_context] has replaced stays in the
    lookup: once the UE is removed the old pair still resolves to the index
    of the removed UE, and [set_ue_du_context] refuses it for every UE
    index (it stops on the invalid index, as always). *)
Theorem replaced_pair_outlives_ue index du_id_ pci_ rnti st ue ue' st1 :
  reachable st ->
  find_ue index st = Some ue -> pci ue <> INVALID_PCI -> c_rnti ue <> INVALID_RNTI ->
  set_ue_du_context_pre index pci_ rnti ->
  set_ue_du_context index du_id_ pci_ rnti st = Some (Some ue', st1) ->
  let st2 := remove_ue index st1 in
  find_ue index st2 = None
  /\ get_ue_index (pci ue) (c_rnti ue) st2 = index
  /\ get_ue_index pci_ rnti st2 = ue_index_invalid
  /\ forall j d,
       set_ue_du_context j d (pci ue) (c_rnti ue) st2
       = if bool_decide (j = ue_index_invalid) then None else Some (None, st2).
Proof.
  intros Hreach Hue Hp Hr Hpre Hset st2.
  pose proof (lookup_inv_reachable _ Hreach) as Hinv. pose proof Hinv as [Hf Hv].
  unfold find_ue in Hue. pose proof (Hf _ _ Hue Hp Hr) as Hold.
  rewrite set_ue_du_context_returns in Hset by done. injection Hset as Hset.
  destruct Hpre as (Hidx & Hp2 & Hr2).
  rewrite Hue in Hset.
  case_bool_decide as Hfree; [|done].
  apply get_ue_index_invalid in Hfree; [|done].
  injection Hset as <- <-.
  assert ((pci ue, c_rnti ue) <> (pci_, rnti)) as Hne by (intros Heq; congruence).
  assert (pci_rnti_to_ue_index st2 !! (pci ue, c_rnti ue) = Some index
          /\ pci_rnti_to_ue_index st2 !! (pci_, rnti) = None
          /\ ues st2 !! index = None) as (H1 & H2 & H3).
  { unfold st2, remove_ue, emplace. rewrite bool_decide_eq_false_2 by done. simpl.
    rewrite lookup_insert_eq, Hfree. simpl.
    rewrite (bool_decide_eq_false_2 (pci_ = INVALID_PCI)) by done.
    rewrite (bool_decide_eq_false_2 (rnti = INVALID_RNTI)) by done.
    rewrite !bool_decide_eq_false_2 by done.
    rewrite lookup_delete_ne, lookup_insert_ne by done.
    by rewrite !lookup_delete_eq. }
  unfold find_ue, get_ue_index. rewrite H1, H2.
  split; [done|]. split; [done|]. split; [done|].
  intros j d. case_bool_decide as Hj.
  - unfold set_ue_du_context, srsran_assert. by rewrite bool_decide_eq_false_2 by tauto.
  - rewrite set_ue_du_context_returns by done. unfold get_ue_index. rewrite H1.
    destruct (ues st2 !! j); [|done]. by rewrite bool_decide_eq_false_2.
Qed.

Lemma get_nof_du_ues_insert_new (du index : Z) (ue : cu_cp_ue) (m : gmap Z cu_cp_ue)
    (lk : gmap (Z * Z) Z) :
  m !! index = None ->
  get_nof_du_ues du {| ues := <[index := ue]> m; pci_rnti_to_ue_index := lk |}
  = get_nof_du_ues du {| ues := m; pci_rnti_to_ue_index := lk |}
    + (if bool_decide (du_index ue = du) then 1 else 0).
Proof.
  intros Hnone. unfold get_nof_du_ues. simpl.
  rewrite (map_to_list_insert m index ue Hnone), filter_cons. simpl.
  case_bool_decide; case_decide; try done; simpl; lia.
Qed.

Lemma get_nof_du_ues_delete (du index : Z) (ue : cu_cp_ue) (m : gmap Z cu_cp_ue)
    (lk lk' : gmap (Z * Z) Z) :
  m !! index = Some ue ->
  get_nof_du_ues du {| ues := delete index m; pci_rnti_to_ue_index := lk |}
  = get_nof_du_ues du {| ues := m; pci_rnti_to_ue_index := lk' |}
    - (if bool_decide (du_index ue = du) then 1 else 0).
Proof.
  intros Hsome. unfold get_nof_du_ues. simpl.
  rewrite <- (map_to_list_delete m index ue Hsome), filter_cons. simpl.
  case_bool_decide; case_decide; try done; simpl; lia.
Qed.

Lemma add_ue_success du st :
  (add_ue du st).1 <> ue_index_invalid ->
  ues st !! allocate_ue_index du st = None
  /\ (add_ue du st).2
     = {| ues := <[allocate_ue_index du st := new_cu_cp_ue (allocate_ue_index du st) du]>
                   (ues st);
          pci_rnti_to_ue_index := pci_rnti_to_ue_index st |}.
Proof.
  unfold add_ue. repeat case_bool_decide; simpl; try done. intros _.
  pose proof (allocate_ue_index_free du st ltac:(done)) as Hfree.
  unfold emplace. by rewrite Hfree.
Qed.

(** [get_nof_du_ues] counts the UEs of a DU: none in an empty manager,
    never more than there are UEs; creating a UE on a DU adds one to that
    DU's count and removing it takes one off, the counts of the other DUs
    being unchanged; a [set_ue_du_context] that returns changes no count. *)
Theorem get_nof_du_ues_counts du st :
  get_nof_du_ues du empty_manager = 0
  /\ 0 <= get_nof_du_ues du st <= Z.of_nat (size (ues st))
  /\ (forall du', (add_ue du' st).1 <> ue_index_invalid ->
        get_nof_du_ues du (add_ue du' st).2
        = get_nof_du_ues du st + (if bool_decide (du' = du) then 1 else 0))
  /\ (forall index ue, index <> ue_index_invalid -> find_ue index st = Some ue ->
        get_nof_du_ues du (remove_ue index st)
        = get_nof_du_ues du st - (if bool_decide (du_index ue = du) then 1 else 0))
  /\ (forall index du_id_ pci_ rnti res st',
        set_ue_du_context index du_id_ pci_ rnti st = Some (res, st') ->
        get_nof_du_ues du st' = get_nof_du_ues du st).
Proof.
  split; [|split; [|split; [|split]]].
  - unfold get_nof_du_ues. simpl. by rewrite map_to_list_empty.
  - unfold get_nof_du_ues. split; [lia|].
    rewrite <- length_map_to_list. apply inj_le, length_filter.
  - intros du' Hi. destruct (add_ue_success du' st Hi) as [Hfree ->].
    by rewrite get_nof_du_ues_insert_new by done.
  - intros index ue Hi Hue. unfold find_ue in Hue.
    unfold remove_ue. rewrite bool_decide_eq_false_2 by done. rewrite Hue.
    rewrite (get_nof_du_ues_delete du index ue (ues st) _ (pci_rnti_to_ue_index st)) by done.
    by destruct st.
  - intros index d p r res st' Hset.
    assert (set_ue_du_context_pre index p r) as Hpre
      by (apply (set_ue_du_context_asserts index d p r st); by eexists).
    rewrite set_ue_du_context_returns in Hset by done. injection Hset as Hset.
    destruct (ues st !! index) as [ue|] eqn:Hue; [|by injection Hset as _ <-].
    case_bool_decide; injection Hset as _ <-; [|done]. simpl.
    rewrite <- (insert_delete_eq (ues st)).
    rewrite get_nof_du_ues_insert_new by apply lookup_delete_eq.
    rewrite (get_nof_du_ues_delete du index ue (ues st) _ (pci_rnti_to_ue_index st)) by done.
    simpl. destruct st; simpl. lia.
Qed.

End ManagerFacts.

Lemma sample_manager_reachable : reachable (H := sample_params) sample_manager.
Proof.
  apply (reach_set 0 85 1 17921 (add_ue (H := sample_params) 0 empty_manager).2
           (Some {| ue_index := 0; du_index := 0; du_id := 85; pci := 1; c_rnti := 17921 |}));
    [apply reach_add, reach_empty|].
  vm_compute. reflexivity.
Qed.

Lemma pci_rnti_round_trip_witness :
  get_ue_index (H := sample_params) 1 17921 sample_manager = 0
  /\ find_ue 0 sample_manager
     = Some {| ue_index := 0; du_index := 0; du_id := 85; pci := 1; c_rnti := 17921 |}.
Proof.
  pose proof (proj1 (pci_rnti_round_trip (H := sample_params) sample_manager
                       sample_manager_reachable) 0
                {| ue_index := 0; du_index := 0; du_id := 85; pci := 1; c_rnti := 17921 |}
                ltac:(vm_compute; reflexivity) ltac:(vm_compute; congruence)
                ltac:(vm_compute; congruence)) as [Hget Hfind].
  split; [exact Hget|]. rewrite Hget in Hfind. exact Hfind.
Defined.

(** The sample UE after its second [set_ue_du_context]: the first pair
    still resolves to the UE, and the record found at the index returned
    holds the second pair, not the one looked up. *)
Lemma pci_rnti_round_trip_counterexample :
  exists ue1 ue2,
    set_ue_du_context (H := sample_params) 0 85 1 17921
      (add_ue (H := sample_params) 0 empty_manager).2 = Some (Some ue1, sample_manager)
    /\ set_ue_du_context (H := sample_params) 0 85 2 17922 sample_manager
       = Some (Some ue2, sample_manager_twice)
    /\ reachable (H := sample_params) sample_manager_twice
    /\ get_ue_index (H := sample_params) 1 17921 sample_manager_twice = 0
    /\ find_ue (get_ue_index (H := sample_params) 1 17921 sample_manager_twice)
         sample_manager_twice = Some ue2
    /\ (pci ue2, c_rnti ue2) = (2, 17922)
    /\ (pci ue2, c_rnti ue2) <> (1, 17921).
Proof.
  eexists _, _. split; [vm_compute; reflexivity|].
  assert (set_ue_du_context (H := sample_params) 0 85 2 17922 sample_manager
          = Some (Some {| ue_index := 0; du_index := 0; du_id := 85; pci := 2;
                          c_rnti := 17922 |}, sample_manager_twice)) as Hset
    by (vm_compute; reflexivity).
  split; [exact Hset|].
  split; [exact (reach_set 0 85 2 17922 _ _ _ sample_manager_reachable Hset)|].
  vm_compute. repeat split; congruence.
Qed.

Lemma ue_count_never_exceeds_maximum_witness :
  Z.of_nat (size (ues sample_manager)) <= 8192.
Proof.
  exact (ue_count_never_exceeds_maximum (H := sample_params) sample_manager
           ltac:(vm_compute; congruence) sample_manager_reachable).
Defined.

Lemma ue_records_keep_their_index_witness :
  ues sample_manager !! 65535 = None
  /\ forall index ue, ues sample_manager !! index = Some ue -> ue_index ue = index.
Proof.
  exact (ue_records_keep_their_index (H := sample_params) sample_manager
           sample_manager_reachable).
Defined.

(** Removing the sample UE erases its pair from the lookup. *)
Lemma remove_ue_effect_witness :
  find_ue 0 (remove_ue (H := sample_params) 0 sample_manager) = None
  /\ get_ue_index (H := sample_params) 1 17921 (remove_ue (H := sample_params) 0 sample_manager)
     = 65535.
Proof.
  destruct (remove_ue_effect (H := sample_params) 0 sample_manager sample_manager_reachable)
    as (_ & Hgone & _ & Hpair & _).
  split; [exact Hgone|].
  exact (Hpair {| ue_index := 0; du_index := 0; du_id := 85; pci := 1; c_rnti := 17921 |}
           ltac:(vm_compute; reflexivity) ltac:(vm_compute; congruence)
           ltac:(vm_compute; congruence)).
Defined.

(** The sample UE moves from (1, 0x4601) to (2, 0x4602) and is removed:
    the first pair still resolves to index 0. *)
Lemma replaced_pair_outlives_ue_witness :
  let st2 := remove_ue (H := sample_params) 0 sample_manager_twice in
  find_ue 0 st2 = None
  /\ get_ue_index (H := sample_params) 1 17921 st2 = 0
  /\ get_ue_index (H := sample_params) 2 17922 st2 = 65535.
Proof.
  intros st2.
  destruct (replaced_pair_outlives_ue (H := sample_params) 0 85 2 17922 sample_manager
              {| ue_index := 0; du_index := 0; du_id := 85; pci := 1; c_rnti := 17921 |}
              {| ue_index := 0; du_index := 0; du_id := 85; pci := 2; c_rnti := 17922 |}
              sample_manager_twice
              sample_manager_reachable
              ltac:(vm_compute; reflexivity) ltac:(vm_compute; congruence)
              ltac:(vm_compute; congruence)
              ltac:(repeat split; vm_compute; congruence)
              ltac:(vm_compute; reflexivity))
    as (Hgone & Hold & Hnew & _).
  split; [exact Hgone|]. split; [exact Hold|exact Hnew].
Defined.


End UeManager.

(** ** CU-UP F1-U bearer: destruction *)

Module F1uBearer.

(** The data members of [f1u_bearer_impl], in declaration order. *)
Inductive member :=
| Logger | TxPduNotifier | RxDeliveryNotifier | RxSduNotifier | Disconnector
| UlTeid | DlNotifTimer | DiscardBlocks.

Definition members : list member :=
  [Logger; TxPduNotifier; RxDeliveryNotifier; RxSduNotifier; Disconnector;
   UlTeid; DlNotifTimer; DiscardBlocks].

(** [f1u_bearer_impl]: the state the destructor touches. *)
Record f1u_bearer_impl := Bearer {
  ul_teid : Z;
  dl_notif_timer : nat;
  discard_blocks : list Z
}.

(** What destroying an object does, in order. *)
Inductive effect :=
| Disconnect (teid : Z)
| Release (m : member).

(** A destructor runs its body, then destroys the data members in the
    reverse of their declaration order. *)
Definition run_destructor (body : list effect) (ms : list member) : list effect :=
  body ++ (Release <$> reverse ms).

(** [~f1u_bearer_impl() { disconnector.disconnect_cu_bearer(ul_teid); }] *)
Definition destroy (b : f1u_bearer_impl) : list effect :=
  run_destructor [Disconnect (ul_teid b)] members.

(** The CU-UP side the bearer lives in: the uplink TEIDs the demux
    resolves and the timers that are armed. *)
Record gateway := Gateway {
  demux : gset Z;
  armed_timers : gset nat
}.

(** [f1u_bearer_disconnector]. *)
Class f1u_bearer_disconnector := BearerDisconnector {
  disconnect_cu_bearer : Z -> gateway -> gateway
}.

(** Modelled from the spec: the disconnector's implementation is outside
    the sources; disconnecting a bearer deregisters its uplink TEID from
    the demux. *)
Definition demux_disconnector : f1u_bearer_disconnector :=
  {| disconnect_cu_bearer := fun teid g =>
       {| demux := demux g ∖ {[teid]}; armed_timers := armed_timers g |} |}.

Section Destruction.

Context `{f1u_bearer_disconnector}.

(** The effect of one destruction step on the CU-UP; destroying the
    [unique_timer] member stops the timer. *)
Definition apply_effect (b : f1u_bearer_impl) (g : gateway) (e : effect) : gateway :=
  match e with
  | Disconnect teid => disconnect_cu_bearer teid g
  | Release DlNotifTimer =>
      {| demux := demux g; armed_timers := armed_timers g ∖ {[dl_notif_timer b]} |}
  | Release _ => g
  end.

Definition destroy_in (b : f1u_bearer_impl) (g : gateway) : gateway :=
  foldl (apply_effect b) g (destroy b).

End Destruction.

Lemma run_destructor_body_first body ms pre post m :
  run_destructor body ms = pre ++ Release m :: post ->
  (forall e, e ∈ body -> exists teid, e = Disconnect teid) ->
  exists rest, pre = body ++ rest.
Proof.
  unfold run_destructor. revert pre.
  induction body as [|e body IH]; intros pre Heq Hb; [by exists pre|].
  destruct pre as [|e' pre].
  - simpl in Heq. injection Heq as -> _.
    destruct (Hb (Release m)) as [teid Ht]; [by left|done].
  - simpl in Heq. injection Heq as <- Heq.
    destruct (IH pre Heq) as [rest ->].
    + intros e0 He0. apply Hb. by right.
    + by exists rest.
Qed.

(** C9.  Destroying a bearer first calls [disconnect_cu_bearer] with the
    bearer's uplink TEID, before any member is released: the call heads the
    sequence of effects, every release, the timer's included, comes after it,
    and there is no other disconnection; with a disconnector that
    deregisters from the demux, the TEID is no longer resolved
    afterwards. *)
Theorem destroy_disconnects_first (b : f1u_bearer_impl) :
  (exists rest,
     destroy b = Disconnect (ul_teid b) :: rest
     /\ (forall teid, Disconnect teid ∉ rest)
     /\ (forall m, Release m ∈ rest))
  /\ (forall pre post m,
        destroy b = pre ++ Release m :: post -> Disconnect (ul_teid b) ∈ pre)
  /\ (forall g, ul_teid b ∉ demux (destroy_in (H := demux_disconnector) b g))
  /\ (forall g, dl_notif_timer b ∉ armed_timers (destroy_in (H := demux_disconnector) b g)).
Proof.
  split; [|split; [|split]].
  - eexists. split; [reflexivity|]. split.
    + intros teid Hin. simpl in Hin.
      repeat (apply elem_of_cons in Hin as [Hin|Hin]; [discriminate Hin|]).
      by apply elem_of_nil in Hin.
    + intros m. simpl. destruct m; set_solver.
  - intros pre post m Heq.
    apply run_destructor_body_first in Heq as [rest ->].
    + set_solver.
    + intros e He. apply list_elem_of_singleton in He as ->. by eexists.
  - intros g. unfold destroy_in. simpl. set_unfold. tauto.
  - intros g. unfold destroy_in. simpl. set_unfold. tauto.
Qed.

End F1uBearer.

(** ** CU-CP connectivity: F1 setup admission and UE attach *)

Module CuCp.

Import UeManager.

Inductive ng_state := NgDisconnected | NgConnecting | NgConnected | NgFailed.

Inductive ngap_pdu := NgSetupRequest | NgSetupResponse | NgSetupFailure | NgapOther.

Inductive srb_id_t := Srb0 | Srb1 | Srb2.

Inductive rrc_dl_ccch := RrcReject | RrcSetup.

(** The F1AP PDUs the CU-CP sends to a DU. *)
Inductive f1ap_pdu :=
| F1SetupResponse
| F1SetupFailure
| UeContextReleaseCommand (cu_ue_id du_ue_id : Z) (srb : option srb_id_t)
    (rrc_container : option rrc_dl_ccch)
| DlRrcMessageTransfer (cu_ue_id du_ue_id : Z) (srb : srb_id_t) (msg : rrc_dl_ccch).

(** A DU slot: [None] is the invalid gNB-DU id of a DU that has connected
    but not completed F1 setup. *)
Record du_slot := DuSlot {
  gnb_du_id : option Z;
  du_cells : list Z
}.

Definition anonymous_du : du_slot := {| gnb_du_id := None; du_cells := [] |}.

Record f1_setup_request := F1SetupRequest {
  req_gnb_du_id : Z;
  req_cells : list Z
}.

(** Modelled from the spec: the CU-CP, the DU and CU-UP repositories and
    the F1AP/NGAP handlers are outside the sources (only the connectivity
    test is there); the state below holds what Section 4.4 of the design
    names: the NG state, the local gNB-id, the DU and CU-UP slots, the caps,
    the UE manager, and the PDUs sent on NG and to each DU. *)
Record cu_cp := CuCpState {
  ng : ng_state;
  gnb_id : Z;
  gnb_id_bit_length : Z;
  max_nof_dus : nat;
  dus : gmap nat du_slot;
  cu_ups : gmap nat bool;
  ue_mng : ue_manager;
  ngap_tx : list ngap_pdu;
  f1ap_tx : gmap nat (list f1ap_pdu)
}.

Definition amf_is_connected (s : cu_cp) : bool :=
  match ng s with NgConnected => true | _ => false end.

(** Modelled from the spec: the gNB-id carried by a 36-bit NR cell
    identity is its leading [bit_length] bits. *)
Definition nci_gnb_id (bit_length nci : Z) : Z := Z.shiftr nci (36 - bit_length).

Definition set_ng (st : ng_state) (tx : list ngap_pdu) (s : cu_cp) : cu_cp :=
  {| ng := st; gnb_id := gnb_id s; gnb_id_bit_length := gnb_id_bit_length s;
     max_nof_dus := max_nof_dus s; dus := dus s; cu_ups := cu_ups s; ue_mng := ue_mng s;
     ngap_tx := tx; f1ap_tx := f1ap_tx s |}.

Definition set_dus (d : gmap nat du_slot) (s : cu_cp) : cu_cp :=
  {| ng := ng s; gnb_id := gnb_id s; gnb_id_bit_length := gnb_id_bit_length s;
     max_nof_dus := max_nof_dus s; dus := d; cu_ups := cu_ups s; ue_mng := ue_mng s;
     ngap_tx := ngap_tx s; f1ap_tx := f1ap_tx s |}.

Definition set_ue_mng (u : ue_manager) (s : cu_cp) : cu_cp :=
  {| ng := ng s; gnb_id := gnb_id s; gnb_id_bit_length := gnb_id_bit_length s;
     max_nof_dus := max_nof_dus s; dus := dus s; cu_ups := cu_ups s; ue_mng := u;
     ngap_tx := ngap_tx s; f1ap_tx := f1ap_tx s |}.

(** Sends a PDU to a DU. *)
Definition send_f1ap (du : nat) (pdu : f1ap_pdu) (s : cu_cp) : cu_cp :=
  {| ng := ng s; gnb_id := gnb_id s; gnb_id_bit_length := gnb_id_bit_length s;
     max_nof_dus := max_nof_dus s; dus := dus s; cu_ups := cu_ups s; ue_mng := ue_mng s;
     ngap_tx := ngap_tx s;
     f1ap_tx := <[du := default [] (f1ap_tx s !! du) ++ [pdu]]> (f1ap_tx s) |}.

Definition sent_to (du : nat) (s : cu_cp) : list f1ap_pdu := default [] (f1ap_tx s !! du).

(** Modelled from the spec: [start] sends NG Setup Request and waits for
    the AMF's answer ([None]: timeout). *)
Definition start (reply : option ngap_pdu) (s : cu_cp) : bool * cu_cp :=
  let tx := ngap_tx s ++ [NgSetupRequest] in
  match reply with
  | Some NgSetupResponse => (true, set_ng NgConnected tx s)
  | _ => (false, set_ng NgFailed tx s)
  end.

(** Modelled from the spec: a new TNL connection from a DU is refused once
    the cap is reached, otherwise it gets an anonymous slot at the first
    free index. *)
Definition connect_new_du (s : cu_cp) : option nat * cu_cp :=
  if bool_decide (size (dus s) < max_nof_dus s)%nat
  then
    let idx := fresh (dom (dus s)) in
    (Some idx, set_dus (<[idx := anonymous_du]> (dus s)) s)
  else (None, s).

(** Modelled from the spec: a closed connection frees its slot. *)
Definition drop_du_connection (du : nat) (s : cu_cp) : cu_cp :=
  set_dus (delete du (dus s)) s.

(** Modelled from the spec: another live DU already has this gNB-DU id. *)
Definition duplicate_du_id (du : nat) (id : Z) (s : cu_cp) : Prop :=
  exists j slot, j <> du /\ dus s !! j = Some slot /\ gnb_du_id slot = Some id.

Definition duplicate_du_idb (du : nat) (id : Z) (s : cu_cp) : bool :=
  existsb (fun js => bool_decide (js.1 <> du /\ gnb_du_id js.2 = Some id))
    (map_to_list (dus s)).

(** Modelled from the spec: some served cell carries a gNB-id other than
    the local one. *)
Definition gnb_id_mismatch (req : f1_setup_request) (s : cu_cp) : Prop :=
  exists nci, nci ∈ req_cells req /\ nci_gnb_id (gnb_id_bit_length s) nci <> gnb_id s.

Definition gnb_id_mismatchb (req : f1_setup_request) (s : cu_cp) : bool :=
  existsb (fun nci => bool_decide (nci_gnb_id (gnb_id_bit_length s) nci <> gnb_id s))
    (req_cells req).

(** Modelled from the spec: F1 Setup admission. *)
Definition handle_f1_setup_request (du : nat) (req : f1_setup_request) (s : cu_cp)
  : cu_cp :=
  if negb (amf_is_connected s) then send_f1ap du F1SetupFailure s
  else if duplicate_du_idb du (req_gnb_du_id req) s then send_f1ap du F1SetupFailure s
  else if gnb_id_mismatchb req s then send_f1ap du F1SetupFailure s
  else
    send_f1ap du F1SetupResponse
      (set_dus
         (<[du := {| gnb_du_id := Some (req_gnb_du_id req); du_cells := req_cells req |}]>
            (dus s)) s).

(** Modelled from the spec: a CU-UP that has completed E1 setup is
    available. *)
Definition cu_up_available (s : cu_cp) : bool :=
  existsb snd (map_to_list (cu_ups s)).

Section Attach.

Context `{ue_params}.

(** Modelled from the spec: UE attach on an F1AP Initial UL RRC Message
    from DU [du] for (PCI, C-RNTI): the message is dropped when the pair is already known or
    no UE can be created; the CU-side F1AP id of the new UE is its index.
    The result is [None] when [set_ue_du_context] stops on one of its
    assertions. *)
Definition handle_initial_ul_rrc_message (du : nat) (du_ue_id pci_ crnti : Z) (s : cu_cp)
  : option cu_cp :=
  if bool_decide (get_ue_index pci_ crnti (ue_mng s) <> ue_index_invalid) then Some s
  else
    let '(index, um) := add_ue (Z.of_nat du) (ue_mng s) in
    if bool_decide (index = ue_index_invalid) then Some s
    else
      match set_ue_du_context index (default gnb_du_id_invalid (dus s !! du ≫= gnb_du_id))
              pci_ crnti um with
      | None => None
      | Some (None, _) => Some s
      | Some (Some _, um') =>
          let s' := set_ue_mng um' s in
          if cu_up_available s
          then Some (send_f1ap du (DlRrcMessageTransfer index du_ue_id Srb0 RrcSetup) s')
          else Some (send_f1ap du (UeContextReleaseCommand index du_ue_id (Some Srb0)
                                     (Some RrcReject)) s')
      end.

(** Modelled from the spec: on F1AP UE Context Release Complete the UE is
    removed. *)
Definition handle_ue_context_release_complete (cu_ue_id : Z) (s : cu_cp) : cu_cp :=
  set_ue_mng (remove_ue cu_ue_id (ue_mng s)) s.

(** The UEs reported by the metrics handler. *)
Definition nof_ues (s : cu_cp) : nat := size (ues (ue_mng s)).

End Attach.

(** A CU-CP with gNB-id 411 on 22 bits and room for 8 DUs, before NG setup. *)
Definition sample_cu_cp : cu_cp :=
  {| ng := NgDisconnected; gnb_id := 411; gnb_id_bit_length := 22; max_nof_dus := 8;
     dus := ∅; cu_ups := ∅; ue_mng := empty_manager; ngap_tx := []; f1ap_tx := ∅ |}.

(** NG set up, then two DUs connected over TNL (slots 0 and 1). *)
Definition sample_two_dus : cu_cp :=
  (connect_new_du (connect_new_du (start (Some NgSetupResponse) sample_cu_cp).2).2).2.

(** A request with gNB-DU id 0x55 and one cell of the local gNB. *)
Definition sample_request : f1_setup_request :=
  {| req_gnb_du_id := 85; req_cells := [Z.shiftl 411 14] |}.

(** DU 0 has completed F1 setup as gNB-DU 0x55. *)
Definition sample_first_du_up : cu_cp :=
  handle_f1_setup_request 0 sample_request sample_two_dus.

Lemma duplicate_du_idb_spec du id s :
  duplicate_du_idb du id s = true <-> duplicate_du_id du id s.
Proof.
  unfold duplicate_du_idb, duplicate_du_id. rewrite existsb_exists. split.
  - intros ([j slot] & Hin & Hb). apply bool_decide_eq_true_1 in Hb as [Hne Hid].
    exists j, slot. split; [done|]. split; [|done].
    apply elem_of_map_to_list. by apply list_elem_of_In.
  - intros (j & slot & Hne & Hl & Hid). exists (j, slot). split.
    + apply list_elem_of_In. by apply elem_of_map_to_list.
    + by apply bool_decide_eq_true_2.
Qed.

Lemma gnb_id_mismatchb_spec req s :
  gnb_id_mismatchb req s = true <-> gnb_id_mismatch req s.
Proof.
  unfold gnb_id_mismatchb, gnb_id_mismatch. rewrite existsb_exists. split.
  - intros (nci & Hin & Hb). exists nci. split; [by apply list_elem_of_In|].
    by apply bool_decide_eq_true_1 in Hb.
  - intros (nci & Hin & Hne). exists nci. split; [by apply list_elem_of_In|].
    by apply bool_decide_eq_true_2.
Qed.

Lemma sent_to_send_f1ap du pdu s : sent_to du (send_f1ap du pdu s) = sent_to du s ++ [pdu].
Proof. unfold sent_to, send_f1ap. simpl. by rewrite lookup_insert_eq. Qed.

Lemma sent_to_set_ue_mng du um s : sent_to du (set_ue_mng um s) = sent_to du s.
Proof. done. Qed.

(** C6.  An F1 Setup Request on a DU slot that is not bound yet: when NG is
    not connected, or another live DU has the same gNB-DU id, or a served
    cell carries another gNB-id, the CU-CP answers F1 Setup Failure, the
    slot stays unbound and nothing else changes; otherwise it answers F1
    Setup Response and binds the slot to the gNB-DU id and cells of the
    request.  Nothing is sent on NG either way. *)
Theorem f1_setup_admission du req s slot :
  dus s !! du = Some slot -> gnb_du_id slot = None ->
  let s' := handle_f1_setup_request du req s in
  (amf_is_connected s = false \/ duplicate_du_id du (req_gnb_du_id req) s
   \/ gnb_id_mismatch req s ->
   sent_to du s' = sent_to du s ++ [F1SetupFailure]
   /\ dus s' = dus s /\ (dus s' !! du ≫= gnb_du_id) = None /\ ue_mng s' = ue_mng s)
  /\ (amf_is_connected s = true -> ~ duplicate_du_id du (req_gnb_du_id req) s ->
      ~ gnb_id_mismatch req s ->
      sent_to du s' = sent_to du s ++ [F1SetupResponse]
      /\ dus s' !! du
         = Some {| gnb_du_id := Some (req_gnb_du_id req); du_cells := req_cells req |}
      /\ (forall j, j <> du -> dus s' !! j = dus s !! j))
  /\ ngap_tx s' = ngap_tx s.
Proof.
  intros Hslot Hunbound s'. subst s'. unfold handle_f1_setup_request.
  destruct (amf_is_connected s) eqn:Hng; simpl.
  - destruct (duplicate_du_idb du (req_gnb_du_id req) s) eqn:Hdup.
    + apply duplicate_du_idb_spec in Hdup.
      split; [|split; [done|done]].
      intros _. rewrite sent_to_send_f1ap. simpl. by rewrite Hslot.
    + assert (~ duplicate_du_id du (req_gnb_du_id req) s) as Hnd
        by (rewrite <- duplicate_du_idb_spec; congruence).
      destruct (gnb_id_mismatchb req s) eqn:Hmis.
      * apply gnb_id_mismatchb_spec in Hmis.
        split; [|split; [done|done]].
        intros _. rewrite sent_to_send_f1ap. simpl. by rewrite Hslot.
      * assert (~ gnb_id_mismatch req s) as Hnm
          by (rewrite <- gnb_id_mismatchb_spec; congruence).
        split; [intros [?|[?|?]]; done|]. split; [|done].
        intros _ _ _. rewrite sent_to_send_f1ap. simpl.
        split; [done|]. split; [by rewrite lookup_insert_eq|].
        intros j Hj. by rewrite lookup_insert_ne.
  - split; [|split; [done|done]].
    intros _. rewrite sent_to_send_f1ap. simpl. by rewrite Hslot.
Qed.

Section AttachFacts.

Context `{ue_params}.

Lemma add_ue_creates du um index um' :
  add_ue du um = (index, um') -> index <> ue_index_invalid ->
  is_Some (ues um' !! index) /\ pci_rnti_to_ue_index um' = pci_rnti_to_ue_index um.
Proof.
  unfold add_ue. repeat case_bool_decide; intros [= <- <-] Hne; try done.
  simpl. split; [|done]. unfold emplace.
  destruct (ues um !! allocate_ue_index du um) eqn:Hl; [by rewrite Hl|].
  rewrite lookup_insert_eq. by eexists.
Qed.

(** C7.  With NG and F1 up and no CU-UP available, an Initial UL RRC
    Message for a (PCI, C-RNTI) not yet known, while a UE index is free:
    the CU-CP sends to the DU an F1AP UE Context Release Command carrying an
    RRC Reject on SRB0, and nothing on NG; the UE is in the database, under
    that pair, and is removed only by the F1AP UE Context Release Complete,
    which again sends nothing. *)
Theorem attach_without_cu_up_is_rejected du du_ue_id pci_ crnti s index um :
  amf_is_connected s = true ->
  is_Some (dus s !! du ≫= gnb_du_id) ->
  cu_up_available s = false ->
  reachable (ue_mng s) ->
  get_ue_index pci_ crnti (ue_mng s) = ue_index_invalid ->
  pci_ <> INVALID_PCI -> crnti <> INVALID_RNTI ->
  add_ue (Z.of_nat du) (ue_mng s) = (index, um) -> index <> ue_index_invalid ->
  exists s',
    handle_initial_ul_rrc_message du du_ue_id pci_ crnti s = Some s'
    /\ let s'' := handle_ue_context_release_complete index s' in
       sent_to du s'
       = sent_to du s ++ [UeContextReleaseCommand index du_ue_id (Some Srb0) (Some RrcReject)]
       /\ ngap_tx s' = ngap_tx s
       /\ (exists ue,
             find_ue index (ue_mng s') = Some ue /\ pci ue = pci_ /\ c_rnti ue = crnti)
       /\ get_ue_index pci_ crnti (ue_mng s') = index
       /\ find_ue index (ue_mng s'') = None
       /\ ngap_tx s'' = ngap_tx s
       /\ sent_to du s'' = sent_to du s'.
Proof.
  intros Hng Hf1 Hup Hreach Hfresh Hp Hr Hadd Hidx.
  unfold handle_initial_ul_rrc_message, handle_ue_context_release_complete.
  rewrite bool_decide_eq_false_2 by (intros Hc; by apply Hc).
  rewrite Hadd, bool_decide_eq_false_2 by done.
  destruct (add_ue_creates _ _ _ _ Hadd Hidx) as [[ue0 Hue0] Hlk].
  rewrite set_ue_du_context_returns by done. rewrite Hue0.
  assert (get_ue_index pci_ crnti um = ue_index_invalid) as Hfresh'
    by (unfold get_ue_index in *; by rewrite Hlk).
  assert (pci_rnti_to_ue_index um !! (pci_, crnti) = None) as Hnone.
  { rewrite Hlk. apply get_ue_index_invalid; [|done]. by apply lookup_inv_reachable. }
  rewrite bool_decide_eq_true_2 by done. rewrite Hup.
  eexists. split; [done|]. cbv zeta.
  rewrite !sent_to_send_f1ap. simpl.
  split; [done|]. split; [done|].
  split.
  { eexists. unfold find_ue. simpl. rewrite lookup_insert_eq. split; [done|]. simpl.
    by rewrite !bool_decide_eq_false_2. }
  split.
  { unfold get_ue_index, emplace. simpl.
    rewrite Hnone, lookup_insert_eq. done. }
  split; [|split; [done|by rewrite !sent_to_set_ue_mng, sent_to_send_f1ap, sent_to_set_ue_mng]].
  unfold find_ue, remove_ue. simpl.
  rewrite bool_decide_eq_false_2 by done. rewrite lookup_insert_eq. simpl.
  by rewrite lookup_delete_eq.
Qed.

End AttachFacts.

Lemma sample_two_dus_slots :
  dus sample_two_dus !! 0%nat = Some anonymous_du
  /\ dus sample_two_dus !! 1%nat = Some anonymous_du
  /\ amf_is_connected sample_two_dus = true.
Proof. by vm_compute. Qed.

(** The first DU is admitted; a second DU with the same gNB-DU id 0x55 is
    refused and stays unbound. *)
Lemma f1_setup_admission_witness :
  sent_to 0 sample_first_du_up = [F1SetupResponse]
  /\ dus sample_first_du_up !! 0%nat
     = Some {| gnb_du_id := Some 85; du_cells := [Z.shiftl 411 14] |}
  /\ sent_to 1 (handle_f1_setup_request 1 sample_request sample_first_du_up)
     = [F1SetupFailure]
  /\ (dus (handle_f1_setup_request 1 sample_request sample_first_du_up) !! 1%nat
        ≫= gnb_du_id) = None.
Proof.
  destruct (f1_setup_admission 0 sample_request sample_two_dus anonymous_du
              ltac:(vm_compute; reflexivity) ltac:(reflexivity)) as (_ & Hok & _).
  destruct Hok as (Hsent & Hslot & _).
  { vm_compute; reflexivity. }
  { intros (j & slot & Hj & Hl & Hid).
    apply elem_of_map_to_list in Hl.
    set (l := map_to_list _) in Hl. vm_compute in l. subst l.
    apply elem_of_cons in Hl as [[= -> ->]|Hl]; [done|].
    apply list_elem_of_singleton in Hl as [= -> ->]. done. }
  { intros (nci & Hin & Hne). apply list_elem_of_singleton in Hin as ->.
    vm_compute in Hne. done. }
  destruct (f1_setup_admission 1 sample_request sample_first_du_up anonymous_du
              ltac:(vm_compute; reflexivity) ltac:(reflexivity)) as (Hfail & _ & _).
  destruct Hfail as (Hsent' & _ & Hslot' & _).
  { right; left. exists 0%nat, {| gnb_du_id := Some 85; du_cells := [Z.shiftl 411 14] |}.
    split; [done|]. split; [exact Hslot|reflexivity]. }
  split; [exact Hsent|]. split; [exact Hslot|]. split; [exact Hsent'|exact Hslot'].
Defined.

(** A cell identity 0 carries gNB-id 0, not the local one: F1 setup is
    refused. *)
Lemma f1_setup_other_gnb_id_refused :
  sent_to 0 (handle_f1_setup_request 0 {| req_gnb_du_id := 85; req_cells := [0] |}
               sample_two_dus) = [F1SetupFailure].
Proof. by vm_compute. Qed.

(** Before NG setup, F1 setup is refused. *)
Lemma f1_setup_without_ng_refused :
  sent_to 0 (handle_f1_setup_request 0 sample_request (connect_new_du sample_cu_cp).2)
  = [F1SetupFailure].
Proof. by vm_compute. Qed.

(** With NG and F1 up and no CU-UP, the UE with C-RNTI 0x4601 and DU-side
    id 0 on PCI 1 is rejected on SRB0 and removed on Release Complete. *)
Lemma attach_without_cu_up_is_rejected_witness :
  exists s',
    handle_initial_ul_rrc_message (H := sample_params) 0 0 1 17921 sample_first_du_up
    = Some s'
    /\ sent_to 0 s'
       = [F1SetupResponse; UeContextReleaseCommand 0 0 (Some Srb0) (Some RrcReject)]
    /\ ngap_tx s' = [NgSetupRequest]
    /\ get_ue_index (H := sample_params) 1 17921 (ue_mng s') = 0
    /\ find_ue 0 (ue_mng (handle_ue_context_release_complete (H := sample_params) 0 s'))
       = None.
Proof.
  destruct (attach_without_cu_up_is_rejected (H := sample_params) 0 0 1 17921
              sample_first_du_up 0 (add_ue (H := sample_params) 0 empty_manager).2
              ltac:(vm_compute; reflexivity)
              ltac:(vm_compute; eexists; reflexivity)
              ltac:(vm_compute; reflexivity)
              (reach_empty (H := sample_params))
              ltac:(vm_compute; reflexivity)
              ltac:(vm_compute; congruence)
              ltac:(vm_compute; congruence)
              ltac:(vm_compute; reflexivity)
              ltac:(vm_compute; congruence))
    as (s' & Hrun & Hsent & Hng & _ & Hget & Hgone & _).
  exists s'. split; [exact Hrun|].
  split; [exact Hsent|]. split; [exact Hng|]. split; [exact Hget|exact Hgone].
Defined.

End CuCp.


(** ** Event tracing *)

Module EventTracing.

(** Trace points are instants of [trace_clock], in clock ticks; trace
    durations are microseconds.  The clock and the duration type are
    declared in a header outside the sources: the number of ticks in a
    microsecond is a parameter, and [duration_cast] truncates towards
    zero. *)
Class trace_clock := TraceClock {
  ticks_per_usec : Z
}.

Definition duration_cast `{trace_clock} (ticks : Z) : Z := Z.quot ticks ticks_per_usec.

Record trace_event := TraceEvent {
  te_name : string;
  te_start_tp : Z
}.

Record trace_thres_event := TraceThresEvent {
  tt_name : string;
  tt_start_tp : Z;
  tt_thres : Z
}.

Inductive cpu_scope := ScopeGlobal | ScopeProcess | ScopeThread.

Record instant_trace_event := InstantTraceEvent {
  ie_name : string;
  ie_scope : cpu_scope
}.

(** [resource_usage::snapshot]. *)
Record snapshot := Snapshot {
  vol_ctxt_switch_count : Z;
  invol_ctxt_switch_count : Z
}.

Record rusage_trace_event := RusageTraceEvent {
  re_name : string;
  re_start_tp : Z;
  re_rusg_capture : snapshot
}.

Record rusage_thres_trace_event := RusageThresTraceEvent {
  rt_name : string;
  rt_start_tp : Z;
  rt_thres : Z;
  rt_rusg_capture : snapshot
}.

(** The three extended events that get formatted: [trace_event_extended],
    [instant_trace_event_extended] and [rusage_trace_event_extended]. *)
Inductive entry {rusage_diff : Type} :=
| EventEntry (name : string) (start_tp : Z) (cpu : Z) (thread_name : string) (duration : Z)
| InstantEntry (name : string) (scope : cpu_scope) (cpu : Z) (thread_name : string) (tp : Z)
| RusageEntry (name : string) (start_tp : Z) (cpu : Z) (thread_name : string) (duration : Z)
    (diff : rusage_diff).

Arguments entry : clear implicits.

(** What an operation reads from its environment: the clock, the CPU and
    the name of the calling thread, and the resource usage, which may be
    unavailable. *)
Record sample := Sample {
  now : Z;
  cpu : Z;
  thread_name : string;
  rusage_now : option snapshot
}.

(** [trace_format_parser::parse] on the characters of the format
    specification: the flag and the characters left from the position
    returned. *)
Definition closing_brace : Ascii.ascii := "}"%char.
Definition letter_l : Ascii.ascii := "l"%char.

Fixpoint parse_from (is_log : bool) (ctx : list Ascii.ascii) : bool * list Ascii.ascii :=
  match ctx with
  | [] => (is_log, [])
  | c :: rest =>
      if bool_decide (c = closing_brace) then (is_log, ctx)
      else parse_from (if bool_decide (c = letter_l) then true else is_log) rest
  end.

Definition parse (ctx : list Ascii.ascii) : bool * list Ascii.ascii := parse_from false ctx.

Section Tracers.

Context `{trace_clock}.

(** [resource_usage::diff] and the subtraction of two snapshots are
    declared in a header outside the sources. *)
Context {rusage_diff : Type}.
Variable snapshot_diff : snapshot -> snapshot -> rusage_diff.

Local Abbreviation entry := (entry rusage_diff).

(** The formatters of the extended events produce text from an event and
    the style flag ([true] for the log style [{:l}]); the tracers do not
    inspect that text. *)
Variable format : bool -> entry -> string.

Definition newline : string := String "010"%char EmptyString.

(** [event_trace_writer]: the text written so far, the flag of the first
    entry, the tasks pushed to the tracer worker and not run yet, and the
    flag of the overflow warning.  The worker type is declared in a header
    outside the sources; it is taken as the writer uses it: a bounded queue
    whose [push_task] tells whether the task was taken, and one thread
    that runs the tasks taken in the order they were pushed. *)
Record event_trace_writer := Writer {
  file : string;
  first_entry : bool;
  pending : list entry;
  warn_logged : bool
}.

(** The process-wide state: the unique writer, the files closed so far and
    the number of warnings sent to the logger. *)
Record tracing := Tracing {
  trace_file_writer : option event_trace_writer;
  closed_files : list string;
  warnings : nat
}.

Definition no_tracing : tracing :=
  {| trace_file_writer := None; closed_files := []; warnings := 0 |}.

(** The constructor prints the opening bracket. *)
Definition new_writer : event_trace_writer :=
  {| file := "["; first_entry := true; pending := []; warn_logged := false |}.

(** The task that [write_trace] pushes to the worker. *)
Definition run_task (w : event_trace_writer) (ev : entry) : event_trace_writer :=
  if first_entry w
  then {| file := file w +:+ newline +:+ format false ev; first_entry := false;
          pending := pending w; warn_logged := warn_logged w |}
  else {| file := file w +:+ "," +:+ newline +:+ format false ev;
          first_entry := first_entry w; pending := pending w;
          warn_logged := warn_logged w |}.

(** The worker runs the oldest pending task. *)
Definition worker_step (w : event_trace_writer) : event_trace_writer :=
  match pending w with
  | [] => w
  | ev :: rest =>
      run_task {| file := file w; first_entry := first_entry w; pending := rest;
                  warn_logged := warn_logged w |} ev
  end.

(** [wait_pending_tasks]: the worker runs everything that is pending. *)
Definition wait_pending_tasks (w : event_trace_writer) : event_trace_writer :=
  foldl run_task
    {| file := file w; first_entry := first_entry w; pending := [];
       warn_logged := warn_logged w |}
    (pending w).

(** The destructor: pending tasks are run, then the closing bracket is
    printed; the result is the text of the file. *)
Definition destroy_writer (w : event_trace_writer) : string :=
  file (wait_pending_tasks w) +:+ newline +:+ "]".

(** [open_trace_file]; [None] is [report_fatal_error], raised when a file
    is already open or [fopen] fails. *)
Definition open_trace_file (fopen_ok : bool) (t : tracing) : option tracing :=
  match trace_file_writer t with
  | Some _ => None
  | None =>
      if fopen_ok
      then Some {| trace_file_writer := Some new_writer; closed_files := closed_files t;
                   warnings := warnings t |}
      else None
  end.

Definition close_trace_file (t : tracing) : tracing :=
  match trace_file_writer t with
  | None => t
  | Some w =>
      {| trace_file_writer := None; closed_files := closed_files t ++ [destroy_writer w];
         warnings := warnings t |}
  end.

Definition is_trace_file_open (t : tracing) : bool :=
  match trace_file_writer t with Some _ => true | None => false end.

Definition push_task (ev : entry) (w : event_trace_writer) : event_trace_writer :=
  {| file := file w; first_entry := first_entry w; pending := pending w ++ [ev];
     warn_logged := warn_logged w |}.

Definition set_warn_logged (w : event_trace_writer) : event_trace_writer :=
  {| file := file w; first_entry := first_entry w; pending := pending w;
     warn_logged := true |}.

(** The instant event traced on the first refusal of the queue; [smp] is
    what its construction reads from the environment. *)
Definition overflow_entry (smp : sample) : entry :=
  InstantEntry "trace_overflow" ScopeGlobal (cpu smp) (thread_name smp) (now smp).

(** [write_trace] on the open writer.  [accepted] tells whether the worker
    queue takes the task; on the first refusal the writer traces the
    instant event [trace_overflow], whose own task the queue takes or not
    ([warn_accepted]), and warns on the logger. *)
Definition write_trace (accepted warn_accepted : bool) (smp : sample) (ev : entry)
    (w : event_trace_writer) (t : tracing) : tracing :=
  if accepted
  then {| trace_file_writer := Some (push_task ev w); closed_files := closed_files t;
          warnings := warnings t |}
  else if warn_logged w
  then t
  else
    let w1 := set_warn_logged w in
    {| trace_file_writer :=
         Some (if warn_accepted then push_task (overflow_entry smp) w1 else w1);
       closed_files := closed_files t; warnings := S (warnings t) |}.

(** The events a tracer can be given. *)
Inductive traced :=
| Event (ev : trace_event)
| ThresEvent (ev : trace_thres_event)
| Instant (ev : instant_trace_event)
| Rusage (ev : rusage_trace_event)
| RusageThres (ev : rusage_thres_trace_event).

(** The extended event built for a traced event, if one is to be written:
    the outer [None] is the failure of [value()] on a missing resource
    usage, the inner one an event under its threshold.  [or_zero] is the
    [value_or] of the logger tracer. *)
Definition extend (or_zero : bool) (smp : sample) (ev : traced) : option (option entry) :=
  let usage :=
    if or_zero
    then Some (default {| vol_ctxt_switch_count := 0; invol_ctxt_switch_count := 0 |}
                 (rusage_now smp))
    else rusage_now smp in
  match ev with
  | Event e =>
      Some (Some (EventEntry (te_name e) (te_start_tp e) (cpu smp) (thread_name smp)
                    (duration_cast (now smp - te_start_tp e))))
  | ThresEvent e =>
      let dur := duration_cast (now smp - tt_start_tp e) in
      if bool_decide (tt_thres e <= dur)
      then Some (Some (EventEntry (tt_name e) (tt_start_tp e) (cpu smp) (thread_name smp) dur))
      else Some None
  | Instant e =>
      Some (Some (InstantEntry (ie_name e) (ie_scope e) (cpu smp) (thread_name smp) (now smp)))
  | Rusage e =>
      let dur := duration_cast (now smp - re_start_tp e) in
      u ← usage;
      Some (Some (RusageEntry (re_name e) (re_start_tp e) (cpu smp) (thread_name smp) dur
                    (snapshot_diff u (re_rusg_capture e))))
  | RusageThres e =>
      let dur := duration_cast (now smp - rt_start_tp e) in
      if bool_decide (rt_thres e <= dur)
      then
        u ← usage;
        Some (Some (RusageEntry (rt_name e) (rt_start_tp e) (cpu smp) (thread_name smp) dur
                      (snapshot_diff u (rt_rusg_capture e))))
      else Some None
  end.

(** [file_event_tracer<true>::operator<<]: nothing happens unless a trace
    file is open. *)
Definition file_trace (accepted warn_accepted : bool) (smp warn_smp : sample) (ev : traced)
    (t : tracing) : option tracing :=
  match trace_file_writer t with
  | None => Some t
  | Some w =>
      match extend false smp ev with
      | None => None
      | Some None => Some t
      | Some (Some e) => Some (write_trace accepted warn_accepted warn_smp e w t)
      end
  end.

(** The entries for a span of resource-usage events: the total from the
    first event to the last, then, when there are more than two events, one
    entry per pair of neighbours. *)
Fixpoint rusage_segments (smp : sample) (prev : rusage_trace_event)
    (rest : list rusage_trace_event) : list entry :=
  match rest with
  | [] => []
  | it :: rest' =>
      RusageEntry (re_name it) (re_start_tp prev) (cpu smp) (thread_name smp)
        (duration_cast (re_start_tp it - re_start_tp prev))
        (snapshot_diff (re_rusg_capture it) (re_rusg_capture prev))
      :: rusage_segments smp it rest'
  end.

(** [None] is [front()] on an empty span. *)
Definition rusage_span (smp : sample) (events : list rusage_trace_event)
  : option (list entry) :=
  match events with
  | [] => None
  | front :: rest =>
      let back := List.last events front in
      Some
        (RusageEntry (re_name front) (re_start_tp front) (cpu smp) (thread_name smp)
           (duration_cast (re_start_tp back - re_start_tp front))
           (snapshot_diff (re_rusg_capture back) (re_rusg_capture front))
         :: (if bool_decide (2 < length events)%nat then rusage_segments smp front rest
             else []))
  end.

(** [test_event_tracer]: the style and the formatted events stored. *)
Record test_event_tracer := TestTracer {
  is_log_stype : bool;
  last_events : list string
}.

Definition record_entries (es : list entry) (tr : test_event_tracer) : test_event_tracer :=
  {| is_log_stype := is_log_stype tr;
     last_events := last_events tr ++ (format (is_log_stype tr) <$> es) |}.

(** [test_event_tracer::operator<<] on one event. *)
Definition test_trace (smp : sample) (ev : traced) (tr : test_event_tracer)
  : option test_event_tracer :=
  match extend false smp ev with
  | None => None
  | Some None => Some tr
  | Some (Some e) => Some (record_entries [e] tr)
  end.

(** [test_event_tracer::operator<<] on a span of resource-usage events. *)
Definition test_trace_span (smp : sample) (events : list rusage_trace_event)
    (tr : test_event_tracer) : option test_event_tracer :=
  es ← rusage_span smp events; Some (record_entries es tr).

(** [logger_event_tracer<true>::push]: the event goes to the log channel in
    the log style; a missing resource usage counts as zero. *)
Definition logger_push (smp : sample) (ev : traced) (log_ch : list string)
  : option (list string) :=
  match extend true smp ev with
  | None => None
  | Some None => Some log_ch
  | Some (Some e) => Some (log_ch ++ [format true e])
  end.

(** One move of a tracing session on the open file: an extended event is
    handed to [write_trace] or the worker runs a task. *)
Inductive move :=
| Trace (accepted warn_accepted : bool) (smp : sample) (ev : entry)
| Work.

Definition do_move (m : move) (t : tracing) : tracing :=
  match trace_file_writer t with
  | None => t
  | Some w =>
      match m with
      | Trace accepted warn_accepted smp ev => write_trace accepted warn_accepted smp ev w t
      | Work =>
          {| trace_file_writer := Some (worker_step w); closed_files := closed_files t;
             warnings := warnings t |}
      end
  end.

(** The entries whose task the queue has taken, given the warning flag:
    the events accepted, and the overflow instant of the first refusal when
    its task is accepted. *)
Fixpoint taken (warned : bool) (ms : list move) : list entry :=
  match ms with
  | [] => []
  | Work :: ms' => taken warned ms'
  | Trace true _ _ ev :: ms' => ev :: taken warned ms'
  | Trace false warn_accepted smp _ :: ms' =>
      if warned then taken warned ms'
      else (if warn_accepted then [overflow_entry smp] else []) ++ taken true ms'
  end.

(** The text of a trace file that lists [es]. *)
Definition listing (es : list entry) : string :=
  match es with
  | [] => EmptyString
  | e :: es' =>
      newline +:+ format false e
      +:+ foldr (fun e' s => "," +:+ newline +:+ format false e' +:+ s) EmptyString es'
  end.

(** The text printed by the tasks, as a function of the text so far and of
    the flag of the first entry. *)
Definition print_entry (st : string * bool) (ev : entry) : string * bool :=
  if st.2 then (st.1 +:+ newline +:+ format false ev, false)
  else (st.1 +:+ "," +:+ newline +:+ format false ev, false).

Definition text (w : event_trace_writer) : string * bool := (file w, first_entry w).

Definition is_refused (m : move) : bool :=
  match m with Trace false _ _ _ => true | _ => false end.

Definition entry_duration (e : entry) : Z :=
  match e with
  | EventEntry _ _ _ _ d | RusageEntry _ _ _ _ d _ => d
  | InstantEntry _ _ _ _ _ => 0
  end.

Definition durations_sum (es : list entry) : Z := foldr Z.add 0 (entry_duration <$> es).

End Tracers.

Arguments event_trace_writer : clear implicits.
Arguments tracing : clear implicits.
Arguments move : clear implicits.

(** *** Sample inputs *)

(** A clock with nanosecond ticks. *)
Definition sample_clock : trace_clock := {| ticks_per_usec := 1000 |}.

Definition sample_diff (a b : snapshot) : Z * Z :=
  (vol_ctxt_switch_count a - vol_ctxt_switch_count b,
   invol_ctxt_switch_count a - invol_ctxt_switch_count b).

(** A formatter that prints the name of the event only. *)
Definition sample_format (is_log : bool) (e : entry (Z * Z)) : string :=
  match e with
  | EventEntry name _ _ _ _ | InstantEntry name _ _ _ _ | RusageEntry name _ _ _ _ _ =>
      if is_log then "event=" +:+ name else name
  end.

(** A thread on CPU 3 whose resource usage cannot be read. *)
Definition sample_env (t : Z) : sample :=
  {| now := t; cpu := 3; thread_name := "up_phy_dl"; rusage_now := None |}.

(** Two events are taken, two are refused (the overflow instant of the
    first refusal is taken), and the worker runs once in between. *)
Definition sample_moves : list (move (Z * Z)) :=
  [Trace true false (sample_env 10) (EventEntry "a" 0 3 "up_phy_dl" 5);
   Trace false true (sample_env 20) (EventEntry "b" 10 3 "up_phy_dl" 5);
   Work;
   Trace false true (sample_env 30) (EventEntry "c" 20 3 "up_phy_dl" 5);
   Trace true false (sample_env 40) (EventEntry "d" 30 3 "up_phy_dl" 5)].

Definition sample_span : list rusage_trace_event :=
  [{| re_name := "s0"; re_start_tp := 0;
      re_rusg_capture := {| vol_ctxt_switch_count := 0; invol_ctxt_switch_count := 0 |} |};
   {| re_name := "s1"; re_start_tp := 1500;
      re_rusg_capture := {| vol_ctxt_switch_count := 1; invol_ctxt_switch_count := 0 |} |};
   {| re_name := "s2"; re_start_tp := 3200;
      re_rusg_capture := {| vol_ctxt_switch_count := 1; invol_ctxt_switch_count := 2 |} |};
   {| re_name := "s3"; re_start_tp := 3900;
      re_rusg_capture := {| vol_ctxt_switch_count := 4; invol_ctxt_switch_count := 2 |} |}].

(** *** Facts *)

Lemma append_assoc (a b c : string) : (a +:+ b) +:+ c = a +:+ b +:+ c.
Proof.
  induction a as [|x a IH]; [done|].
  change (String x ((a +:+ b) +:+ c) = String x (a +:+ b +:+ c)). by f_equal.
Qed.

Lemma append_nil_r (a : string) : a +:+ EmptyString = a.
Proof.
  induction a as [|x a IH]; [done|].
  change (String x (a +:+ EmptyString) = String x a). by f_equal.
Qed.

(** [parse] stops at the first closing brace, or at the end when there is
    none, and sets the flag exactly when the letter [l] stands before that
    position. *)
Theorem parse_reads_up_to_brace (ctx : list Ascii.ascii) :
  exists before,
    ctx = before ++ (parse ctx).2
    /\ (closing_brace ∉ before)
    /\ ((parse ctx).2 = [] \/ exists rest, (parse ctx).2 = closing_brace :: rest)
    /\ ((parse ctx).1 = true <-> letter_l ∈ before).
Proof.
  unfold parse.
  assert (forall b,
            exists before,
              ctx = before ++ (parse_from b ctx).2
              /\ (closing_brace ∉ before)
              /\ ((parse_from b ctx).2 = []
                  \/ exists rest, (parse_from b ctx).2 = closing_brace :: rest)
              /\ ((parse_from b ctx).1 = true <-> b = true \/ letter_l ∈ before)) as Hgen.
  { induction ctx as [|c ctx IH]; intros b; simpl.
    - exists []. split; [done|]. split; [apply not_elem_of_nil|]. split; [by left|].
      split; [by left|]. intros [?|Hin]; [done|]. by apply elem_of_nil in Hin.
    - case_bool_decide as Hc; simpl.
      + exists []. split; [done|]. split; [apply not_elem_of_nil|].
        split; [right; subst c; by eexists|].
        split; [by left|]. intros [?|Hin]; [done|]. by apply elem_of_nil in Hin.
      + destruct (IH (if bool_decide (c = letter_l) then true else b))
          as (before & Heq & Hnb & Hrest & Hflag).
        exists (c :: before). split; [simpl; by f_equal|].
        split; [by apply not_elem_of_cons|]. split; [done|].
        rewrite Hflag, elem_of_cons. case_bool_decide as Hl.
        * split; [intros _; right; left; by subst|done || by left].
        * split; [intros [?|?]; [by left|by right; right]|].
          intros [?|[?|?]]; [by left|by subst|by right]. }
  destruct (Hgen false) as (before & Heq & Hnb & Hrest & Hflag).
  exists before. split; [done|]. split; [done|]. split; [done|].
  rewrite Hflag. split; [by intros [?|?]|by right].
Qed.

Section TracerFacts.

Context `{trace_clock}.
Context {rusage_diff : Type}.
Variable snapshot_diff : snapshot -> snapshot -> rusage_diff.
Variable format : bool -> entry rusage_diff -> string.

Local Abbreviation entry := (entry rusage_diff).
Local Abbreviation writer := (event_trace_writer rusage_diff).
Local Abbreviation tracing := (tracing rusage_diff).
Local Abbreviation move := (move rusage_diff).
Local Abbreviation print := (print_entry format).
Local Abbreviation listed := (listing format).

Lemma text_run_task (w : writer) (ev : entry) :
  text (run_task format w ev) = print (text w) ev
  /\ pending (run_task format w ev) = pending w
  /\ warn_logged (run_task format w ev) = warn_logged w.
Proof. unfold run_task, print_entry, text. simpl. by destruct (first_entry w). Qed.

Lemma text_run_tasks (evs : list entry) (w : writer) :
  text (foldl (run_task format) w evs) = foldl print (text w) evs.
Proof.
  revert w. induction evs as [|ev evs IH]; intros w; simpl; [done|].
  rewrite IH. by rewrite (proj1 (text_run_task w ev)).
Qed.

Lemma text_wait_pending_tasks (w : writer) :
  text (wait_pending_tasks format w) = foldl print (text w) (pending w).
Proof. unfold wait_pending_tasks. by rewrite text_run_tasks. Qed.

Lemma listing_tail (z : string) (es : list entry) :
  foldr (fun e' s => "," +:+ newline +:+ format false e' +:+ s) z es
  = foldr (fun e' s => "," +:+ newline +:+ format false e' +:+ s) EmptyString es +:+ z.
Proof.
  induction es as [|e es IH]; simpl; [done|].
  rewrite IH. by rewrite !append_assoc.
Qed.

Lemma listing_snoc (es : list entry) (ev : entry) :
  listed (es ++ [ev])
  = match es with
    | [] => newline +:+ format false ev
    | _ :: _ => listed es +:+ "," +:+ newline +:+ format false ev
    end.
Proof.
  destruct es as [|e es]; simpl.
  - by rewrite append_nil_r.
  - rewrite foldr_app. simpl. rewrite listing_tail, append_nil_r.
    by rewrite !append_assoc.
Qed.

(** Printing entries one by one builds the listing. *)
Lemma print_listing (es0 es : list entry) :
  foldl print ("[" +:+ listed es0, bool_decide (es0 = [])) es
  = ("[" +:+ listed (es0 ++ es), bool_decide (es0 ++ es = [])).
Proof.
  revert es0. induction es as [|ev es IH]; intros es0; simpl.
  - by rewrite app_nil_r.
  - replace (print ("[" +:+ listed es0, bool_decide (es0 = [])) ev)
      with ("[" +:+ listed (es0 ++ [ev]), bool_decide (es0 ++ [ev] = [])).
    + rewrite IH. by rewrite <- app_assoc.
    + unfold print_entry. simpl. rewrite listing_snoc.
      rewrite (bool_decide_eq_false_2 (es0 ++ [ev] = [])) by (by destruct es0).
      destruct es0 as [|e0 es0]; simpl; [done|].
      by rewrite !append_assoc.
Qed.

Local Abbreviation session := (foldl (fun t m => do_move format m t)).

(** However the worker and the traced events interleave, what the file
    will hold once the pending tasks are run is the text of the entries
    taken by the queue, in the order they were taken. *)
Lemma session_text (ms : list move) (w : writer) (cl : list string) (wn : nat) :
  exists w',
    session {| trace_file_writer := Some w; closed_files := cl; warnings := wn |} ms
    = {| trace_file_writer := Some w'; closed_files := cl;
         warnings := (wn + if negb (warn_logged w) && existsb is_refused ms then 1 else 0)%nat |}
    /\ foldl print (text w') (pending w')
       = foldl print (text w) (pending w ++ taken (warn_logged w) ms).
Proof.
  revert w wn. induction ms as [|m ms IH]; intros w wn.
  - exists w. simpl. rewrite andb_false_r, Nat.add_0_r, app_nil_r. done.
  - cbn [foldl]. unfold do_move at 2. cbn [trace_file_writer].
    destruct m as [[|] warn_accepted smp ev|]; unfold write_trace;
      cbn [closed_files warnings taken existsb is_refused orb].
    + destruct (IH (push_task ev w) wn) as (w' & -> & Htext).
      exists w'. split; [done|]. rewrite Htext. simpl. by rewrite <- app_assoc.
    + destruct (warn_logged w) eqn:Hwl.
      * destruct (IH w wn) as (w' & Hs & Htext). rewrite Hwl in Hs, Htext.
        exists w'. split; [exact Hs|exact Htext].
      * destruct warn_accepted.
        -- destruct (IH (push_task (overflow_entry smp) (set_warn_logged w)) (S wn))
             as (w' & -> & Htext).
           exists w'. simpl. split; [f_equal; lia|].
           rewrite Htext. simpl. by rewrite <- app_assoc.
        -- destruct (IH (set_warn_logged w) (S wn)) as (w' & -> & Htext).
           exists w'. simpl. split; [f_equal; lia|]. exact Htext.
    + destruct (IH (worker_step format w) wn) as (w' & -> & Htext).
      exists w'. rewrite Htext. unfold worker_step.
      destruct (pending w) as [|ev evs] eqn:Hp; simpl.
      * rewrite Hp. done.
      * destruct (text_run_task
                    {| file := file w; first_entry := first_entry w; pending := evs;
                       warn_logged := warn_logged w |} ev) as (-> & -> & ->).
        done.
Qed.

(** A trace file that has been opened, written to and closed is the
    bracketed, comma-separated listing of exactly the entries that the
    worker queue accepted, in the order they were traced, together with the
    overflow instant of the first refusal when the queue took it; entries
    the queue refused never appear, and one warning is logged if any entry
    was refused. *)
Theorem closed_file_lists_taken_entries (fopen_ok : bool) (t0 t1 : tracing) (ms : list move) :
  open_trace_file fopen_ok t0 = Some t1 ->
  let t2 := close_trace_file format (session t1 ms) in
  closed_files t2
  = closed_files t0 ++ ["[" +:+ listed (taken false ms) +:+ newline +:+ "]"]
  /\ trace_file_writer t2 = None
  /\ warnings t2 = (warnings t0 + if existsb is_refused ms then 1 else 0)%nat.
Proof.
  unfold open_trace_file. destruct (trace_file_writer t0); [done|].
  destruct fopen_ok; [|done]. intros [= <-]. cbv zeta.
  destruct (session_text ms new_writer (closed_files t0) (warnings t0)) as (w' & -> & Htext).
  unfold close_trace_file. simpl. split; [|done].
  f_equal. f_equal. unfold destroy_writer.
  pose proof (text_wait_pending_tasks w') as Hw. rewrite Htext in Hw.
  simpl in Hw. change (text new_writer) with ("[" +:+ listed [], bool_decide (@nil entry = []))
    in Hw.
  rewrite print_listing in Hw. simpl in Hw.
  apply (f_equal fst) in Hw. simpl in Hw. rewrite Hw.
  by rewrite !append_assoc.
Qed.

Lemma duration_cast_reaches (ticks thres : Z) :
  0 < ticks_per_usec -> 0 < thres ->
  thres <= duration_cast ticks <-> thres * ticks_per_usec <= ticks.
Proof.
  intros Hk Hth. unfold duration_cast.
  destruct (Z_le_gt_dec 0 ticks) as [Hpos|Hneg].
  - rewrite Z.quot_div_nonneg by lia.
    pose proof (Z.mul_div_le ticks ticks_per_usec Hk) as Hle.
    split; intros Hr.
    + etrans; [|exact Hle]. rewrite (Z.mul_comm thres).
      by apply Z.mul_le_mono_nonneg_l; [lia|].
    + apply Z.div_le_lower_bound; lia.
  - replace ticks with (- - ticks) by lia.
    rewrite Z.quot_opp_l by lia.
    pose proof (Z.quot_pos (- ticks) ticks_per_usec ltac:(lia) Hk) as Hq.
    assert (0 < thres * ticks_per_usec) by (by apply Z.mul_pos_pos).
    lia.
Qed.

(** The file tracer compares the thresholds with elapsed whole
    microseconds: with a positive threshold, an event is traced exactly
    when the clock has advanced by at least that many microseconds in ticks
    since its start, and then as the plain event of the same name and
    start; otherwise nothing changes, and the resource usage is not even
    read. *)
Theorem threshold_counts_whole_microseconds (accepted warn_accepted : bool)
    (smp warn_smp : sample) (e : trace_thres_event) (r : rusage_thres_trace_event)
    (t : tracing) :
  0 < ticks_per_usec -> 0 < tt_thres e -> 0 < rt_thres r ->
  file_trace snapshot_diff accepted warn_accepted smp warn_smp (ThresEvent e) t
  = (if bool_decide (tt_thres e * ticks_per_usec <= now smp - tt_start_tp e)
     then file_trace snapshot_diff accepted warn_accepted smp warn_smp
            (Event {| te_name := tt_name e; te_start_tp := tt_start_tp e |}) t
     else Some t)
  /\ file_trace snapshot_diff accepted warn_accepted smp warn_smp (RusageThres r) t
     = (if bool_decide (rt_thres r * ticks_per_usec <= now smp - rt_start_tp r)
        then file_trace snapshot_diff accepted warn_accepted smp warn_smp
               (Rusage {| re_name := rt_name r; re_start_tp := rt_start_tp r;
                          re_rusg_capture := rt_rusg_capture r |}) t
        else Some t).
Proof.
  clear format. intros Hk He Hr. unfold file_trace, extend. simpl.
  destruct (trace_file_writer t) as [w|]; [|split; by case_bool_decide].
  split.
  - pose proof (duration_cast_reaches (now smp - tt_start_tp e) (tt_thres e) Hk He) as Hiff.
    repeat case_bool_decide; tauto || done.
  - pose proof (duration_cast_reaches (now smp - rt_start_tp r) (rt_thres r) Hk Hr) as Hiff.
    repeat case_bool_decide; tauto || done.
Qed.

(** The file tracer does nothing while no trace file is open, whatever the
    event.  With a file open it fails in one case only: a resource-usage
    event that is to be written (for the threshold kind, one that reaches
    its threshold) while the resource usage of the thread cannot be
    read. *)
Theorem file_trace_fails_only_without_usage (accepted warn_accepted : bool)
    (smp warn_smp : sample) (ev : traced) (t : tracing) :
  (is_trace_file_open t = false ->
   file_trace snapshot_diff accepted warn_accepted smp warn_smp ev t = Some t)
  /\ (file_trace snapshot_diff accepted warn_accepted smp warn_smp ev t = None
      <-> is_trace_file_open t = true
          /\ rusage_now smp = None
          /\ match ev with
             | Rusage _ => True
             | RusageThres r => rt_thres r <= duration_cast (now smp - rt_start_tp r)
             | _ => False
             end).
Proof.
  clear format. unfold file_trace, is_trace_file_open, extend.
  destruct (trace_file_writer t) as [w|]; [|split; [done|]; split; [done|by intros [? _]]].
  split; [done|].
  destruct ev as [e|e|e|e|e]; simpl.
  - split; [done|tauto].
  - case_bool_decide; (split; [done|tauto]).
  - split; [done|tauto].
  - destruct (rusage_now smp); simpl; [split; [done|by intros (_ & ? & _)]|done].
  - case_bool_decide; [|split; [done|tauto]].
    destruct (rusage_now smp); simpl; [split; [done|by intros (_ & ? & _)]|done].
Qed.

(** The logger tracer never fails, not even when the resource usage cannot
    be read, and it logs the very text that a test tracer in the log style
    records for the same event, whenever that one succeeds. *)
Theorem logger_push_never_fails (smp : sample) (ev : traced) (log_ch : list string) :
  exists log_ch',
    logger_push snapshot_diff format smp ev log_ch = Some log_ch'
    /\ forall tr',
         test_trace snapshot_diff format smp ev
           {| is_log_stype := true; last_events := log_ch |} = Some tr' ->
         last_events tr' = log_ch'.
Proof.
  unfold logger_push, test_trace, extend, record_entries.
  destruct ev as [e|e|e|e|e]; simpl.
  - eexists. split; [done|]. by intros tr' [= <-].
  - case_bool_decide; (eexists; split; [done|]; by intros tr' [= <-]).
  - eexists. split; [done|]. by intros tr' [= <-].
  - destruct (rusage_now smp); simpl; (eexists; split; [done|]); [by intros tr' [= <-]|done].
  - case_bool_decide; [|eexists; split; [done|]; by intros tr' [= <-]].
    destruct (rusage_now smp); simpl; (eexists; split; [done|]); [by intros tr' [= <-]|done].
Qed.

Lemma rusage_segments_length (smp : sample) (rest : list rusage_trace_event)
    (prev : rusage_trace_event) :
  length (rusage_segments snapshot_diff smp prev rest) = length rest.
Proof. revert prev. induction rest as [|it rest IH]; intros prev; simpl; [done|by rewrite IH]. Qed.

Lemma rusage_segments_lookup (smp : sample) (rest : list rusage_trace_event)
    (prev : rusage_trace_event) (i : nat) (a b : rusage_trace_event) :
  (prev :: rest) !! i = Some a -> rest !! i = Some b ->
  rusage_segments snapshot_diff smp prev rest !! i
  = Some (RusageEntry (re_name b) (re_start_tp a) (cpu smp) (thread_name smp)
            (duration_cast (re_start_tp b - re_start_tp a))
            (snapshot_diff (re_rusg_capture b) (re_rusg_capture a))).
Proof.
  revert prev i. induction rest as [|it rest IH]; intros prev i Ha Hb; [done|].
  destruct i as [|i]; simpl in *.
  - by simplify_eq.
  - by apply IH.
Qed.

(** A span of resource-usage events gives no entry when it is empty (where
    the code reads the front of an empty span).  Otherwise the first entry
    is the total, from the first event to the last under the name of the
    first; up to two events nothing follows, and beyond two there is one
    more entry per pair of neighbours, named after the later event and
    starting at the earlier one. *)
Theorem span_entries_shape (smp : sample) (events : list rusage_trace_event) :
  match events with
  | [] => rusage_span snapshot_diff smp events = None
  | front :: rest =>
      exists segs,
        rusage_span snapshot_diff smp events
        = Some (RusageEntry (re_name front) (re_start_tp front) (cpu smp) (thread_name smp)
                  (duration_cast (re_start_tp (List.last events front) - re_start_tp front))
                  (snapshot_diff (re_rusg_capture (List.last events front))
                     (re_rusg_capture front))
                :: segs)
        /\ length segs = (if bool_decide (2 < length events)%nat then length rest else 0%nat)
        /\ ((2 < length events)%nat ->
            forall i a b,
              events !! i = Some a -> events !! S i = Some b ->
              segs !! i
              = Some (RusageEntry (re_name b) (re_start_tp a) (cpu smp) (thread_name smp)
                        (duration_cast (re_start_tp b - re_start_tp a))
                        (snapshot_diff (re_rusg_capture b) (re_rusg_capture a))))
  end.
Proof.
  destruct events as [|front rest]; [done|].
  unfold rusage_span. eexists. split; [done|].
  case_bool_decide as Hlen.
  - split; [apply rusage_segments_length|].
    intros _ i a b Ha Hb. by apply rusage_segments_lookup.
  - split; [done|]. intros Hlen'. by destruct Hlen.
Qed.

Lemma last_cons {A : Type} (l : list A) (a d : A) : List.last (a :: l) d = List.last l a.
Proof.
  revert a d. induction l as [|b l IH]; intros a d; [done|].
  change (List.last (a :: b :: l) d) with (List.last (b :: l) d).
  by rewrite !IH.
Qed.

Lemma rusage_segments_durations (smp : sample) (rest : list rusage_trace_event)
    (prev : rusage_trace_event) :
  0 < ticks_per_usec ->
  (forall i a b, (prev :: rest) !! i = Some a -> rest !! i = Some b ->
                 re_start_tp a <= re_start_tp b) ->
  let total := re_start_tp (List.last rest prev) - re_start_tp prev in
  let sum := durations_sum (rusage_segments snapshot_diff smp prev rest) in
  0 <= sum
  /\ ticks_per_usec * sum <= total
  /\ total <= ticks_per_usec * sum + Z.of_nat (length rest) * (ticks_per_usec - 1).
Proof.
  intros Hk. revert prev.
  induction rest as [|it rest IH]; intros prev Hsorted; cbv zeta.
  - simpl. unfold durations_sum. simpl. lia.
  - assert (re_start_tp prev <= re_start_tp it) as Hle by (by apply (Hsorted 0%nat)).
    destruct (IH it) as (IHpos & IHlo & IHhi).
    { intros i a b Ha Hb. by apply (Hsorted (S i)). }
    rewrite last_cons.
    unfold durations_sum in *. cbn [rusage_segments fmap list_fmap foldr entry_duration].
    change (list_fmap _ _ entry_duration ?l) with (entry_duration <$> l).
    set (sum := foldr Z.add 0 (entry_duration <$> rusage_segments snapshot_diff smp it rest))
      in *.
    set (d := re_start_tp it - re_start_tp prev).
    unfold duration_cast. rewrite Z.quot_div_nonneg by lia.
    pose proof (Z.mul_div_le d ticks_per_usec Hk).
    pose proof (Z.mul_succ_div_gt d ticks_per_usec Hk).
    assert (0 <= d / ticks_per_usec) by (apply Z.div_pos; unfold d; lia).
    cbn [length]. rewrite Nat2Z.inj_succ. unfold d in *. nia.
Qed.

(** When the span has more than two events and their start times do not
    decrease, the durations of the entries per pair of neighbours add up to
    the duration of the total, up to the microseconds lost by truncating
    each of them: the sum never exceeds the total, and falls short of it by
    less than one microsecond per entry. *)
Theorem span_segments_add_up (smp : sample) (events : list rusage_trace_event) :
  0 < ticks_per_usec ->
  (2 < length events)%nat ->
  (forall i a b, events !! i = Some a -> events !! S i = Some b ->
                 re_start_tp a <= re_start_tp b) ->
  exists total segs,
    rusage_span snapshot_diff smp events = Some (total :: segs)
    /\ S (length segs) = length events
    /\ durations_sum segs <= entry_duration total < durations_sum segs + Z.of_nat (length segs).
Proof.
  intros Hk Hlen Hsorted.
  destruct events as [|front rest]; [simpl in Hlen; lia|].
  unfold rusage_span. rewrite bool_decide_eq_true_2 by done.
  eexists _, _. split; [done|].
  rewrite rusage_segments_length. split; [done|].
  cbn [entry_duration].
  rewrite last_cons.
  destruct (rusage_segments_durations smp rest front Hk) as (Hpos & Hlo & Hhi).
  { intros i a b Ha Hb. by apply (Hsorted i). }
  set (sum := durations_sum _) in *.
  set (d := re_start_tp _ - re_start_tp front) in *.
  assert (0 < Z.of_nat (length rest)) by (simpl in Hlen; lia).
  unfold duration_cast. rewrite Z.quot_div_nonneg by nia.
  split.
  - apply Z.div_le_lower_bound; lia.
  - apply Z.div_lt_upper_bound; nia.
Qed.

End TracerFacts.

(** *** Concrete runs *)

Lemma closed_file_lists_taken_entries_witness :
  closed_files
    (close_trace_file sample_format
       (foldl (fun t m => do_move sample_format m t)
          {| trace_file_writer := Some new_writer; closed_files := []; warnings := 0 |}
          sample_moves))
  = ["[" +:+ newline +:+ "a," +:+ newline +:+ "trace_overflow," +:+ newline +:+ "d"
     +:+ newline +:+ "]"].
Proof.
  exact (proj1 (closed_file_lists_taken_entries sample_format true no_tracing _ sample_moves
                  eq_refl)).
Defined.

Lemma threshold_counts_whole_microseconds_witness :
  let t := {| trace_file_writer := Some new_writer; closed_files := []; warnings := 0 |} in
  file_trace (H := sample_clock) sample_diff true false (sample_env 6999) (sample_env 6999)
    (ThresEvent {| tt_name := "pdsch"; tt_start_tp := 1000; tt_thres := 5 |}) t
  = Some {| trace_file_writer :=
              Some (push_task (EventEntry "pdsch" 1000 3 "up_phy_dl" 5) new_writer);
            closed_files := []; warnings := 0 |}
  /\ file_trace (H := sample_clock) sample_diff true false (sample_env 6999) (sample_env 6999)
       (RusageThres {| rt_name := "pdsch"; rt_start_tp := 3000; rt_thres := 4;
                       rt_rusg_capture := {| vol_ctxt_switch_count := 0;
                                             invol_ctxt_switch_count := 0 |} |}) t
     = Some t.
Proof.
  exact (threshold_counts_whole_microseconds (H := sample_clock) sample_diff true false
           (sample_env 6999) (sample_env 6999)
           {| tt_name := "pdsch"; tt_start_tp := 1000; tt_thres := 5 |}
           {| rt_name := "pdsch"; rt_start_tp := 3000; rt_thres := 4;
              rt_rusg_capture := {| vol_ctxt_switch_count := 0;
                                    invol_ctxt_switch_count := 0 |} |}
           {| trace_file_writer := Some new_writer; closed_files := []; warnings := 0 |}
           eq_refl eq_refl eq_refl).
Defined.

Lemma span_segments_add_up_witness :
  exists total segs,
    rusage_span (H := sample_clock) sample_diff (sample_env 4000) sample_span
    = Some (total :: segs)
    /\ S (length segs) = length sample_span
    /\ durations_sum segs <= entry_duration total < durations_sum segs + Z.of_nat (length segs).
Proof.
  apply (span_segments_add_up (H := sample_clock) sample_diff (sample_env 4000) sample_span).
  - reflexivity.
  - vm_compute. lia.
  - intros [|[|[|[|i]]]] a b Ha Hb; vm_compute in Ha, Hb; try discriminate;
      injection Ha as <-; injection Hb as <-; vm_compute; discriminate.
Defined.

End EventTracing.
